(** * Scalar lattice layout and the in-memory map object of QDP++

    A shallow embedding of the scalar layout routines (namespace
    [QDP::Layout]), of [MapObjectMemory<K,V>] and of the binary output
    of [multi1d] ([qdp_binx.h]), with the statements their
    specification makes about them and further properties of the code.

    Conventions of the embedding.
    - A C++ [int] is a [Z] between [INT_MIN] and [INT_MAX] (32 bits).
      An operation whose result is not representable, a division by
      zero, a shift by a negative or too large count and an element
      access outside a vector have undefined behaviour: the operations
      return an [option], and [None] is undefined behaviour.
    - [multi1d<int>] is a [list Z].
    - [/] and [%] truncate ([Z.quot], [Z.rem]); [>>] is the arithmetic
      shift [Z.shiftr]; [&] and [^] are [Z.land] and [Z.lxor].
    - The dimension [Nd] is a build-time constant that lives outside the
      files modelled here; it is a section variable. *)

From Stdlib Require Import ZArith Lia.
From stdpp Require Import base option list gmap strings.

Local Open Scope Z_scope.

(** ** C++ expressions on [int] and on [multi1d<int>] *)

Abbreviation multi1d := (list Z).

Definition INT_MAX : Z := 2147483647.
Definition INT_MIN : Z := -2147483648.

Definition in_int (z : Z) : Prop := INT_MIN ≤ z ≤ INT_MAX.

(** The value of an arithmetic expression of type [int] whose
    mathematical result is [z]. *)
Definition int_of (z : Z) : option Z :=
  if decide (in_int z) then Some z else None.

(** [a + b] *)
Definition int_add (a b : Z) : option Z := int_of (a + b).

(** [a * b] *)
Definition int_mul (a b : Z) : option Z := int_of (a * b).

(** [a << n] *)
Definition int_shl (a n : Z) : option Z :=
  if decide (0 ≤ a ∧ 0 ≤ n < 32) then int_of (Z.shiftl a n) else None.

(** [a >> n] *)
Definition int_shr (a n : Z) : option Z :=
  if decide (0 ≤ n < 32) then Some (Z.shiftr a n) else None.

(** [a / b] *)
Definition int_div (a b : Z) : option Z :=
  if decide (b = 0 ∨ (a = INT_MIN ∧ b = -1)) then None
  else Some (Z.quot a b).

(** [a % b] *)
Definition int_mod (a b : Z) : option Z :=
  if decide (b = 0 ∨ (a = INT_MIN ∧ b = -1)) then None
  else Some (Z.rem a b).

(** [v[i] = x] *)
Definition store (v : multi1d) (i : nat) (x : Z) : option multi1d :=
  if decide (i < length v)%nat then Some (<[i := x]> v) else None.

(** [v[i]] for an [int] index. *)
Definition at_int (v : multi1d) (i : Z) : option Z :=
  if decide (0 ≤ i) then v !! Z.to_nat i else None.

(** [multi1d<int> v(n)] and [v.resize(n)]: [n] fresh elements.  Their
    content is indeterminate in C++; [junk] stands for it. *)
Definition fresh (junk : Z) (n : nat) : multi1d := replicate n junk.

(** [for (int m = lo; ...; ++m) acc = body(m, acc)], run [n] times. *)
Fixpoint for_up {A : Type} (n : nat) (m : nat)
    (body : nat → A → option A) (acc : A) : option A :=
  match n with
  | O => Some acc
  | S n' => acc' ← body m acc; for_up n' (S m) body acc'
  end.

(** [for (int m = lo; m < hi; ++m) acc = body(m, acc)] *)
Definition for_range {A : Type} (lo hi : nat)
    (body : nat → A → option A) (acc : A) : option A :=
  for_up (hi - lo) lo body acc.

(** [for (int m = n - 1; m >= 0; --m) acc = body(m, acc)] *)
Fixpoint for_down {A : Type} (n : nat)
    (body : nat → A → option A) (acc : A) : option A :=
  match n with
  | O => Some acc
  | S n' => acc' ← body n' acc; for_down n' body acc'
  end.

(** ** The layout state *)

Record LocalLayout_t := mkLayout {
  vol : Z;                    (* total lattice volume *)
  nrow : multi1d;             (* lattice size *)
  subgrid_vol : Z;            (* subgrid lattice volume *)
  logical_coord : multi1d;    (* logical node coordinates *)
  logical_size : multi1d;     (* logical system size *)
  iogrid : multi1d            (* IO grid size *)
}.

(** The four layouts among which the preprocessor selects one
    ([QDP_USE_LEXICO_LAYOUT], [QDP_USE_CB2_LAYOUT],
    [QDP_USE_CB3D_LAYOUT], [QDP_USE_CB32_LAYOUT]). *)
Inductive LayoutKind := LEXICO | CB2 | CB3D | CB32.

Definition setLattSize (nrows : multi1d) (L : LocalLayout_t) : LocalLayout_t :=
  mkLayout (vol L) nrows (subgrid_vol L) (logical_coord L) (logical_size L)
           (iogrid L).

Definition lattSize (L : LocalLayout_t) : multi1d := nrow L.
Definition sitesOnNode (L : LocalLayout_t) : Z := subgrid_vol L.
Definition primaryNode : bool := true.
Definition subgridLattSize (L : LocalLayout_t) : multi1d := nrow L.
Definition nodeNumber : Z := 0.
Definition numNodes : Z := 1.
Definition nodeCoord (L : LocalLayout_t) : multi1d := logical_coord L.
Definition logicalSize (L : LocalLayout_t) : multi1d := logical_size L.
Definition isIOGridDefined : bool := true.
Definition numIONodeGrid : Z := 1.
Definition getIONodeGrid (L : LocalLayout_t) : multi1d := iogrid L.

(** [nodeNumber(coord)]: the logical node number for a lattice
    coordinate. *)
Definition nodeNumber_coord (coord : multi1d) : Z := 0.

(** The node number given some logical node coordinate. *)
Definition getNodeNumberFrom (node_coord : multi1d) : Z := 0.

(** ** The site-ordering helpers

    [crtesn] and [local_site] are declared in [qdp_util.h]; their bodies
    are not part of the files modelled here. *)

(** Modelled from the spec: the body of [crtesn] is missing.  It is the
    inverse positional decoding of the lexicographic codec ("mixed-radix
    positional encoding of [coord] against [dims], varying the first
    dimension fastest ... forward and inverse are direct positional
    arithmetic"): component [i] is the remainder by extent [i], and the
    quotient is carried to the next dimension. *)
Fixpoint crtesn_lex (ipos : Z) (latt_size : multi1d) : option multi1d :=
  match latt_size with
  | [] => Some []
  | l :: ls =>
      x ← int_mod ipos l;
      q ← int_div ipos l;
      rest ← crtesn_lex q ls;
      Some (x :: rest)
  end.

(** Modelled from the spec: the body of [local_site] is missing.  It is
    the "mixed-radix positional encoding of [coord] against [dims],
    varying the first dimension fastest", e.g. [1 + 2*2] for the
    coordinate (1,2) in the grid (2,3).  A coordinate with fewer
    components than the grid has no index. *)
Fixpoint local_site_lex (coord latt_size : multi1d) : option Z :=
  match latt_size, coord with
  | [], _ => Some 0
  | l :: ls, c :: cs =>
      r ← local_site_lex cs ls;
      p ← int_mul l r;
      int_add c p
  | _ :: _, [] => None
  end.

(** Move the last ("time") component to the front, and back. *)
Definition time_first (v : multi1d) : multi1d :=
  match last v with
  | Some t => t :: removelast v
  | None => []
  end.

Definition time_last (v : multi1d) : multi1d :=
  match v with
  | t :: xs => xs ++ [t]
  | [] => []
  end.

(** Modelled from the spec: the bodies of [crtesn] and [local_site] of
    the build with the 3-D checkerboard are missing.  There the last
    dimension is "treated as the fastest-varying, unsplit time axis"
    (the source calls them "crtesn with the t running fastest" and the
    "funky local site"): the positional encoding takes the time
    component first and the other components in ascending order after
    it. *)
Definition crtesn_tfast (ipos : Z) (latt_size : multi1d) : option multi1d :=
  time_last <$> crtesn_lex ipos (time_first latt_size).

Definition local_site_tfast (coord latt_size : multi1d) : option Z :=
  local_site_lex (time_first coord) (time_first latt_size).

Definition crtesn (k : LayoutKind) : Z → multi1d → option multi1d :=
  match k with
  | CB3D => crtesn_tfast
  | _ => crtesn_lex
  end.

Definition local_site (k : LayoutKind) : multi1d → multi1d → option Z :=
  match k with
  | CB3D => local_site_tfast
  | _ => local_site_lex
  end.

(** How a run of [create] ends: normally, in [QDP_error_exit], or in
    undefined behaviour. *)
Inductive outcome (A : Type) :=
  | Done (a : A)
  | ErrorExit (msg : string)
  | Undefined.
Arguments Done {A} a.
Arguments ErrorExit {A} msg.
Arguments Undefined {A}.

Section Layout.

(** The number of dimensions, and the content of uninitialised storage. *)
Variable Nd : nat.
Variable junk : Z.

(** The logical node coordinates given some node number:
    [multi1d<int> node_coord(Nd); node_coord = 0]. *)
Definition getLogicalCoordFrom (node : Z) : multi1d :=
  let node_coord := fresh junk Nd in
  const 0 <$> node_coord.

(** *** Lexicographic layout *)

Definition siteCoords_lexico (L : LocalLayout_t) (node linearsite : Z)
    : option multi1d :=
  crtesn LEXICO linearsite (lattSize L).

Definition linearSiteIndex_lexico (L : LocalLayout_t) (coord : multi1d)
    : option Z :=
  local_site LEXICO coord (lattSize L).

(** *** 2 checkerboard (red/black) layout *)

Definition siteCoords_cb2 (L : LocalLayout_t) (node linearsite : Z)
    : option multi1d :=
  vol_cb ← int_shr (vol L) 1;
  let cb_nrow := lattSize L in
  n0 ← cb_nrow !! 0%nat;
  h0 ← int_shr n0 1;
  cb_nrow ← store cb_nrow 0 h0;
  cb ← int_div linearsite vol_cb;
  r ← int_mod linearsite vol_cb;
  coord ← crtesn CB2 r cb_nrow;
  cbb ← for_range 1 (length coord)
          (λ m cbb, c ← coord !! m; int_add cbb c) cb;
  let cbb := Z.land cbb 1 in
  c0 ← coord !! 0%nat;
  t ← int_mul 2 c0;
  x ← int_add t cbb;
  store coord 0 x.

Definition linearSiteIndex_cb2 (L : LocalLayout_t) (coord : multi1d)
    : option Z :=
  vol_cb ← int_shr (vol L) 1;
  let cb_nrow := lattSize L in
  n0 ← cb_nrow !! 0%nat;
  h0 ← int_shr n0 1;
  cb_nrow ← store cb_nrow 0 h0;
  let cb_coord := coord in
  c0 ← cb_coord !! 0%nat;
  q0 ← int_shr c0 1;
  cb_coord ← store cb_coord 0 q0;
  cb ← for_range 0 (length coord)
         (λ m cb, c ← coord !! m; int_add cb c) 0;
  let cb := Z.land cb 1 in
  ls ← local_site CB2 cb_coord cb_nrow;
  p ← int_mul cb vol_cb;
  int_add ls p.

(** *** 2 checkerboard layout in 3D, time running fastest *)

Definition siteCoords_cb3d (L : LocalLayout_t) (node linearsite : Z)
    : option multi1d :=
  vol_cb ← int_div (vol L) 2;
  let cb_nrow := lattSize L in
  n0 ← cb_nrow !! 0%nat;
  h0 ← int_div n0 2;
  cb_nrow ← store cb_nrow 0 h0;
  cb ← int_div linearsite vol_cb;
  r ← int_mod linearsite vol_cb;
  coord ← crtesn CB3D r cb_nrow;
  cbb ← for_range 1 (length coord - 1)
          (λ m cbb, c ← coord !! m; int_add cbb c) cb;
  let cbb := Z.land cbb 1 in
  c0 ← coord !! 0%nat;
  t ← int_mul 2 c0;
  x ← int_add t cbb;
  store coord 0 x.

Definition linearSiteIndex_cb3d (L : LocalLayout_t) (coord : multi1d)
    : option Z :=
  vol_cb ← int_div (vol L) 2;
  let cb_nrow := lattSize L in
  n0 ← cb_nrow !! 0%nat;
  h0 ← int_div n0 2;
  cb_nrow ← store cb_nrow 0 h0;
  let cb_coord := coord in
  c0 ← cb_coord !! 0%nat;
  q0 ← int_div c0 2;
  cb_coord ← store cb_coord 0 q0;
  cb ← for_range 0 (length coord - 1)
         (λ m cb, c ← coord !! m; int_add cb c) 0;
  let cb := Z.land cb 1 in
  ls ← local_site CB3D cb_coord cb_nrow;
  p ← int_mul cb vol_cb;
  int_add ls p.

(** *** 32 checkerboard layout *)

(** The lattice size of one sublattice: extent 0 shifted by 2, the
    others by 1. *)
Definition cb32_nrow (L : LocalLayout_t) : option multi1d :=
  let cb_nrow := fresh junk Nd in
  n0 ← lattSize L !! 0%nat;
  h0 ← int_shr n0 2;
  cb_nrow ← store cb_nrow 0 h0;
  for_range 1 Nd
    (λ i cb_nrow, n ← lattSize L !! i; h ← int_shr n 1; store cb_nrow i h)
    cb_nrow.

Definition siteCoords_cb32 (L : LocalLayout_t) (node linearsite : Z)
    : option multi1d :=
  vol_cb ← int_shr (vol L) (Z.of_nat Nd + 1);
  cb_nrow ← cb32_nrow L;
  subl ← int_div linearsite vol_cb;
  r ← int_mod linearsite vol_cb;
  coord ← crtesn CB32 r cb_nrow;
  cb ← for_range 1 Nd (λ m cb, c ← coord !! m; int_add cb c) 0;
  let cb := Z.land cb 1 in
  c0 ← coord !! 0%nat;
  x0 ← int_shl c0 2;
  coord ← store coord 0 x0;
  coord ← for_range 1 Nd
            (λ m coord, c ← coord !! m; x ← int_shl c 1; store coord m x)
            coord;
  s ← int_shl cb (Z.of_nat Nd);
  let subl := Z.lxor subl s in
  coord ← for_range 0 Nd
            (λ m coord,
               c ← coord !! m;
               b ← int_shl 1 (Z.of_nat m);
               x ← int_shr (Z.land subl b) (Z.of_nat m);
               store coord m (Z.lxor c x))
            coord;
  c0 ← coord !! 0%nat;
  b ← int_shl 1 (Z.of_nat Nd);
  x ← int_shr (Z.land subl b) (Z.of_nat Nd - 1);
  store coord 0 (Z.lxor c0 x).

Definition linearSiteIndex_cb32 (L : LocalLayout_t) (coord : multi1d)
    : option Z :=
  vol_cb ← int_shr (vol L) (Z.of_nat Nd + 1);
  cb_nrow ← cb32_nrow L;
  cN ← at_int coord (Z.of_nat Nd - 1);
  let subl := Z.land cN 1 in
  subl ← for_down (Nd - 1)
           (λ m subl,
              c ← coord !! m; s ← int_shl subl 1; int_add s (Z.land c 1))
           subl;
  cb ← for_range 0 Nd
         (λ m cb, c ← coord !! m; h ← int_shr c 1; int_add cb h) 0;
  t ← int_shl (Z.land cb 1) (Z.of_nat Nd);
  subl ← int_add subl t;
  let cb_coord := fresh junk Nd in
  c0 ← coord !! 0%nat;
  q0 ← int_shr c0 2;
  cb_coord ← store cb_coord 0 q0;
  cb_coord ← for_range 1 Nd
               (λ m cb_coord,
                  c ← coord !! m; h ← int_shr c 1; store cb_coord m h)
               cb_coord;
  ls ← local_site CB32 cb_coord cb_nrow;
  p ← int_mul subl vol_cb;
  int_add ls p.

(** *** The layout selected by the build *)

Definition siteCoords (k : LayoutKind) (L : LocalLayout_t)
    (node linearsite : Z) : option multi1d :=
  match k with
  | LEXICO => siteCoords_lexico L node linearsite
  | CB2 => siteCoords_cb2 L node linearsite
  | CB3D => siteCoords_cb3d L node linearsite
  | CB32 => siteCoords_cb32 L node linearsite
  end.

Definition linearSiteIndex (k : LayoutKind) (L : LocalLayout_t)
    (coord : multi1d) : option Z :=
  match k with
  | LEXICO => linearSiteIndex_lexico L coord
  | CB2 => linearSiteIndex_cb2 L coord
  | CB3D => linearSiteIndex_cb3d L coord
  | CB32 => linearSiteIndex_cb32 L coord
  end.

(** The linearized site index for the corresponding lexicographic site. *)
Definition linearSiteIndex_site (k : LayoutKind) (L : LocalLayout_t)
    (lexicosite : Z) : option Z :=
  coord ← crtesn k lexicosite (lattSize L);
  linearSiteIndex k L coord.

(** *** The I/O grid *)

Definition setIONodeGridDefaults (L : LocalLayout_t) : option LocalLayout_t :=
  g ← for_range 0 Nd (λ i g, store g i 1) (fresh junk Nd);
  Some (mkLayout (vol L) (nrow L) (subgrid_vol L) (logical_coord L)
                 (logical_size L) g).

Definition setIONodeGrid (io_grid : multi1d) (L : LocalLayout_t)
    : option LocalLayout_t :=
  setIONodeGridDefaults L.

(** *** Layout creation *)

(** The sanity sweep: [n] iterations starting at site [i].  The
    iterations are independent of each other; they are taken in the
    order of the sites.  The counter stays below [vol], which is an
    [int]. *)
Fixpoint sanity_check (k : LayoutKind) (L : LocalLayout_t) (n : nat) (i : Z)
    : outcome unit :=
  match n with
  | O => Done tt
  | S n' =>
      match siteCoords k L nodeNumber i ≫= linearSiteIndex k L with
      | None => Undefined
      | Some j =>
          if decide (i ≠ j)
          then ErrorExit "Layout::create - Layout problems, the layout functions do not work correctly with this lattice size"
          else sanity_check k L n' (i + 1)
      end
  end.

(** [initDefaults]: the default sets, maps, random number generator and
    profile level belong to other components and leave the layout
    alone; the I/O grid is reset. *)
Definition initDefaults (L : LocalLayout_t) : option LocalLayout_t :=
  setIONodeGridDefaults L.

(** [create], for a build with layout [k]; [initialized] is the answer
    of [QDP_isInitialized()].  The diagnostics written to the console
    and the set-up of the memory pool leave the layout alone and are
    left out. *)
Definition create (k : LayoutKind) (initialized : bool) (L : LocalLayout_t)
    : outcome LocalLayout_t :=
  if negb initialized then ErrorExit "QDP is not initialized"
  else if decide (length (nrow L) ≠ Nd)
  then ErrorExit "dimension of lattice size not the same as the default"
  else
    match for_range 0 Nd (λ i v, n ← nrow L !! i; int_mul v n) 1 with
    | None => Undefined
    | Some v =>
        let L1 := mkLayout v (nrow L) v (replicate Nd 0) (replicate Nd 1)
                           (iogrid L) in
        match sanity_check k L1 (Z.to_nat (vol L1)) 0 with
        | Done _ =>
            match initDefaults L1 with
            | Some L2 => Done L2
            | None => Undefined
            end
        | ErrorExit msg => ErrorExit msg
        | Undefined => Undefined
        end
    end.

End Layout.

(** ** The memory based map object *)

Module MapObjectMemory.
Section Ops.

Context {K V : Type}.

(** The binary form of a key: [write(bin, key)] on a fresh
    [BinaryBufferWriter], then [bin.str()].  The writer of the key type
    is supplied by the instantiation. *)
Variable bin_str : K → string.

(** The object: [src_map], an unordered map from the binary keys to the
    values, and [user_data]. *)
Record t := mk {
  src_map : gmap string V;
  user_data : string
}.

(** [src_map] is declared [mutable], so that a [const] member could
    change it as well: every member is a function from the object
    before the call to its result and the object after the call. *)

Definition insertUserdata (user_data_ : string) (o : t) : Z * t :=
  (0, mk (src_map o) user_data_).

(** The result and the content of [user_data_] afterwards. *)
Definition getUserdata (o : t) : Z * string * t :=
  (0, user_data o, o).

Definition insert (key : K) (val : V) (o : t) : Z * t :=
  let ret := 0 in
  let bin_key := bin_str key in
  match src_map o !! bin_key with
  | Some _ => (ret, mk (alter (λ _, val) bin_key (src_map o)) (user_data o))
  | None => (ret, mk (<[bin_key := val]> (src_map o)) (user_data o))
  end.

(** The result and the content of [val] afterwards. *)
Definition get (key : K) (val : V) (o : t) : Z * V * t :=
  match src_map o !! bin_str key with
  | None => (1, val, o)
  | Some v => (0, v, o)
  end.

Definition erase (key : K) (o : t) : unit * t :=
  match src_map o !! bin_str key with
  | Some _ => (tt, mk (delete (bin_str key) (src_map o)) (user_data o))
  | None => (tt, o)
  end.

Definition clear (o : t) : unit * t := (tt, mk ∅ (user_data o)).

Definition flush (o : t) : unit * t := (tt, o).

Definition exist (key : K) (o : t) : bool * t :=
  match src_map o !! bin_str key with
  | None => (false, o)
  | Some _ => (true, o)
  end.

(** [size()]: the number of entries, converted to [unsigned int]
    (32 bits). *)
Definition size (o : t) : Z * t :=
  (Z.of_nat (base.size (src_map o)) mod 2 ^ 32, o).

(** The default constructor. *)
Definition default : t := mk ∅ "".

(** The key a binary form is read back to: [read(bin, key)] on a
    [BinaryBufferReader] over the stored string.  Like the writer, the
    reader of the key type is supplied by the instantiation. *)
Variable read_key : string → K.

(** [keys(_keys)]: the result is the content of [_keys] afterwards.
    The order in which an [unordered_map] is traversed is not
    specified; [map_to_list] stands for it. *)
Definition keys (_keys : list K) (o : t) : list K * t :=
  let _keys := take 0 _keys in
  (foldl (λ _keys (entry : string * V), _keys ++ [read_key entry.1])
         _keys (map_to_list (src_map o)),
   o).

(** [keysAndValues(_keys, _vals)]: the content of both vectors
    afterwards. *)
Definition keysAndValues (_keys : list K) (_vals : list V) (o : t)
    : list K * list V * t :=
  let _keys := take 0 _keys in
  let _vals := take 0 _vals in
  let kv :=
    foldl (λ (kv : list K * list V) (entry : string * V),
             (kv.1 ++ [read_key entry.1], kv.2 ++ [entry.2]))
          (_keys, _vals) (map_to_list (src_map o)) in
  (kv.1, kv.2, o).

(** How [operator[]] ends: with a reference to the stored value, or in
    [exit(1)] after a message on [std::cerr]. *)
Inductive indexed :=
  | Found (v : V)
  | Exit1 (msg : string).

(** [operator[](key)], the getter and the setter alike; the reference
    it returns is represented by the value it refers to. *)
Definition operator_index (key : K) (o : t) : indexed :=
  match src_map o !! bin_str key with
  | None => Exit1 "MapObject: key not found"
  | Some v => Found v
  end.

End Ops.
End MapObjectMemory.

(** ** Binary output of [multi1d]

    The primitive writes of [BinxWriter] are declared in [qdp_binx.h]
    and defined elsewhere: [write_int] is [write(bin, int)] and
    [write_elem] is [write(bin, T)], both acting on the state [W] of the
    writer. *)

Section Binx.

Context {W T : Type}.
Variable write_int : Z → W → W.
Variable write_elem : T → W → W.

(** [write(bin, d)]: the size, then the elements. *)
Definition write_multi1d (d : list T) (bin : W) : option W :=
  let bin := write_int (Z.of_nat (length d)) bin in
  for_range 0 (length d) (λ i bin, x ← d !! i; Some (write_elem x bin)) bin.

(** [write(bin, d, num)]: a fixed number of elements, no element
    count. *)
Definition write_multi1d_num (d : list T) (num : Z) (bin : W) : option W :=
  for_range 0 (Z.to_nat num)
    (λ i bin, x ← d !! i; Some (write_elem x bin)) bin.

End Binx.

(** ** The lattices of the concrete scenarios *)

Definition layout_4444 : LocalLayout_t :=
  mkLayout 256 [4; 4; 4; 4] 256 [0; 0; 0; 0] [1; 1; 1; 1] [1; 1; 1; 1].

Definition layout_23 : LocalLayout_t :=
  mkLayout 6 [2; 3] 6 [0; 0] [1; 1] [1; 1].

(** The state after [setLattSize] with 4x4x4x4, before [create]. *)
Definition layout_unset_4444 : LocalLayout_t :=
  setLattSize [4; 4; 4; 4] (mkLayout 0 [] 0 [] [] []).

(** A map object with the single entry "k" -> 1. *)
Definition map_one : @MapObjectMemory.t nat :=
  MapObjectMemory.mk {[ "k" := 1%nat ]} "".

(** ** Vocabulary of the statements *)

(** The product of the extents. *)
Definition volume (dims : multi1d) : Z := foldr Z.mul 1 dims.

(** The number of sites as [int] arithmetic computes it: the product
    of the extents taken from the left, defined when no partial product
    leaves the range of [int]. *)
Definition int_volume (dims : multi1d) : option Z :=
  foldl (λ acc d, a ← acc; int_mul a d) (Some 1) dims.

(** The sum of the components. *)
Definition sumZ (v : multi1d) : Z := foldr Z.add 0 v.

(** [c] is a coordinate of the lattice [dims]: one component per
    dimension, each within its extent. *)
Definition valid_coord (dims c : multi1d) : Prop :=
  Forall2 (λ x d, 0 ≤ x < d) c dims.

(** What each layout asks of the lattice size: nothing for the
    lexicographic one, even extents for the two checkerboards, and for
    the 32 checkerboard an extent 0 divisible by 4 and the others
    divisible by 2. *)
Definition divisibility (k : LayoutKind) (dims : multi1d) : Prop :=
  match k with
  | LEXICO => True
  | CB2 | CB3D => Forall (λ d, d mod 2 = 0) dims
  | CB32 =>
      match dims with
      | d0 :: ds => d0 mod 4 = 0 ∧ Forall (λ d, d mod 2 = 0) ds
      | [] => True
      end
  end.

(** The least number of dimensions a layout makes sense for: the
    checkerboards halve dimension 0, and the 3-D checkerboard keeps a
    time dimension apart from it. *)
Definition min_dimensions (k : LayoutKind) : nat :=
  match k with
  | LEXICO => 0
  | CB2 | CB32 => 1
  | CB3D => 2
  end.

(** The low bit of a component, a component shifted right by one, and a
    list of bits read as a number: [horner [b0; b1; ...] hi] is
    [b0 + 2 * (b1 + 2 * (... + 2 * hi))]. *)
Definition low (x : Z) : Z := Z.land x 1.

Definition half (x : Z) : Z := Z.shiftr x 1.

Definition horner (bs : list Z) (hi : Z) : Z :=
  foldr (λ b acc, b + 2 * acc) hi bs.

(** The number of sublattices a layout splits the lattice in: their
    size is what [siteCoords] divides the site index by. *)
Definition sublattices (Nd : nat) (k : LayoutKind) : Z :=
  match k with
  | LEXICO => 1
  | CB2 | CB3D => 2
  | CB32 => 2 ^ (Z.of_nat Nd + 1)
  end.

(** A call of a member of the map object, and the object after a
    sequence of calls. *)
Inductive call (K V : Type) :=
  | CInsert (key : K) (val : V)
  | CErase (key : K)
  | CClear
  | CFlush
  | CInsertUserdata (user_data_ : string)
  | CGet (key : K) (val : V)
  | CExist (key : K).
Arguments CInsert {K V} key val.
Arguments CErase {K V} key.
Arguments CClear {K V}.
Arguments CFlush {K V}.
Arguments CInsertUserdata {K V} user_data_.
Arguments CGet {K V} key val.
Arguments CExist {K V} key.

Definition do_call {K V : Type} (bin_str : K → string) (c : call K V)
    (o : MapObjectMemory.t) : MapObjectMemory.t :=
  match c with
  | CInsert key val => (MapObjectMemory.insert bin_str key val o).2
  | CErase key => (MapObjectMemory.erase bin_str key o).2
  | CClear => (MapObjectMemory.clear o).2
  | CFlush => (MapObjectMemory.flush o).2
  | CInsertUserdata s => (MapObjectMemory.insertUserdata s o).2
  | CGet key val => (MapObjectMemory.get bin_str key val o).2
  | CExist key => (MapObjectMemory.exist bin_str key o).2
  end.

Definition do_calls {K V : Type} (bin_str : K → string)
    (cs : list (call K V)) (o : MapObjectMemory.t) : MapObjectMemory.t :=
  foldl (λ o c, do_call bin_str c o) o cs.

(** The coordinate within a sublattice of the 32 checkerboard, in the
    words of the specification: "right-shifting coordinate 0 by 2 and
    all others by 1". *)
Definition shrink32 (v : multi1d) : multi1d :=
  match v with
  | x :: xs => Z.shiftr x 2 :: (half <$> xs)
  | [] => []
  end.

(** * Proofs *)

Global Arguments volume : simpl never.
Global Arguments sumZ : simpl never.

(** Goals on quotients and remainders by constants. *)
Ltac zdiv := Z.div_mod_to_equations; lia.

(** One step of a computation in the option monad. *)
Ltac step := cbn [mbind option_bind].

Lemma sumZ_cons x v : sumZ (x :: v) = x + sumZ v.
Proof. reflexivity. Qed.

Lemma volume_cons d dims : volume (d :: dims) = d * volume dims.
Proof. reflexivity. Qed.

Lemma volume_app u v : volume (u ++ v) = volume u * volume v.
Proof.
  induction u as [|x u IH]; [unfold volume; simpl; lia|].
  rewrite <- app_comm_cons, !volume_cons, IH. lia.
Qed.

Lemma volume_pos dims : Forall (λ d, 0 < d) dims → 0 < volume dims.
Proof.
  induction 1 as [|d dims Hd _ IH]; [reflexivity|].
  rewrite volume_cons. lia.
Qed.

(** ** Loops *)

Lemma store_lt (v : multi1d) i x :
  (i < length v)%nat → store v i x = Some (<[i := x]> v).
Proof. intros H. unfold store. by rewrite decide_True. Qed.

Lemma int_div_nz a b : 0 < b → int_div a b = Some (Z.quot a b).
Proof. intros H. unfold int_div. rewrite decide_False; [done|lia]. Qed.

Lemma int_mod_nz a b : 0 < b → int_mod a b = Some (Z.rem a b).
Proof. intros H. unfold int_mod. rewrite decide_False; [done|lia]. Qed.

Lemma int_div_0 a : int_div a 0 = None.
Proof. unfold int_div. rewrite decide_True; [done|by left]. Qed.

Lemma int_shr_inv a n r : int_shr a n = Some r → r = Z.shiftr a n ∧ 0 ≤ n < 32.
Proof. unfold int_shr. destruct (decide _); [|done]. by intros [= <-]. Qed.

Lemma int_of_Some z : in_int z → int_of z = Some z.
Proof. intros H. unfold int_of. by rewrite decide_True. Qed.

Lemma int_of_inv z v : int_of z = Some v → v = z ∧ in_int z.
Proof. unfold int_of. destruct (decide _); [|done]. by intros [= <-]. Qed.

Lemma int_add_Some a b : in_int (a + b) → int_add a b = Some (a + b).
Proof. apply int_of_Some. Qed.

Lemma int_mul_Some a b : in_int (a * b) → int_mul a b = Some (a * b).
Proof. apply int_of_Some. Qed.

Lemma int_mul_inv a b v : int_mul a b = Some v → v = a * b ∧ in_int (a * b).
Proof. apply int_of_inv. Qed.

Lemma int_shl_Some a n :
  0 ≤ a → 0 ≤ n < 32 → a * 2 ^ n ≤ INT_MAX →
  int_shl a n = Some (Z.shiftl a n).
Proof.
  intros Ha Hn Hr. unfold int_shl. rewrite decide_True by done.
  apply int_of_Some. rewrite Z.shiftl_mul_pow2 by lia.
  assert (0 < 2 ^ n) by (apply Z.pow_pos_nonneg; lia).
  unfold in_int, INT_MIN. nia.
Qed.

Lemma int_shr_Some a n : 0 ≤ n < 32 → int_shr a n = Some (Z.shiftr a n).
Proof. intros Hn. unfold int_shr. by rewrite decide_True. Qed.

Global Opaque store int_div int_mod int_add int_mul int_shl int_shr.

(** Goals on the range of [int]. *)
Ltac int_range := unfold in_int, INT_MIN, INT_MAX in *; (lia || nia).

Lemma sumZ_nonneg v : Forall (λ x, 0 ≤ x) v → 0 ≤ sumZ v.
Proof.
  induction 1 as [|x v Hx _ IH]; [done|]. rewrite sumZ_cons. lia.
Qed.

(** A loop that adds [g c] for every element [c] of a slice of [v]; the
    terms are not negative and the sum is an [int]. *)
Lemma for_up_sum (body : nat → Z → option Z) (g : Z → Z) (v : multi1d)
    n m a :
  (m + n ≤ length v)%nat →
  (∀ i c acc, v !! i = Some c → in_int acc → in_int (acc + g c) →
     body i acc = Some (acc + g c)) →
  Forall (λ c, 0 ≤ g c) (take n (drop m v)) →
  0 ≤ a → a + sumZ (g <$> take n (drop m v)) ≤ INT_MAX →
  for_up n m body a = Some (a + sumZ (g <$> take n (drop m v))).
Proof.
  intros Hlen Hbody. revert m a Hlen.
  induction n as [|n IH]; intros m a Hlen Hpos Ha Hsum; simpl.
  - f_equal. unfold sumZ. simpl. lia.
  - destruct (lookup_lt_is_Some_2 v m) as [x Hx]; [lia|].
    rewrite (drop_S v x m Hx), firstn_cons, fmap_cons, sumZ_cons in *.
    apply Forall_cons in Hpos as [Hgx Hpos].
    pose proof (sumZ_nonneg (g <$> take n (drop (S m) v))
                  ltac:(by apply Forall_fmap)) as Hrest.
    rewrite (Hbody m x a Hx) by int_range. simpl.
    rewrite IH by (done || lia). f_equal. lia.
Qed.

Lemma for_up_const (x : Z) n m (g : multi1d) :
  (m + n ≤ length g)%nat →
  for_up n m (λ i g, store g i x) g
  = Some (take m g ++ replicate n x ++ drop (m + n) g).
Proof.
  revert m g. induction n as [|n IH]; intros m g Hlen; simpl.
  - rewrite Nat.add_0_r, take_drop. done.
  - rewrite store_lt by lia. simpl.
    rewrite IH by (rewrite length_insert; lia). f_equal.
    destruct (lookup_lt_is_Some_2 g m) as [y Hy]; [lia|].
    rewrite (take_S_r _ _ x) by (apply list_lookup_insert_eq; lia).
    rewrite take_insert_ge by lia.
    rewrite drop_insert_lt by lia.
    rewrite <- app_assoc. simpl. repeat f_equal. lia.
Qed.

(** A loop that stores [g c] at position [i] of the accumulator for
    the element [c] at position [i] of [src]. *)
Lemma for_up_copy (body : nat → multi1d → option multi1d) (g : Z → Z)
    (src : multi1d) n m (dst : multi1d) :
  (m + n ≤ length src)%nat → (m + n ≤ length dst)%nat →
  (∀ i c dst', src !! i = Some c → length dst' = length dst →
     (i < length dst')%nat → body i dst' = Some (<[i := g c]> dst')) →
  for_up n m body dst
  = Some (take m dst ++ (g <$> take n (drop m src)) ++ drop (m + n) dst).
Proof.
  intros Hs Hlen Hbody.
  assert (∀ dst', length dst' = length dst →
            for_up n m body dst'
            = Some (take m dst' ++ (g <$> take n (drop m src))
                      ++ drop (m + n) dst')) as Hgen; [|by apply Hgen].
  revert m Hs Hlen. induction n as [|n IH]; intros m Hs Hlen dst' Hd; simpl.
  - rewrite Nat.add_0_r, take_drop. done.
  - destruct (lookup_lt_is_Some_2 src m) as [x Hx]; [lia|].
    rewrite (Hbody m x dst' Hx Hd) by lia. simpl.
    rewrite IH by (rewrite ?length_insert; lia). f_equal.
    rewrite (take_S_r _ _ (g x)) by (apply list_lookup_insert_eq; lia).
    rewrite take_insert_ge by lia.
    rewrite drop_insert_lt by lia.
    rewrite (drop_S src x m Hx). simpl.
    rewrite <- app_assoc. simpl. repeat f_equal. lia.
Qed.

(** A loop that replaces the element [c] at position [i] of the
    accumulator by [g i c]. *)
Lemma for_up_update (body : nat → multi1d → option multi1d)
    (g : nat → Z → Z) n m (v : multi1d) :
  (m + n ≤ length v)%nat →
  (∀ i c v', (m ≤ i)%nat → v !! i = Some c → v' !! i = Some c →
     length v' = length v → body i v' = Some (<[i := g i c]> v')) →
  for_up n m body v
  = Some (take m v ++ imap (λ j c, g (m + j)%nat c) (take n (drop m v))
            ++ drop (m + n) v).
Proof.
  intros Hlen Hbody.
  assert (∀ k v', (m ≤ k)%nat → (k + n ≤ length v)%nat →
            length v' = length v → drop k v' = drop k v →
            for_up n k body v'
            = Some (take k v' ++ imap (λ j c, g (k + j)%nat c)
                                  (take n (drop k v))
                      ++ drop (k + n) v)) as Hgen; [|by apply Hgen].
  clear Hlen. induction n as [|n IH]; intros k v' Hk Hlen Hl Hd; simpl.
  - rewrite Nat.add_0_r. rewrite <- Hd, take_drop. done.
  - destruct (lookup_lt_is_Some_2 v k) as [x Hx]; [lia|].
    assert (v' !! k = Some x) as Hx'.
    { rewrite <- (Nat.add_0_r k), <- lookup_drop, Hd, lookup_drop.
      by rewrite Nat.add_0_r. }
    rewrite (Hbody k x v' Hk Hx Hx' Hl). simpl.
    rewrite IH; [|lia|lia|by rewrite length_insert|].
    2:{ rewrite drop_insert_lt by lia.
        replace (S k) with (k + 1)%nat by lia.
        by rewrite <- !drop_drop, Hd. }
    f_equal.
    rewrite (take_S_r _ _ (g k x)) by (apply list_lookup_insert_eq; lia).
    rewrite take_insert_ge by lia.
    rewrite (drop_S v x k Hx). simpl.
    rewrite <- app_assoc. f_equal. simpl. rewrite Nat.add_0_r. f_equal.
    f_equal; [|f_equal; lia].
    apply imap_ext. intros j y _. simpl. f_equal. lia.
Qed.

(** ** The lexicographic helpers are inverse to each other *)

Lemma quot_rem_nonneg i l :
  0 ≤ i → 0 < l → Z.quot i l = i / l ∧ Z.rem i l = i mod l.
Proof.
  intros Hi Hl. split.
  - apply Z.quot_div_nonneg; lia.
  - apply Z.rem_mod_nonneg; lia.
Qed.

Lemma local_site_lex_cons c cs l ls :
  local_site_lex (c :: cs) (l :: ls)
  = r ← local_site_lex cs ls; p ← int_mul l r; int_add c p.
Proof. reflexivity. Qed.

(** One digit of the positional encoding. *)
Lemma local_site_lex_digit c cs l ls r :
  local_site_lex cs ls = Some r →
  0 ≤ c < l → 0 ≤ r < volume ls → volume (l :: ls) ≤ INT_MAX →
  local_site_lex (c :: cs) (l :: ls) = Some (c + l * r)
  ∧ 0 ≤ c + l * r < volume (l :: ls).
Proof.
  intros Hr Hc Hrb Hmax. rewrite volume_cons in *.
  rewrite local_site_lex_cons, Hr. simpl.
  rewrite int_mul_Some by int_range. simpl.
  rewrite int_add_Some by int_range. split; [done|nia].
Qed.

Lemma volume_tail_le l ls :
  0 < l → Forall (λ d, 0 < d) ls → volume ls ≤ volume (l :: ls).
Proof.
  intros Hl Hls. pose proof (volume_pos ls Hls). rewrite volume_cons. nia.
Qed.

Lemma crtesn_lex_local_site dims i :
  Forall (λ d, 0 < d) dims → 0 ≤ i < volume dims →
  volume dims ≤ INT_MAX →
  ∃ c, crtesn_lex i dims = Some c ∧ valid_coord dims c
       ∧ local_site_lex c dims = Some i.
Proof.
  intros Hpos. revert i.
  induction Hpos as [|l ls Hl Hls IH]; intros i Hi Hmax.
  - exists []. unfold volume in Hi. simpl in *.
    repeat split; [constructor | f_equal; lia].
  - pose proof (volume_tail_le l ls Hl Hls) as Htl.
    pose proof Hi as Hi'. rewrite volume_cons in Hi'.
    destruct (quot_rem_nonneg i l) as [Hq Hr]; [lia..|].
    assert (0 ≤ i / l < volume ls) as Hdiv.
    { split; [apply Z.div_pos; lia|]. apply Z.div_lt_upper_bound; lia. }
    destruct (IH _ Hdiv ltac:(lia)) as (rest & Hc & Hv & Hls').
    assert (0 ≤ i mod l < l) as Hm by (apply Z.mod_pos_bound; lia).
    exists (i mod l :: rest). split; [|split; [by constructor|]].
    + cbn [crtesn_lex]. rewrite int_mod_nz, int_div_nz by lia. step.
      by rewrite Hq, Hr, Hc.
    + destruct (local_site_lex_digit (i mod l) rest l ls (i / l))
        as [-> _]; try done.
      f_equal. rewrite Z.add_comm. symmetry. apply Z.div_mod. lia.
Qed.

Lemma local_site_lex_crtesn dims c :
  valid_coord dims c → volume dims ≤ INT_MAX →
  ∃ i, local_site_lex c dims = Some i ∧ 0 ≤ i < volume dims
       ∧ crtesn_lex i dims = Some c.
Proof.
  induction 1 as [|x d c dims Hx Hv IH]; intros Hmax.
  - exists 0. unfold volume. simpl. repeat split; lia.
  - assert (Forall (λ d, 0 < d) dims) as Hpos.
    { clear -Hv. induction Hv as [|? ? ? ? ? _ IH]; constructor; [lia|done]. }
    pose proof (volume_tail_le d dims ltac:(lia) Hpos) as Htl.
    destruct (IH ltac:(lia)) as (i' & Hls & Hi' & Hc).
    exists (x + d * i').
    destruct (local_site_lex_digit x c d dims i') as [-> Hb]; try done.
    split; [done|]. split; [done|]. cbn [crtesn_lex].
    rewrite int_mod_nz, int_div_nz by lia. step.
    destruct (quot_rem_nonneg (x + d * i') d) as [Hq Hr]; [nia|lia|].
    rewrite Hq, Hr.
    replace ((x + d * i') / d) with i'
      by (rewrite Z.mul_comm, Z.div_add by lia; rewrite Z.div_small; lia).
    replace ((x + d * i') mod d) with x
      by (rewrite Z.mul_comm, Z.mod_add by lia; rewrite Z.mod_small; lia).
    rewrite Hc. done.
Qed.

(** The sum of the components of a coordinate is below the volume. *)
Lemma sumZ_valid_coord dims c :
  valid_coord dims c →
  Forall (λ x, 0 ≤ x) c ∧ 0 ≤ sumZ c ∧ sumZ c < volume dims.
Proof.
  induction 1 as [|x d c dims Hx Hv (IHp & IH0 & IH)].
  - split; [constructor|]. by split.
  - split; [constructor; [lia|done]|].
    rewrite sumZ_cons, volume_cons. split; [lia|nia].
Qed.

Global Opaque crtesn_lex local_site_lex.

(** ** Bit operations as arithmetic *)

Lemma land_1 x : Z.land x 1 = x mod 2.
Proof. exact (Z.land_ones x 1 ltac:(lia)). Qed.

Lemma shiftr_1 x : Z.shiftr x 1 = x / 2.
Proof. exact (Z.shiftr_div_pow2 x 1 ltac:(lia)). Qed.

Lemma shiftr_2 x : Z.shiftr x 2 = x / 4.
Proof. exact (Z.shiftr_div_pow2 x 2 ltac:(lia)). Qed.

Lemma shiftl_1 x : Z.shiftl x 1 = 2 * x.
Proof. rewrite Z.shiftl_mul_pow2 by lia. change (2 ^ 1) with 2. lia. Qed.

Lemma shiftl_2 x : Z.shiftl x 2 = 4 * x.
Proof. rewrite Z.shiftl_mul_pow2 by lia. change (2 ^ 2) with 4. lia. Qed.

Lemma for_up_sum_id (v : multi1d) n m a :
  (m + n ≤ length v)%nat →
  Forall (λ c, 0 ≤ c) (take n (drop m v)) →
  0 ≤ a → a + sumZ (take n (drop m v)) ≤ INT_MAX →
  for_up n m (λ i acc, c ← v !! i; int_add acc c) a
  = Some (a + sumZ (take n (drop m v))).
Proof.
  intros Hlen Hpos Ha Hsum.
  rewrite <- (list_fmap_id (take n (drop m v))) in Hsum |- *.
  apply (for_up_sum _ (λ x, x)); [done| |exact Hpos|done..].
  intros i c acc Hc _ Hin. rewrite Hc. step. by apply int_add_Some.
Qed.

(** ** The 2 checkerboard layout *)

Section CB2_facts.

Variables (L : LocalLayout_t) (d0 : Z) (ds : multi1d).
Hypothesis Hnrow : nrow L = d0 :: ds.
Hypothesis Hvol : vol L = volume (d0 :: ds).
Hypothesis Hint : vol L ≤ INT_MAX.
Hypothesis Hd0 : 0 < d0.
Hypothesis Heven : d0 mod 2 = 0.
Hypothesis Hds : Forall (λ d, 0 < d) ds.

Let vol_cb := volume (d0 / 2 :: ds).

Lemma cb2_vol_cb :
  Z.shiftr (vol L) 1 = vol_cb ∧ 0 < vol_cb ∧ vol L = 2 * vol_cb
  ∧ 0 < volume ds ∧ vol_cb = d0 / 2 * volume ds ∧ d0 = 2 * (d0 / 2)
  ∧ Forall (λ d, 0 < d) (d0 / 2 :: ds).
Proof.
  unfold vol_cb. rewrite shiftr_1, Hvol, !volume_cons.
  pose proof (volume_pos ds Hds) as HP.
  assert (d0 = 2 * (d0 / 2)) as Hd by zdiv.
  assert (0 < d0 / 2) by lia.
  repeat split; [|nia|nia|lia|lia|constructor; [lia|done]].
  rewrite Hd at 1. rewrite <- Z.mul_assoc, Z.mul_comm, Z.div_mul; lia.
Qed.

(** The index of a coordinate, given its position [r] in the halved
    grid. *)
Lemma cb2_linearSiteIndex_eq c0 cs r :
  valid_coord (d0 :: ds) (c0 :: cs) →
  local_site_lex (c0 / 2 :: cs) (d0 / 2 :: ds) = Some r →
  0 ≤ r < vol_cb →
  linearSiteIndex_cb2 L (c0 :: cs)
  = Some (r + (c0 + sumZ cs) mod 2 * vol_cb).
Proof.
  intros Hval Hls Hr.
  destruct cb2_vol_cb as (Hcb & Hcbpos & Hv2 & HP & Hcbv & Hd & Hpos').
  destruct (sumZ_valid_coord _ _ Hval) as (Hnn & Hs0 & Hs).
  rewrite <- Hvol in Hs.
  unfold linearSiteIndex_cb2, lattSize. rewrite Hnrow.
  rewrite int_shr_Some by lia. step. rewrite Hcb. simpl.
  rewrite int_shr_Some by lia. step.
  rewrite store_lt by (simpl; lia). step.
  rewrite int_shr_Some by lia. step.
  rewrite store_lt by (simpl; lia). step.
  unfold for_range.
  rewrite Nat.sub_0_r, for_up_sum_id;
    rewrite ?drop_0, ?take_ge by (simpl; lia); [|simpl; lia|done|lia|lia].
  step. simpl insert. rewrite !shiftr_1. simpl local_site. rewrite Hls.
  step. rewrite Z.add_0_l, land_1, sumZ_cons.
  assert (0 ≤ (c0 + sumZ cs) mod 2 < 2) as Hp
    by (apply Z.mod_pos_bound; lia).
  rewrite int_mul_Some by int_range. step.
  rewrite int_add_Some by int_range. done.
Qed.

(** The coordinate of a site, given the coordinate [q0 :: qs] of its
    position in the halved grid. *)
Lemma cb2_siteCoords_eq i q0 qs :
  0 ≤ i < vol L →
  crtesn_lex (i mod vol_cb) (d0 / 2 :: ds) = Some (q0 :: qs) →
  valid_coord (d0 / 2 :: ds) (q0 :: qs) →
  siteCoords_cb2 L 0 i
  = Some (2 * q0 + (i / vol_cb + sumZ qs) mod 2 :: qs).
Proof.
  intros Hi Hc Hval.
  destruct cb2_vol_cb as (Hcb & Hcbpos & Hv2 & HP & Hcbv & Hd & Hpos').
  destruct (quot_rem_nonneg i vol_cb) as [Hq Hr]; [lia..|].
  assert (0 ≤ i / vol_cb < 2) as Hqb.
  { split; [apply Z.div_pos; lia|apply Z.div_lt_upper_bound; lia]. }
  inversion Hval as [|? ? ? ? Hq0 Hqs]; subst.
  destruct (sumZ_valid_coord _ _ Hqs) as (Hnn & Hs0 & Hs).
  unfold siteCoords_cb2, lattSize. rewrite Hnrow.
  rewrite int_shr_Some by lia. step. rewrite Hcb. simpl.
  rewrite int_shr_Some by lia. step.
  rewrite store_lt by (simpl; lia). step.
  rewrite int_div_nz, int_mod_nz by lia. step.
  simpl insert. rewrite shiftr_1, Hq, Hr. simpl crtesn. rewrite Hc. step.
  unfold for_range.
  rewrite for_up_sum_id; simpl length; simpl drop;
    rewrite ?drop_0, ?take_ge by lia; [|lia|done|lia|int_range].
  step. simpl. rewrite land_1.
  assert (0 ≤ (i / vol_cb + sumZ qs) mod 2 < 2) as Hp
    by (apply Z.mod_pos_bound; lia).
  rewrite int_mul_Some by int_range. step.
  rewrite int_add_Some by int_range. step.
  rewrite store_lt by (simpl; lia). done.
Qed.

Lemma cb2_index_coord i :
  0 ≤ i < vol L →
  ∃ c, siteCoords_cb2 L 0 i = Some c ∧ valid_coord (nrow L) c
       ∧ linearSiteIndex_cb2 L c = Some i.
Proof.
  intros Hi.
  destruct cb2_vol_cb as (Hcb & Hcbpos & Hv2 & HP & Hcbv & Hd & Hpos').
  assert (0 ≤ i mod vol_cb < vol_cb) as Hrb by (apply Z.mod_pos_bound; lia).
  assert (0 ≤ i / vol_cb < 2) as Hqb.
  { split; [apply Z.div_pos; lia|apply Z.div_lt_upper_bound; lia]. }
  destruct (crtesn_lex_local_site _ _ Hpos' Hrb ltac:(fold vol_cb; lia))
    as (q & Hc & Hval & Hls).
  inversion Hval as [|q0 h qs ds' Hq0 Hqs]; subst.
  set (cb := i / vol_cb) in *.
  set (b := (cb + sumZ qs) mod 2).
  assert (0 ≤ b < 2) as Hb by (apply Z.mod_pos_bound; lia).
  exists (2 * q0 + b :: qs).
  split; [by apply cb2_siteCoords_eq|].
  assert (valid_coord (d0 :: ds) (2 * q0 + b :: qs)) as Hv'
    by (constructor; [lia|done]).
  split; [by rewrite Hnrow|].
  rewrite (cb2_linearSiteIndex_eq _ _ (i mod vol_cb)); try done.
  - f_equal.
    replace ((2 * q0 + b + sumZ qs) mod 2) with cb by (unfold b; zdiv).
    pose proof (Z.div_mod i vol_cb ltac:(lia)). fold cb in H. lia.
  - by replace ((2 * q0 + b) / 2) with q0 by zdiv.
Qed.

Lemma cb2_coord_index c :
  valid_coord (nrow L) c →
  ∃ i, linearSiteIndex_cb2 L c = Some i ∧ 0 ≤ i < vol L
       ∧ (i < Z.shiftr (vol L) 1 ↔ sumZ c mod 2 = 0)
       ∧ siteCoords_cb2 L 0 i = Some c.
Proof.
  intros Hval.
  destruct cb2_vol_cb as (Hcb & Hcbpos & Hv2 & HP & Hcbv & Hd & Hpos').
  rewrite Hnrow in Hval.
  inversion Hval as [|c0 d cs ds' Hc0 Hcs]; subst.
  assert (valid_coord (d0 / 2 :: ds) (c0 / 2 :: cs)) as Hval'.
  { constructor; [|done]. zdiv. }
  destruct (local_site_lex_crtesn _ _ Hval' ltac:(fold vol_cb; lia))
    as (r & Hls & Hr & Hc).
  fold vol_cb in Hr.
  set (p := (c0 + sumZ cs) mod 2).
  assert (0 ≤ p < 2) as Hp by (apply Z.mod_pos_bound; lia).
  exists (r + p * vol_cb).
  split; [by apply cb2_linearSiteIndex_eq|]. split; [nia|]. split.
  { rewrite Hcb, sumZ_cons. fold p. split; intros; nia. }
  assert ((r + p * vol_cb) / vol_cb = p) as HqS
    by (rewrite Z.div_add by lia; rewrite Z.div_small; lia).
  assert ((r + p * vol_cb) mod vol_cb = r) as HrS
    by (rewrite Z.mod_add by lia; rewrite Z.mod_small; lia).
  rewrite (cb2_siteCoords_eq _ (c0 / 2) cs); rewrite ?HqS, ?HrS;
    [|nia|done..].
  do 2 f_equal. unfold p. zdiv.
Qed.

End CB2_facts.

(** ** The 3-D checkerboard layout, time running fastest *)

Lemma time_first_snoc x xs t : time_first (x :: xs ++ [t]) = t :: x :: xs.
Proof.
  unfold time_first. rewrite app_comm_cons, last_snoc.
  by rewrite removelast_last.
Qed.

Lemma time_last_cons t xs : time_last (t :: xs) = xs ++ [t].
Proof. reflexivity. Qed.

Global Opaque time_first time_last.

Lemma valid_coord_snoc_inv d0 ds dt c :
  valid_coord (d0 :: ds ++ [dt]) c →
  ∃ c0 cs t, c = c0 :: cs ++ [t] ∧ 0 ≤ c0 < d0 ∧ valid_coord ds cs
             ∧ 0 ≤ t < dt.
Proof.
  intros Hv. inversion Hv as [|c0 d c' ds' Hc0 Hc']; subst.
  apply Forall2_app_inv_r in Hc' as (cs & ct & Hcs & Hct & ->).
  inversion Hct as [|t d ct' dt' Ht Hnil]; subst.
  inversion Hnil; subst. by exists c0, cs, t.
Qed.

Lemma valid_coord_snoc d0 ds dt c0 cs t :
  0 ≤ c0 < d0 → valid_coord ds cs → 0 ≤ t < dt →
  valid_coord (d0 :: ds ++ [dt]) (c0 :: cs ++ [t]).
Proof.
  intros. constructor; [done|]. apply Forall2_app; [done|].
  constructor; [done|constructor].
Qed.

Lemma take_snoc_length {A} (x : A) xs t n :
  n = S (length xs) → take n (x :: xs ++ [t]) = x :: xs.
Proof.
  intros ->. rewrite app_comm_cons.
  change (S (length xs)) with (length (x :: xs)).
  apply take_app_length.
Qed.

Section CB3D_facts.

Variables (L : LocalLayout_t) (d0 : Z) (ds : multi1d) (dt : Z).
Hypothesis Hnrow : nrow L = d0 :: ds ++ [dt].
Hypothesis Hvol : vol L = volume (d0 :: ds ++ [dt]).
Hypothesis Hint : vol L ≤ INT_MAX.
Hypothesis Hd0 : 0 < d0.
Hypothesis Heven : d0 mod 2 = 0.
Hypothesis Hds : Forall (λ d, 0 < d) ds.
Hypothesis Hdt : 0 < dt.

Let vol_cb := volume (dt :: d0 / 2 :: ds).

Lemma cb3d_vol_cb :
  int_div (vol L) 2 = Some vol_cb ∧ int_div d0 2 = Some (d0 / 2)
  ∧ 0 < vol_cb ∧ vol L = 2 * vol_cb ∧ vol L / 2 = vol_cb
  ∧ Forall (λ d, 0 < d) (dt :: d0 / 2 :: ds).
Proof.
  unfold vol_cb. rewrite !int_div_nz by lia.
  rewrite Hvol, !volume_cons, volume_app, !volume_cons.
  pose proof (volume_pos ds Hds) as HP.
  change (volume []) with 1.
  assert (d0 = 2 * (d0 / 2)) as Hd by zdiv.
  assert (0 < d0 / 2) by lia.
  rewrite !Z.quot_div_nonneg by nia.
  assert (d0 * (volume ds * (dt * 1)) / 2 = dt * (d0 / 2 * volume ds)) as ->.
  { rewrite Hd at 1.
    replace (2 * (d0 / 2) * (volume ds * (dt * 1)))
      with (dt * (d0 / 2 * volume ds) * 2) by lia.
    apply Z.div_mul. lia. }
  repeat split; [nia|nia|].
  constructor; [done|]. constructor; [lia|done].
Qed.

(** The index of a coordinate, given its position [r] in the halved
    grid, time first. *)
Lemma cb3d_linearSiteIndex_eq c0 cs t r :
  valid_coord (d0 :: ds ++ [dt]) (c0 :: cs ++ [t]) →
  local_site_lex (t :: c0 / 2 :: cs) (dt :: d0 / 2 :: ds) = Some r →
  0 ≤ r < vol_cb →
  linearSiteIndex_cb3d L (c0 :: cs ++ [t])
  = Some (r + (c0 + sumZ cs) mod 2 * vol_cb).
Proof.
  intros Hval Hls Hr.
  destruct cb3d_vol_cb as (Hcb & Hh & Hcbpos & Hv2 & _ & Hpos').
  apply valid_coord_snoc_inv in Hval
    as (? & ? & ? & [= <- Hcs] & Hc0 & Hv & Ht).
  apply app_inj_tail in Hcs as [<- <-].
  assert (valid_coord (d0 :: ds) (c0 :: cs)) as Hv' by (by constructor).
  destruct (sumZ_valid_coord _ _ Hv') as (Hnn & Hs0 & Hs).
  assert (volume (d0 :: ds) ≤ vol L).
  { rewrite Hvol, app_comm_cons, volume_app. change (volume [dt]) with (dt * 1).
    pose proof (volume_pos (d0 :: ds) ltac:(by constructor)). nia. }
  unfold linearSiteIndex_cb3d, lattSize. rewrite Hnrow, Hcb. step.
  simpl lookup. step. rewrite Hh. step.
  rewrite store_lt by (simpl; lia). step.
  rewrite int_div_nz by lia. step.
  rewrite store_lt by (simpl; lia). step.
  unfold for_range. rewrite Nat.sub_0_r.
  rewrite for_up_sum_id; rewrite ?drop_0;
    rewrite ?take_snoc_length by (simpl; rewrite length_app; simpl; lia);
    [|simpl; lia|done|lia|lia].
  step. simpl insert. simpl local_site.
  unfold local_site_tfast. rewrite !time_first_snoc.
  rewrite Z.quot_div_nonneg by lia. rewrite Hls. step.
  rewrite Z.add_0_l, land_1, sumZ_cons.
  assert (0 ≤ (c0 + sumZ cs) mod 2 < 2) as Hp
    by (apply Z.mod_pos_bound; lia).
  rewrite int_mul_Some by int_range. step.
  rewrite int_add_Some by int_range. done.
Qed.

(** The coordinate of a site, given the coordinate of its position in
    the halved grid, time first. *)
Lemma cb3d_siteCoords_eq i t q0 qs :
  0 ≤ i < vol L →
  crtesn_lex (i mod vol_cb) (dt :: d0 / 2 :: ds) = Some (t :: q0 :: qs) →
  valid_coord (dt :: d0 / 2 :: ds) (t :: q0 :: qs) →
  siteCoords_cb3d L 0 i
  = Some (2 * q0 + (i / vol_cb + sumZ qs) mod 2 :: qs ++ [t]).
Proof.
  intros Hi Hc Hval.
  destruct cb3d_vol_cb as (Hcb & Hh & Hcbpos & Hv2 & _ & Hpos').
  destruct (quot_rem_nonneg i vol_cb) as [Hq Hr]; [lia..|].
  assert (0 ≤ i / vol_cb < 2) as Hqb.
  { split; [apply Z.div_pos; lia|apply Z.div_lt_upper_bound; lia]. }
  inversion Hval as [|? ? ? ? Ht Hval']; subst.
  inversion Hval' as [|? ? ? ? Hq0 Hqs]; subst.
  destruct (sumZ_valid_coord _ _ Hqs) as (Hnn & Hs0 & Hs).
  assert (volume ds ≤ vol L).
  { rewrite Hv2. unfold vol_cb. rewrite !volume_cons.
    pose proof (volume_pos ds Hds). assert (0 < d0 / 2) by lia.
    assert (volume ds ≤ d0 / 2 * volume ds) by nia.
    assert (d0 / 2 * volume ds ≤ dt * (d0 / 2 * volume ds)) by nia. lia. }
  assert (2 * (d0 / 2) ≤ vol L).
  { rewrite Hv2. unfold vol_cb. rewrite !volume_cons.
    pose proof (volume_pos ds Hds). assert (0 < d0 / 2) by lia.
    assert (d0 / 2 ≤ d0 / 2 * volume ds) by nia.
    assert (d0 / 2 * volume ds ≤ dt * (d0 / 2 * volume ds)) by nia. lia. }
  unfold siteCoords_cb3d, lattSize. rewrite Hnrow, Hcb. step.
  simpl lookup. step. rewrite Hh. step.
  rewrite store_lt by (simpl; lia). step.
  rewrite int_div_nz, int_mod_nz by lia. step.
  simpl insert. simpl crtesn.
  unfold crtesn_tfast. rewrite time_first_snoc, Hq, Hr, Hc.
  cbn [fmap option_fmap option_map]. step.
  rewrite time_last_cons, <- app_comm_cons.
  unfold for_range.
  assert (take (length (q0 :: qs ++ [t]) - 1 - 1) (drop 1 (q0 :: qs ++ [t]))
          = qs) as Hslice.
  { simpl. rewrite drop_0, length_app. simpl.
    replace (length qs + 1 - 0 - 1)%nat with (length qs) by lia.
    apply take_app_length. }
  rewrite for_up_sum_id; rewrite ?Hslice;
    [|simpl; rewrite length_app; simpl; lia|done|lia|int_range].
  step. simpl lookup. step. rewrite land_1.
  assert (0 ≤ (i / vol_cb + sumZ qs) mod 2 < 2) as Hp
    by (apply Z.mod_pos_bound; lia).
  rewrite int_mul_Some by int_range. step.
  rewrite int_add_Some by int_range. step.
  rewrite store_lt by (simpl; lia). done.
Qed.

Lemma cb3d_index_coord i :
  0 ≤ i < vol L →
  ∃ c, siteCoords_cb3d L 0 i = Some c ∧ valid_coord (nrow L) c
       ∧ linearSiteIndex_cb3d L c = Some i
       ∧ ∃ x0, c !! 0%nat = Some x0
           ∧ x0 mod 2 = (i / (vol L / 2)
                         + sumZ (take (length c - 2) (drop 1 c))) mod 2.
Proof.
  intros Hi.
  destruct cb3d_vol_cb as (Hcb & Hh & Hcbpos & Hv2 & Hv2' & Hpos').
  assert (0 ≤ i mod vol_cb < vol_cb) as Hrb by (apply Z.mod_pos_bound; lia).
  assert (0 ≤ i / vol_cb < 2) as Hqb.
  { split; [apply Z.div_pos; lia|apply Z.div_lt_upper_bound; lia]. }
  destruct (crtesn_lex_local_site _ _ Hpos' Hrb ltac:(fold vol_cb; lia))
    as (q & Hc & Hval & Hls).
  inversion Hval as [|t dt' q' ds' Ht Hval']; subst.
  inversion Hval' as [|q0 h qs ds' Hq0 Hqs]; subst.
  set (cb := i / vol_cb) in *.
  set (b := (cb + sumZ qs) mod 2).
  assert (0 ≤ b < 2) as Hb by (apply Z.mod_pos_bound; lia).
  exists (2 * q0 + b :: qs ++ [t]).
  split; [by apply cb3d_siteCoords_eq|].
  assert (valid_coord (d0 :: ds ++ [dt]) (2 * q0 + b :: qs ++ [t])) as Hv'.
  { apply valid_coord_snoc; [|done..]. zdiv. }
  split; [by rewrite Hnrow|]. split.
  - rewrite (cb3d_linearSiteIndex_eq _ _ _ (i mod vol_cb)); try done.
    + f_equal.
      replace ((2 * q0 + b + sumZ qs) mod 2) with cb by (unfold b; zdiv).
      pose proof (Z.div_mod i vol_cb ltac:(lia)). fold cb in H. lia.
    + by replace ((2 * q0 + b) / 2) with q0 by zdiv.
  - exists (2 * q0 + b). split; [done|].
    rewrite Hv2'. fold cb. simpl drop. rewrite drop_0. simpl length.
    rewrite length_app. simpl length.
    replace (S (length qs + 1) - 2)%nat with (length qs) by lia.
    rewrite take_app_length. unfold b. zdiv.
Qed.

Lemma cb3d_coord_index c :
  valid_coord (nrow L) c →
  ∃ i, linearSiteIndex_cb3d L c = Some i ∧ 0 ≤ i < vol L
       ∧ siteCoords_cb3d L 0 i = Some c
       ∧ i / (vol L / 2) = sumZ (take (length c - 1) c) mod 2.
Proof.
  intros Hval.
  destruct cb3d_vol_cb as (Hcb & Hh & Hcbpos & Hv2 & Hv2' & Hpos').
  rewrite Hnrow in Hval. pose proof Hval as Hval0.
  apply valid_coord_snoc_inv in Hval as (c0 & cs & t & -> & Hc0 & Hcs & Ht).
  assert (valid_coord (dt :: d0 / 2 :: ds) (t :: c0 / 2 :: cs)) as Hval'.
  { constructor; [lia|]. constructor; [|done]. zdiv. }
  destruct (local_site_lex_crtesn _ _ Hval' ltac:(fold vol_cb; lia))
    as (r & Hls & Hr & Hc).
  fold vol_cb in Hr.
  set (p := (c0 + sumZ cs) mod 2).
  assert (0 ≤ p < 2) as Hp by (apply Z.mod_pos_bound; lia).
  exists (r + p * vol_cb).
  split; [by apply cb3d_linearSiteIndex_eq|]. split; [nia|].
  assert ((r + p * vol_cb) / vol_cb = p) as HqS
    by (rewrite Z.div_add by lia; rewrite Z.div_small; lia).
  assert ((r + p * vol_cb) mod vol_cb = r) as HrS
    by (rewrite Z.mod_add by lia; rewrite Z.mod_small; lia).
  split.
  - rewrite (cb3d_siteCoords_eq _ t (c0 / 2) cs); rewrite ?HqS, ?HrS;
      [|nia|done..].
    do 2 f_equal. unfold p. zdiv.
  - rewrite Hv2', HqS.
    rewrite take_snoc_length by (simpl; rewrite length_app; simpl; lia).
    by rewrite sumZ_cons.
Qed.

End CB3D_facts.

(** ** Bits *)

Lemma low_mod x : low x = x mod 2.
Proof. apply land_1. Qed.

Lemma low_range x : 0 ≤ low x < 2.
Proof. rewrite low_mod. apply Z.mod_pos_bound. lia. Qed.

Lemma testbit_small b k :
  0 ≤ b < 2 → Z.testbit b k = bool_decide (b = 1) && bool_decide (k = 0).
Proof.
  intros Hb. assert (b = 0 ∨ b = 1) as [-> | ->] by lia.
  - by rewrite Z.testbit_0_l.
  - destruct k as [|p|p]; done.
Qed.

Lemma testbit_bit_double_0 b a :
  0 ≤ b < 2 → Z.testbit (b + 2 * a) 0 = bool_decide (b = 1).
Proof.
  intros Hb. rewrite Z.bit0_odd, Z.odd_add_mul_2.
  assert (b = 0 ∨ b = 1) as [-> | ->] by lia; done.
Qed.

Lemma testbit_bit_double_succ b a n :
  0 ≤ b < 2 → 0 ≤ n → Z.testbit (b + 2 * a) (Z.succ n) = Z.testbit a n.
Proof.
  intros Hb Hn. rewrite Z.add_comm.
  assert (b = 0 ∨ b = 1) as [-> | ->] by lia.
  - exact (Z.testbit_succ_r a false n Hn).
  - exact (Z.testbit_succ_r a true n Hn).
Qed.

Lemma horner_cons b bs hi : horner (b :: bs) hi = b + 2 * horner bs hi.
Proof. reflexivity. Qed.

Lemma horner_snoc bs b hi : horner (bs ++ [b]) hi = horner bs (b + 2 * hi).
Proof. unfold horner. by rewrite foldr_app. Qed.

Lemma horner_hi bs hi :
  horner bs hi = horner bs 0 + 2 ^ Z.of_nat (length bs) * hi.
Proof.
  induction bs as [|b bs IH]; [simpl; lia|].
  rewrite !horner_cons, IH. simpl length.
  rewrite Nat2Z.inj_succ, Z.pow_succ_r by lia. lia.
Qed.

Lemma horner_range bs hi :
  Forall (λ b, 0 ≤ b < 2) bs → 0 ≤ hi →
  0 ≤ horner bs 0 < 2 ^ Z.of_nat (length bs) ∧ 0 ≤ horner bs hi.
Proof.
  intros Hbs Hhi. induction Hbs as [|b bs Hb _ IH].
  - simpl. lia.
  - rewrite !horner_cons. simpl length.
    rewrite Nat2Z.inj_succ, Z.pow_succ_r by lia. lia.
Qed.

(** Bit [j] of [horner bs hi] is [bs[j]]; above, the bits of [hi]. *)
Lemma horner_testbit_low bs hi (j : nat) b :
  Forall (λ b, 0 ≤ b < 2) bs → bs !! j = Some b →
  Z.testbit (horner bs hi) (Z.of_nat j) = bool_decide (b = 1).
Proof.
  intros Hbs. revert j. induction Hbs as [|b0 bs Hb0 _ IH]; intros j Hj.
  - done.
  - rewrite horner_cons. destruct j as [|j]; simpl in Hj.
    + injection Hj as ->. by apply testbit_bit_double_0.
    + rewrite Nat2Z.inj_succ, testbit_bit_double_succ by lia. by apply IH.
Qed.

Lemma horner_testbit_high bs hi k :
  Forall (λ b, 0 ≤ b < 2) bs → 0 ≤ k →
  Z.testbit (horner bs hi) (Z.of_nat (length bs) + k) = Z.testbit hi k.
Proof.
  intros Hbs Hk. induction Hbs as [|b0 bs Hb0 _ IH]; [done|].
  rewrite horner_cons. simpl length.
  replace (Z.of_nat (S (length bs)) + k)
    with (Z.succ (Z.of_nat (length bs) + k)) by lia.
  rewrite testbit_bit_double_succ by lia. done.
Qed.

(** The Horner loop of [linearSiteIndex]. *)
Lemma pow2_le_30 k : 0 ≤ k ≤ 30 → 0 < 2 ^ k ≤ 1073741824.
Proof.
  intros Hk. split; [apply Z.pow_pos_nonneg; lia|].
  change 1073741824 with (2 ^ 30). apply Z.pow_le_mono_r; lia.
Qed.

Lemma for_down_horner (v : multi1d) n s0 k :
  (n ≤ length v)%nat → 0 ≤ k → 0 ≤ s0 < 2 ^ k → k + Z.of_nat n ≤ 30 →
  for_down n
    (λ m s, c ← v !! m; t ← int_shl s 1; int_add t (Z.land c 1)) s0
  = Some (horner (low <$> take n v) s0).
Proof.
  revert s0 k. induction n as [|n IH]; intros s0 k Hn Hk Hs Hkn; [done|].
  destruct (lookup_lt_is_Some_2 v n) as [x Hx]; [lia|].
  pose proof (pow2_le_30 k ltac:(lia)) as Hp.
  pose proof (low_range x) as Hlow. unfold low in Hlow.
  cbn [for_down]. rewrite Hx. step.
  rewrite int_shl_Some by (change (2 ^ 1) with 2; int_range). step.
  rewrite shiftl_1, int_add_Some by int_range. step.
  rewrite (IH _ (k + 1)); [|lia|lia| |lia].
  - rewrite (take_S_r _ _ x Hx), fmap_app. simpl.
    rewrite horner_snoc. do 2 f_equal. unfold low. lia.
  - rewrite Z.pow_add_r, Z.pow_1_r by lia. lia.
Qed.

Lemma land_pow2 s m :
  0 ≤ m → Z.land s (Z.shiftl 1 m) = Z.b2z (Z.testbit s m) * 2 ^ m.
Proof.
  intros Hm. apply Z.bits_inj'. intros k Hk.
  rewrite Z.land_spec, Z.shiftl_1_l, Z.pow2_bits_eqb, Z.mul_pow2_bits by lia.
  destruct (Z.eqb_spec m k) as [->|Hne].
  - rewrite Z.sub_diag, Z.b2z_bit0. apply andb_true_r.
  - rewrite andb_false_r. symmetry.
    destruct (Z.testbit s m); simpl Z.b2z; [|apply Z.testbit_0_l].
    rewrite testbit_small by lia. rewrite (bool_decide_eq_false_2 (k - m = 0)); [done|lia].
Qed.

Lemma bit_extract s m :
  0 ≤ m →
  Z.shiftr (Z.land s (Z.shiftl 1 m)) m = Z.b2z (Z.testbit s m).
Proof.
  intros Hm. rewrite land_pow2, Z.shiftr_div_pow2 by lia.
  apply Z.div_mul. apply Z.pow_nonzero; lia.
Qed.

Lemma bit_extract_pred s m :
  1 ≤ m →
  Z.shiftr (Z.land s (Z.shiftl 1 m)) (m - 1) = 2 * Z.b2z (Z.testbit s m).
Proof.
  intros Hm. rewrite land_pow2, Z.shiftr_div_pow2 by lia.
  replace (2 ^ m) with (2 * 2 ^ (m - 1))
    by (rewrite <- Z.pow_succ_r by lia; f_equal; lia).
  rewrite Z.mul_assoc, Z.div_mul by (apply Z.pow_nonzero; lia). lia.
Qed.

Lemma lxor_low q b : 0 ≤ b < 2 → Z.lxor (2 * q) b = 2 * q + b.
Proof.
  intros Hb. symmetry. apply Z.add_nocarry_lxor.
  apply Z.bits_inj'. intros k Hk.
  rewrite Z.land_spec, Z.testbit_0_l, (testbit_small b) by done.
  destruct (decide (k = 0)) as [->|Hne].
  - rewrite Z.bit0_odd, Z.odd_mul, andb_false_l. done.
  - rewrite (bool_decide_eq_false_2 (k = 0)) by done.
    by rewrite !andb_false_r.
Qed.

Lemma lxor_low2 q b t :
  0 ≤ b < 2 → 0 ≤ t < 2 →
  Z.lxor (Z.lxor (4 * q) b) (2 * t) = 4 * q + 2 * t + b.
Proof.
  intros Hb Ht.
  rewrite Z.lxor_assoc, (Z.lxor_comm b), <- Z.lxor_assoc.
  assert (Z.lxor (4 * q) (2 * t) = 2 * (2 * q + t)) as ->.
  { rewrite <- (lxor_low q t), <- !shiftl_1, Z.shiftl_lxor by done.
    f_equal. rewrite !shiftl_1. lia. }
  rewrite lxor_low by done. lia.
Qed.

(** ** The 32 checkerboard layout *)

Lemma half_div x : half x = x / 2.
Proof. apply shiftr_1. Qed.

Lemma half_nonneg x : 0 ≤ x → 0 ≤ half x ≤ x.
Proof. intros Hx. rewrite half_div. zdiv. Qed.

Lemma sumZ_half_le (v : multi1d) :
  Forall (λ x, 0 ≤ x) v → 0 ≤ sumZ (half <$> v) ≤ sumZ v.
Proof.
  induction 1 as [|x v Hx _ IH]; [done|].
  rewrite fmap_cons, !sumZ_cons. pose proof (half_nonneg x Hx). lia.
Qed.

Lemma elem_le_sumZ (v : multi1d) j x :
  Forall (λ x, 0 ≤ x) v → v !! j = Some x → 0 ≤ x ≤ sumZ v.
Proof.
  intros Hv. revert j. induction Hv as [|y v Hy Hv IH]; intros j Hj; [done|].
  rewrite sumZ_cons. pose proof (sumZ_nonneg v Hv).
  destruct j as [|j]; simpl in Hj.
  - injection Hj as ->. lia.
  - specialize (IH j Hj). lia.
Qed.

Lemma for_up_sum_half (v : multi1d) n m a :
  (m + n ≤ length v)%nat →
  Forall (λ c, 0 ≤ c) (take n (drop m v)) →
  0 ≤ a → a + sumZ (half <$> take n (drop m v)) ≤ INT_MAX →
  for_up n m (λ i acc, c ← v !! i; h ← int_shr c 1; int_add acc h) a
  = Some (a + sumZ (half <$> take n (drop m v))).
Proof.
  intros Hlen Hpos Ha Hsum. apply (for_up_sum _ half); [done| |  |done..].
  - intros i c acc Hc _ Hin. rewrite Hc. step.
    rewrite int_shr_Some by lia. step. by apply int_add_Some.
  - eapply Forall_impl; [exact Hpos|]. intros x Hx. by apply half_nonneg.
Qed.

Lemma for_up_copy_half (src : multi1d) n m (g : multi1d) :
  (m + n ≤ length src)%nat → (m + n ≤ length g)%nat →
  for_up n m (λ i g, c ← src !! i; h ← int_shr c 1; store g i h) g
  = Some (take m g ++ (half <$> take n (drop m src)) ++ drop (m + n) g).
Proof.
  intros Hs Hg. apply (for_up_copy _ half); [done..|].
  intros i c dst' Hc _ Hi. rewrite Hc. step.
  rewrite int_shr_Some by lia. step. by apply store_lt.
Qed.

Lemma volume_half ds :
  Forall (λ d, 0 < d ∧ d mod 2 = 0) ds →
  volume ds = 2 ^ Z.of_nat (length ds) * volume (half <$> ds)
  ∧ Forall (λ d, 0 < d) (half <$> ds).
Proof.
  induction 1 as [|d ds [Hd He] _ [IHv IHp]].
  - split; [reflexivity|constructor].
  - rewrite fmap_cons, !volume_cons, IHv. simpl length.
    rewrite Nat2Z.inj_succ, Z.pow_succ_r, half_div by lia. split.
    + assert (d = 2 * (d / 2)) as Hd2 by zdiv.
      rewrite Hd2 at 1. lia.
    + constructor; [|done]. zdiv.
Qed.

Lemma valid_coord_half ds cs :
  Forall (λ d, 0 < d ∧ d mod 2 = 0) ds → valid_coord ds cs →
  valid_coord (half <$> ds) (half <$> cs).
Proof.
  intros Hds Hv. induction Hv as [|c d cs ds Hc _ IH]; [constructor|].
  inversion Hds as [|d' ds' [Hd He] Hds']; subst.
  rewrite !fmap_cons. constructor; [|by apply IH].
  rewrite !half_div. zdiv.
Qed.

Lemma valid_coord_double (g : nat → Z) ds qs :
  (∀ j, 0 ≤ g j < 2) →
  Forall (λ d, 0 < d ∧ d mod 2 = 0) ds → valid_coord (half <$> ds) qs →
  valid_coord ds (imap (λ j q, 2 * q + g j) qs).
Proof.
  intros Hg Hds. revert g Hg qs.
  induction Hds as [|d ds [Hd He] _ IH]; intros g Hg qs Hv.
  - inversion Hv; subst. constructor.
  - rewrite fmap_cons in Hv.
    inversion Hv as [|q h qs' hs Hq Hqs]; subst.
    rewrite imap_cons. constructor.
    + rewrite half_div in Hq. specialize (Hg O).
      zdiv.
    + apply (IH (g ∘ S)); [|done]. intros j. apply Hg.
Qed.

Lemma testbit_above a n m :
  0 ≤ a < 2 ^ n → n ≤ m → Z.testbit a m = false.
Proof.
  intros Ha Hm. destruct (decide (0 ≤ n)) as [Hn|Hn].
  - rewrite <- (Z.mod_small a (2 ^ n)) by done.
    apply Z.mod_pow2_bits_high. lia.
  - rewrite Z.pow_neg_r in Ha by lia. lia.
Qed.

Lemma low_bits_all (l : multi1d) : Forall (λ b, 0 ≤ b < 2) (low <$> l).
Proof. apply Forall_fmap, Forall_true. intros x. apply low_range. Qed.

Section CB32_facts.

Variables (junk : Z) (L : LocalLayout_t) (d0 : Z) (ds : multi1d).
Hypothesis Hnrow : nrow L = d0 :: ds.
Hypothesis Hvol : vol L = volume (d0 :: ds).
Hypothesis Hint : vol L ≤ INT_MAX.
Hypothesis Hd0 : 0 < d0.
Hypothesis Hd4 : d0 mod 4 = 0.
Hypothesis Hds : Forall (λ d, 0 < d ∧ d mod 2 = 0) ds.

Let Nd := S (length ds).
Let V := volume (Z.shiftr d0 2 :: (half <$> ds)).

Lemma cb32_vol_cb :
  Z.shiftr (vol L) (Z.of_nat Nd + 1) = V ∧ 0 < V
  ∧ vol L = 2 ^ (Z.of_nat Nd + 1) * V
  ∧ Forall (λ d, 0 < d) (Z.shiftr d0 2 :: (half <$> ds))
  ∧ Z.of_nat Nd + 1 ≤ 30
  ∧ 0 < volume (half <$> ds) ≤ V.
Proof.
  destruct (volume_half ds Hds) as [Hv Hp].
  assert (d0 = 4 * (d0 / 4)) as Hd by zdiv.
  assert (0 < d0 / 4) by lia.
  assert (Forall (λ d, 0 < d) (Z.shiftr d0 2 :: (half <$> ds))) as Hpos.
  { constructor; [by rewrite shiftr_2|done]. }
  pose proof (volume_pos _ Hpos) as HV. fold V in HV.
  pose proof (volume_pos _ Hp) as HVs.
  assert (vol L = 2 ^ (Z.of_nat Nd + 1) * V) as Hv2.
  { rewrite Hvol. unfold V. rewrite !volume_cons, Hv, shiftr_2. subst Nd.
    rewrite Nat2Z.inj_succ.
    replace (Z.succ (Z.of_nat (length ds)) + 1)
      with (Z.succ (Z.succ (Z.of_nat (length ds)))) by lia.
    rewrite !Z.pow_succ_r by lia. rewrite Hd at 1. lia. }
  split; [|split; [done|split; [done|split; [done|split]]]].
  - rewrite Z.shiftr_div_pow2, Hv2 by lia.
    rewrite Z.mul_comm. apply Z.div_mul. apply Z.pow_nonzero; lia.
  - assert (2 ^ (Z.of_nat Nd + 1) < 2 ^ 31) as Hlt.
    { change (2 ^ 31) with (INT_MAX + 1).
      assert (0 < 2 ^ (Z.of_nat Nd + 1)) by (apply Z.pow_pos_nonneg; lia).
      nia. }
    apply Z.pow_lt_mono_r_iff in Hlt; lia.
  - split; [done|]. unfold V. rewrite volume_cons, shiftr_2. nia.
Qed.

Lemma cb32_nrow_eq :
  cb32_nrow Nd junk L = Some (Z.shiftr d0 2 :: (half <$> ds)).
Proof.
  unfold cb32_nrow, lattSize, fresh, for_range. rewrite Hnrow. subst Nd.
  cbn [replicate lookup list_lookup mbind option_bind].
  rewrite int_shr_Some by lia. step.
  rewrite store_lt by (simpl; lia). step.
  rewrite for_up_copy_half
    by (simpl; rewrite ?length_replicate; lia).
  simpl. rewrite Nat.sub_0_r, drop_0, firstn_all.
  rewrite drop_ge by (rewrite length_replicate; lia).
  by rewrite app_nil_r.
Qed.

(** The index of a coordinate, given its position [r] in the
    sublattice. *)
Lemma cb32_linearSiteIndex_eq c0 cs r :
  valid_coord (d0 :: ds) (c0 :: cs) →
  local_site_lex (Z.shiftr c0 2 :: (half <$> cs))
                 (Z.shiftr d0 2 :: (half <$> ds)) = Some r →
  0 ≤ r < V →
  linearSiteIndex_cb32 Nd junk L (c0 :: cs)
  = Some (r + horner (low <$> c0 :: cs) (low (sumZ (half <$> c0 :: cs)))
              * V).
Proof.
  intros Hval Hls Hr.
  destruct cb32_vol_cb as (Hcb & HV & Hv2 & Hpos & HNd & HVs).
  destruct (sumZ_valid_coord _ _ Hval) as (Hnn & Hs0 & Hs).
  rewrite <- Hvol in Hs.
  pose proof (sumZ_half_le _ Hnn) as Hhs.
  assert (length cs = length ds) as Hlen
    by (apply Forall2_length in Hval; simpl in Hval; lia).
  pose proof (pow2_le_30 (Z.of_nat Nd) ltac:(lia)) as HpN.
  unfold linearSiteIndex_cb32, for_range.
  rewrite int_shr_Some by lia. step. rewrite Hcb, cb32_nrow_eq. step.
  unfold at_int. rewrite decide_True by lia.
  replace (Z.to_nat (Z.of_nat Nd - 1)) with (length ds) by (subst Nd; lia).
  destruct (lookup_lt_is_Some_2 (c0 :: cs) (length ds)) as [cN HcN];
    [simpl; lia|].
  rewrite HcN. step.
  replace (Nd - 1)%nat with (length ds) by (subst Nd; lia).
  rewrite (for_down_horner _ _ _ 1);
    [|simpl; lia|lia|apply low_range|subst Nd; lia].
  step. rewrite Nat.sub_0_r.
  assert (take Nd (drop 0 (c0 :: cs)) = c0 :: cs) as Hall
    by (rewrite drop_0; apply take_ge; subst Nd; simpl; lia).
  rewrite for_up_sum_half; rewrite ?Hall;
    [|subst Nd; simpl; lia|done|lia|int_range].
  step. rewrite Z.add_0_l. fold (low (sumZ (half <$> c0 :: cs))).
  fold (low cN).
  set (T := low (sumZ (half <$> c0 :: cs))).
  assert (0 ≤ T < 2) as HT by apply low_range.
  assert (c0 :: cs = take (length cs) (c0 :: cs) ++ [cN]) as Hsplit.
  { rewrite <- (take_drop (length cs) (c0 :: cs)) at 1. f_equal.
    rewrite Hlen in *. apply (drop_S _ _ _) in HcN as ->.
    rewrite drop_ge by (simpl; lia). done. }
  assert (horner (low <$> take (length ds) (c0 :: cs)) (low cN)
          = horner (low <$> c0 :: cs) 0) as ->.
  { rewrite Hsplit at 2. rewrite fmap_app, Hlen.
    change (low <$> [cN]) with [low cN].
    rewrite horner_snoc. f_equal. lia. }
  assert (length (low <$> c0 :: cs) = Nd) as HlenC
    by (rewrite length_fmap; subst Nd; simpl; lia).
  destruct (horner_range (low <$> c0 :: cs) 0 (low_bits_all _) ltac:(lia))
    as [Hh _]. rewrite HlenC in Hh.
  rewrite int_shl_Some by int_range. step.
  rewrite Z.shiftl_mul_pow2 by lia.
  rewrite int_add_Some by int_range. step.
  assert (horner (low <$> c0 :: cs) 0 + T * 2 ^ Z.of_nat Nd
          = horner (low <$> c0 :: cs) T) as ->.
  { rewrite (horner_hi _ T), HlenC. lia. }
  set (S := horner (low <$> c0 :: cs) T).
  assert (0 ≤ S < 2 ^ (Z.of_nat Nd + 1)) as HS.
  { unfold S. rewrite horner_hi, HlenC.
    rewrite Z.pow_add_r, Z.pow_1_r by lia. nia. }
  unfold fresh. subst Nd.
  cbn [replicate lookup list_lookup mbind option_bind].
  rewrite int_shr_Some by lia. step.
  rewrite store_lt by (simpl; lia). step.
  rewrite for_up_copy_half
    by (simpl; rewrite ?length_replicate; lia).
  step. simpl take. simpl drop.
  rewrite take_0, drop_0, <- Hlen, firstn_all.
  rewrite drop_ge by (rewrite length_replicate; lia).
  rewrite app_nil_r. simpl app. simpl local_site. rewrite Hls. step.
  assert (0 ≤ S * V ≤ vol L - V) by nia.
  rewrite int_mul_Some by int_range. step.
  rewrite int_add_Some by int_range. done.
Qed.

(** The coordinate of a site, given the coordinate [q0 :: qs] of its
    position in the sublattice. *)
Lemma cb32_siteCoords_eq site q0 qs :
  0 ≤ site < vol L →
  crtesn_lex (site mod V) (Z.shiftr d0 2 :: (half <$> ds))
    = Some (q0 :: qs) →
  valid_coord (Z.shiftr d0 2 :: (half <$> ds)) (q0 :: qs) →
  let subl := Z.lxor (site / V) (Z.shiftl (low (sumZ qs)) (Z.of_nat Nd)) in
  let B := λ m : nat, Z.b2z (Z.testbit subl (Z.of_nat m)) in
  siteCoords_cb32 Nd junk L 0 site =
    Some (4 * q0 + 2 * B Nd + B O :: imap (λ j q, 2 * q + B (S j)) qs).
Proof.
  intros Hsite Hc Hval subl B.
  destruct cb32_vol_cb as (Hcb & HV & Hv2 & Hpos & HNd & HVs).
  destruct (quot_rem_nonneg site V) as [Hq Hr]; [lia..|].
  inversion Hval as [|? ? ? ? Hq0 Hqs]; subst.
  destruct (sumZ_valid_coord _ _ Hqs) as (Hnn & Hs0 & Hs).
  assert (length qs = length ds) as Hlen
    by (apply Forall2_length in Hqs; by rewrite length_fmap in Hqs).
  pose proof (pow2_le_30 (Z.of_nat Nd) ltac:(lia)) as HpN.
  assert (4 * V ≤ vol L) as H4V.
  { rewrite Hv2. assert (4 ≤ 2 ^ (Z.of_nat Nd + 1)); [|nia].
    change 4 with (2 ^ 2). apply Z.pow_le_mono_r; subst Nd; lia. }
  assert (Z.shiftr d0 2 ≤ V) as Hh0.
  { unfold V. rewrite volume_cons. rewrite shiftr_2 in *. nia. }
  pose proof (low_range (sumZ qs)) as Hcbq.
  unfold siteCoords_cb32, for_range.
  rewrite int_shr_Some by lia. step. rewrite Hcb, cb32_nrow_eq. step.
  rewrite int_div_nz, int_mod_nz by lia. step.
  simpl crtesn. rewrite Hq, Hr, Hc. step.
  assert (take (Nd - 1) (drop 1 (q0 :: qs)) = qs) as Hslice.
  { subst Nd. simpl. by rewrite Nat.sub_0_r, drop_0, <- Hlen, firstn_all. }
  rewrite for_up_sum_id; rewrite ?Hslice;
    [|subst Nd; simpl; lia|done|lia|int_range].
  cbn [mbind option_bind lookup list_lookup].
  rewrite (int_shl_Some q0 2) by (change (2 ^ 2) with 4; int_range). step.
  rewrite store_lt by (simpl; lia). step.
  rewrite (for_up_update _ (λ _ c, Z.shiftl c 1));
    [|subst Nd; simpl; rewrite ?length_insert; simpl; lia|].
  2:{ intros i c v' Hi Hc0 Hc' Hl. rewrite Hc'. step.
      assert (0 ≤ c ≤ V) as Hcb'.
      { destruct i as [|i]; [lia|]. simpl in Hc0.
        pose proof (elem_le_sumZ _ _ _ Hnn Hc0). lia. }
      rewrite (int_shl_Some c 1) by (change (2 ^ 1) with 2; int_range). step.
      apply store_lt. apply lookup_lt_Some in Hc'. lia. }
  step. rewrite Z.add_0_l. fold (low (sumZ qs)).
  assert (take 1 (<[0%nat:=Z.shiftl q0 2]> (q0 :: qs)) ++
           imap (λ (_ : nat) (c : Z), Z.shiftl c 1)
             (take (Nd - 1) (drop 1 (<[0%nat:=Z.shiftl q0 2]> (q0 :: qs)))) ++
           drop (1 + (Nd - 1)) (<[0%nat:=Z.shiftl q0 2]> (q0 :: qs))
          = Z.shiftl q0 2 :: ((λ c, Z.shiftl c 1) <$> qs)) as ->.
  { subst Nd. simpl.
    rewrite Nat.sub_0_r, drop_0, <- Hlen, firstn_all, drop_all, app_nil_r.
    f_equal. apply (imap_const (λ c, Z.shiftl c 1)). }
  rewrite (int_shl_Some (low (sumZ qs)) (Z.of_nat Nd)) by int_range.
  step. fold subl.
  set (X := λ m : nat,
         Z.shiftr (Z.land subl (Z.shiftl 1 (Z.of_nat m))) (Z.of_nat m)).
  assert (length (Z.shiftl q0 2 :: ((λ c, Z.shiftl c 1) <$> qs)) = Nd)
    as Hlen2 by (subst Nd; simpl; rewrite length_fmap; lia).
  rewrite (for_up_update _ (λ m c, Z.lxor c (X m))); [|lia|].
  2:{ intros i c v' _ Hc0 Hc' Hl. rewrite Hc'. step.
      assert (i < Nd)%nat as Hi by (apply lookup_lt_Some in Hc0; lia).
      pose proof (pow2_le_30 (Z.of_nat i) ltac:(lia)).
      rewrite int_shl_Some by int_range. step.
      rewrite int_shr_Some by lia. step.
      apply store_lt. apply lookup_lt_Some in Hc'. lia. }
  rewrite Nat.sub_0_r, drop_0, Nat.add_0_l.
  rewrite (take_ge _ Nd), (drop_ge _ Nd) by lia.
  rewrite app_nil_r, take_0, app_nil_l.
  cbn [imap lookup list_lookup mbind option_bind].
  rewrite (int_shl_Some 1 (Z.of_nat Nd)) by int_range. step.
  rewrite int_shr_Some by lia. step.
  rewrite store_lt by (simpl; lia). simpl insert.
  assert (∀ m, 0 ≤ B m < 2) as HB
    by (intros m; unfold B; destruct (Z.testbit _ _); simpl; lia).
  f_equal. f_equal.
  - unfold X. rewrite bit_extract, bit_extract_pred by lia.
    rewrite shiftl_2. apply lxor_low2; apply HB.
  - apply list_eq. intros i.
    rewrite !list_lookup_imap, list_lookup_fmap.
    destruct (qs !! i) as [q|]; [|done]. simpl. f_equal.
    unfold X. rewrite bit_extract, shiftl_1 by lia. apply lxor_low, HB.
Qed.

Lemma cb32_index_coord i :
  0 ≤ i < vol L →
  ∃ c, siteCoords_cb32 Nd junk L 0 i = Some c ∧ valid_coord (nrow L) c
       ∧ linearSiteIndex_cb32 Nd junk L c = Some i.
Proof.
  intros Hi. destruct cb32_vol_cb as (Hcb & HV & Hv2 & Hpos & HNd & HVs).
  assert (0 ≤ i mod V < V) as Hrb by (apply Z.mod_pos_bound; lia).
  assert (0 ≤ i / V < 2 ^ (Z.of_nat Nd + 1)) as Hqb.
  { split; [apply Z.div_pos; lia|apply Z.div_lt_upper_bound; lia]. }
  destruct (crtesn_lex_local_site _ _ Hpos Hrb ltac:(fold V; nia))
    as (q & Hc & Hval & Hls).
  pose proof Hval as Hval0.
  inversion Hval as [|q0 h qs hs Hq0 Hqs]; subst q h hs.
  assert (length qs = length ds) as Hlen
    by (apply Forall2_length in Hqs; by rewrite length_fmap in Hqs).
  pose proof (cb32_siteCoords_eq i q0 qs Hi Hc Hval0) as Hsc.
  cbv zeta in Hsc.
  set (subl := i / V) in *.
  set (cbq := low (sumZ qs)) in *.
  set (subl' := Z.lxor subl (Z.shiftl cbq (Z.of_nat Nd))) in *.
  set (B := λ m : nat, Z.b2z (Z.testbit subl' (Z.of_nat m))) in *.
  assert (∀ m, 0 ≤ B m < 2) as HB
    by (intros m; unfold B; destruct (Z.testbit _ _); simpl; lia).
  set (C := 4 * q0 + 2 * B Nd + B O :: imap (λ j q, 2 * q + B (S j)) qs) in *.
  exists C. split; [done|].
  assert (valid_coord (d0 :: ds) C) as HvC.
  { constructor.
    - rewrite shiftr_2 in Hq0. pose proof (HB Nd). pose proof (HB O).
      zdiv.
    - apply (valid_coord_double (λ j, B (S j))); [|done..].
      intros j; apply HB. }
  split; [by rewrite Hnrow|].
  assert (half <$> imap (λ j q, 2 * q + B (S j)) qs = qs) as Hhalf.
  { apply list_eq. intros j. rewrite list_lookup_fmap, list_lookup_imap.
    destruct (qs !! j) as [x|]; [|done]. simpl. f_equal.
    rewrite half_div. pose proof (HB (S j)). zdiv. }
  assert (Z.shiftr (4 * q0 + 2 * B Nd + B O) 2 = q0) as Hq0'.
  { rewrite shiftr_2. pose proof (HB Nd). pose proof (HB O).
    zdiv. }
  unfold C.
  rewrite (cb32_linearSiteIndex_eq _ _ (i mod V));
    [|done|by rewrite Hhalf, Hq0'|done].
  fold C. f_equal.
  assert (∀ j, (j < Nd)%nat → (low <$> C) !! j = Some (B j)) as Hlow.
  { intros j Hj. rewrite list_lookup_fmap. unfold C.
    destruct j as [|j]; simpl.
    - f_equal. rewrite low_mod. pose proof (HB Nd). pose proof (HB O).
      zdiv.
    - rewrite list_lookup_imap.
      destruct (lookup_lt_is_Some_2 qs j) as [x ->]; [subst Nd; lia|].
      simpl. f_equal. rewrite low_mod. pose proof (HB (S j)).
      zdiv. }
  assert (length (low <$> C) = Nd) as HlenC.
  { rewrite length_fmap. unfold C. simpl. rewrite length_imap. subst Nd. lia. }
  set (Tf := low (sumZ (half <$> C))).
  assert (Tf = (B Nd + cbq) mod 2) as HTf.
  { unfold Tf, C. rewrite fmap_cons, Hhalf, sumZ_cons, half_div, low_mod.
    unfold cbq. rewrite low_mod. pose proof (HB Nd). pose proof (HB O).
    zdiv. }
  assert (0 ≤ cbq < 2) as Hcbq by apply low_range.
  assert (horner (low <$> C) Tf = subl) as ->.
  { apply Z.bits_inj'. intros k Hk.
    destruct (decide (k < Z.of_nat Nd)) as [Hlt|Hge].
    - replace k with (Z.of_nat (Z.to_nat k)) by lia.
      rewrite (horner_testbit_low _ _ _ (B (Z.to_nat k)));
        [|apply low_bits_all|apply Hlow; lia].
      unfold B, subl'. rewrite Z.lxor_spec, Z.shiftl_spec_low by lia.
      rewrite xorb_false_r. by destruct (Z.testbit subl _).
    - replace k with (Z.of_nat (length (low <$> C)) + (k - Z.of_nat Nd))
        by (rewrite HlenC; lia).
      rewrite horner_testbit_high by (try apply low_bits_all; lia).
      rewrite HlenC.
      rewrite testbit_small by (unfold Tf; apply low_range).
      destruct (decide (k = Z.of_nat Nd)) as [->|Hne].
      + rewrite Z.sub_diag, andb_true_r.
        replace (Z.of_nat Nd + 0) with (Z.of_nat Nd) by lia.
        rewrite HTf. unfold B, subl'.
        rewrite Z.lxor_spec, Z.shiftl_spec, Z.sub_diag by lia.
        rewrite (testbit_small cbq) by done. rewrite andb_true_r.
        assert (cbq = 0 ∨ cbq = 1) as [-> | ->] by lia;
          destruct (Z.testbit subl (Z.of_nat Nd)); reflexivity.
      + rewrite (bool_decide_eq_false_2 (k - Z.of_nat Nd = 0)) by lia.
        rewrite andb_false_r. symmetry.
        apply (testbit_above _ (Z.of_nat Nd + 1)); lia. }
  pose proof (Z.div_mod i V ltac:(lia)). fold subl in H. lia.
Qed.

Lemma cb32_coord_index c :
  valid_coord (nrow L) c →
  ∃ i, linearSiteIndex_cb32 Nd junk L c = Some i ∧ 0 ≤ i < vol L
       ∧ siteCoords_cb32 Nd junk L 0 i = Some c.
Proof.
  intros Hval. destruct cb32_vol_cb as (Hcb & HV & Hv2 & Hpos & HNd & HVs).
  rewrite Hnrow in Hval. pose proof Hval as Hval0.
  inversion Hval as [|c0 d cs ds' Hc0 Hcs]; subst c d ds'.
  assert (length cs = length ds) as Hlen by (by apply Forall2_length in Hcs).
  assert (valid_coord (Z.shiftr d0 2 :: (half <$> ds))
                      (Z.shiftr c0 2 :: (half <$> cs))) as Hval'.
  { constructor; [|by apply valid_coord_half].
    rewrite !shiftr_2. zdiv. }
  destruct (local_site_lex_crtesn _ _ Hval' ltac:(fold V; nia))
    as (r & Hls & Hr & Hc).
  fold V in Hr.
  pose proof (cb32_linearSiteIndex_eq c0 cs r Hval0 Hls Hr) as Hli.
  set (T := low (sumZ (half <$> c0 :: cs))) in *.
  set (S := horner (low <$> c0 :: cs) T) in *.
  assert (0 ≤ T < 2) as HT by apply low_range.
  assert (length (low <$> c0 :: cs) = Nd) as HlenC
    by (rewrite length_fmap; subst Nd; simpl; lia).
  assert (0 ≤ S < 2 ^ (Z.of_nat Nd + 1)) as HS.
  { unfold S. rewrite horner_hi, HlenC.
    destruct (horner_range (low <$> c0 :: cs) 0 (low_bits_all _) ltac:(lia))
      as [Hh _]. rewrite HlenC in Hh.
    rewrite Z.pow_add_r, Z.pow_1_r by lia. nia. }
  exists (r + S * V). split; [done|]. split; [nia|].
  assert ((r + S * V) / V = S) as HqS
    by (rewrite Z.div_add by lia; rewrite Z.div_small; lia).
  assert ((r + S * V) mod V = r) as HrS
    by (rewrite Z.mod_add by lia; rewrite Z.mod_small; lia).
  pose proof (cb32_siteCoords_eq (r + S * V)
                (Z.shiftr c0 2) (half <$> cs)) as Hsc.
  rewrite HqS, HrS in Hsc.
  specialize (Hsc ltac:(nia) Hc Hval').
  cbv zeta in Hsc. rewrite Hsc. clear Hsc. f_equal.
  set (cbq := low (sumZ (half <$> cs))).
  assert (0 ≤ cbq < 2) as Hcbq by apply low_range.
  set (subl' := Z.lxor S (Z.shiftl cbq (Z.of_nat Nd))).
  assert (∀ (j : nat) x, (c0 :: cs) !! j = Some x →
            Z.b2z (Z.testbit subl' (Z.of_nat j)) = low x) as Hbits.
  { intros j x Hx. unfold subl'.
    assert (j < Nd)%nat
      by (apply lookup_lt_Some in Hx; subst Nd; simpl in Hx; lia).
    rewrite Z.lxor_spec, Z.shiftl_spec_low, xorb_false_r by lia.
    unfold S. rewrite (horner_testbit_low _ _ _ (low x));
      [|apply low_bits_all|by rewrite list_lookup_fmap, Hx].
    pose proof (low_range x).
    assert (low x = 0 ∨ low x = 1) as [-> | ->] by lia; reflexivity. }
  assert (Z.b2z (Z.testbit subl' (Z.of_nat Nd)) = (c0 / 2) mod 2) as Htop.
  { unfold subl'.
    rewrite Z.lxor_spec, Z.shiftl_spec, Z.sub_diag by lia.
    rewrite (testbit_small cbq) by done. rewrite andb_true_r.
    unfold S. rewrite <- HlenC at 1.
    rewrite <- (Z.add_0_r (Z.of_nat (length _))).
    rewrite horner_testbit_high by (try apply low_bits_all; lia).
    rewrite testbit_small, andb_true_r by done.
    assert (T = (c0 / 2 + cbq) mod 2) as HTeq.
    { unfold T, cbq. rewrite fmap_cons, sumZ_cons, half_div, !low_mod.
      zdiv. }
    assert (cbq = 0 ∨ cbq = 1) as [Hz | Hz] by lia; rewrite Hz in *;
      assert (T = 0 ∨ T = 1) as [Ht | Ht] by lia; rewrite Ht in *;
      simpl; zdiv. }
  rewrite Htop, (Hbits O c0 eq_refl). f_equal.
  - rewrite shiftr_2, low_mod. zdiv.
  - apply list_eq. intros j. rewrite list_lookup_imap, list_lookup_fmap.
    destruct (cs !! j) as [x|] eqn:Hx; [|done].
    cbn [fmap option_fmap option_map]. f_equal.
    rewrite (Hbits (Datatypes.S j) x Hx), half_div, low_mod.
    zdiv.
Qed.

End CB32_facts.

(** ** Round trips of the four layouts *)

Lemma lexico_index_coord L i :
  Forall (λ d, 0 < d) (nrow L) → vol L = volume (nrow L) →
  vol L ≤ INT_MAX → 0 ≤ i < vol L →
  ∃ c, siteCoords_lexico L 0 i = Some c ∧ valid_coord (nrow L) c
       ∧ linearSiteIndex_lexico L c = Some i.
Proof.
  intros Hpos Hvol Hint Hi. rewrite Hvol in Hi, Hint.
  exact (crtesn_lex_local_site _ _ Hpos Hi Hint).
Qed.

Lemma lexico_coord_index L c :
  vol L = volume (nrow L) → vol L ≤ INT_MAX → valid_coord (nrow L) c →
  ∃ i, linearSiteIndex_lexico L c = Some i ∧ 0 ≤ i < vol L
       ∧ siteCoords_lexico L 0 i = Some c.
Proof.
  intros Hvol Hint Hv. rewrite Hvol in Hint |- *.
  exact (local_site_lex_crtesn _ _ Hv Hint).
Qed.

Lemma snoc_shape (v : multi1d) :
  (2 ≤ length v)%nat → ∃ d0 ds dt, v = d0 :: ds ++ [dt].
Proof.
  intros Hlen. destruct v as [|d0 rest]; [simpl in Hlen; lia|].
  destruct rest as [|dt ds _] using rev_ind; [simpl in Hlen; lia|].
  by exists d0, ds, dt.
Qed.

Lemma index_coord_all (Nd : nat) (junk : Z) (k : LayoutKind)
    (L : LocalLayout_t) i :
  (min_dimensions k ≤ Nd)%nat →
  length (nrow L) = Nd →
  Forall (λ d, 0 < d) (nrow L) →
  vol L = volume (nrow L) →
  vol L ≤ INT_MAX →
  divisibility k (nrow L) →
  0 ≤ i < vol L →
  ∃ c, siteCoords Nd junk k L 0 i = Some c ∧ valid_coord (nrow L) c
       ∧ linearSiteIndex Nd junk k L c = Some i.
Proof.
  intros HNd Hlen Hpos Hvol Hint Hdiv Hi. destruct k; simpl in *.
  - by apply lexico_index_coord.
  - destruct (nrow L) as [|d0 ds] eqn:Hnrow; [simpl in Hlen; lia|].
    inversion Hpos; subst. inversion Hdiv; subst. rewrite <- Hnrow.
    by apply (cb2_index_coord L d0 ds).
  - destruct (snoc_shape (nrow L)) as (d0 & ds & dt & Hnrow); [lia|].
    rewrite Hnrow in Hpos, Hdiv, Hvol.
    apply Forall_cons in Hpos as [Hd0 Hpos].
    apply Forall_app in Hpos as [Hds Hdt].
    apply Forall_cons in Hdiv as [He _].
    apply Forall_inv in Hdt.
    destruct (cb3d_index_coord L d0 ds dt) with (i := i)
      as (c & ? & ? & ? & _); try done.
    by exists c.
  - destruct (nrow L) as [|d0 ds] eqn:Hnrow; [simpl in Hlen; lia|].
    inversion Hpos; subst. destruct Hdiv as [Hd4 Hev].
    simpl length. rewrite <- Hnrow.
    apply (cb32_index_coord junk L d0 ds); try done.
    apply Forall_and; split; done.
Qed.

Lemma coord_index_all (Nd : nat) (junk : Z) (k : LayoutKind)
    (L : LocalLayout_t) c :
  (min_dimensions k ≤ Nd)%nat →
  length (nrow L) = Nd →
  Forall (λ d, 0 < d) (nrow L) →
  vol L = volume (nrow L) →
  vol L ≤ INT_MAX →
  divisibility k (nrow L) →
  valid_coord (nrow L) c →
  ∃ i, linearSiteIndex Nd junk k L c = Some i ∧ 0 ≤ i < vol L
       ∧ siteCoords Nd junk k L 0 i = Some c.
Proof.
  intros HNd Hlen Hpos Hvol Hint Hdiv Hc. destruct k; simpl in *.
  - by apply lexico_coord_index.
  - destruct (nrow L) as [|d0 ds] eqn:Hnrow; [simpl in Hlen; lia|].
    inversion Hpos; subst. inversion Hdiv; subst.
    destruct (cb2_coord_index L d0 ds Hnrow) with (c := c)
      as (i & ? & ? & _ & ?); try done.
    { by rewrite Hnrow. }
    by exists i.
  - destruct (snoc_shape (nrow L)) as (d0 & ds & dt & Hnrow); [lia|].
    rewrite Hnrow in Hpos, Hdiv, Hvol.
    apply Forall_cons in Hpos as [Hd0 Hpos].
    apply Forall_app in Hpos as [Hds Hdt].
    apply Forall_cons in Hdiv as [He _].
    apply Forall_inv in Hdt.
    destruct (cb3d_coord_index L d0 ds dt) with (c := c)
      as (i & ? & ? & ? & _); try done.
    by exists i.
  - destruct (nrow L) as [|d0 ds] eqn:Hnrow; [simpl in Hlen; lia|].
    inversion Hpos; subst. destruct Hdiv as [Hd4 Hev].
    simpl length.
    apply (cb32_coord_index junk L d0 ds); try done.
    + apply Forall_and; split; done.
    + by rewrite Hnrow.
Qed.

(** C1.  For every layout, on every lattice size that meets the
    divisibility constraints of the layout and whose number of sites
    is an [int], [linearSiteIndex] and [siteCoords] are inverse to each
    other: every linear index in [[0, vol)] is recovered from its
    coordinate, and every coordinate within the extents is recovered
    from its index. *)
Theorem layout_roundtrip (Nd : nat) (junk : Z) (k : LayoutKind)
    (L : LocalLayout_t) :
  (min_dimensions k ≤ Nd)%nat →
  length (nrow L) = Nd →
  Forall (λ d, 0 < d) (nrow L) →
  vol L = volume (nrow L) →
  vol L ≤ INT_MAX →
  divisibility k (nrow L) →
  (∀ i, 0 ≤ i < vol L →
     siteCoords Nd junk k L 0 i ≫= linearSiteIndex Nd junk k L = Some i)
  ∧ (∀ c, valid_coord (nrow L) c →
     linearSiteIndex Nd junk k L c ≫= siteCoords Nd junk k L 0 = Some c).
Proof.
  intros HNd Hlen Hpos Hvol Hint Hdiv. split.
  - intros i Hi.
    destruct (index_coord_all Nd junk k L i) as (c & -> & _ & Hli); done.
  - intros c Hc.
    destruct (coord_index_all Nd junk k L c) as (i & -> & _ & Hsc); done.
Qed.

(** ** The I/O grid and the creation of the layout *)

Lemma setIONodeGridDefaults_eq Nd junk L :
  setIONodeGridDefaults Nd junk L
  = Some (mkLayout (vol L) (nrow L) (subgrid_vol L) (logical_coord L)
                   (logical_size L) (replicate Nd 1)).
Proof.
  unfold setIONodeGridDefaults, for_range, fresh.
  rewrite for_up_const by (rewrite length_replicate; lia).
  rewrite Nat.sub_0_r, take_0.
  rewrite drop_ge by (rewrite length_replicate; lia).
  by rewrite app_nil_r.
Qed.

Lemma foldl_mul_None (l : multi1d) :
  foldl (λ acc d, a ← acc; int_mul a d) None l = None.
Proof. by induction l. Qed.

Lemma foldl_mul_inv (l : multi1d) a v :
  foldl (λ acc d, a ← acc; int_mul a d) (Some a) l = Some v →
  v = a * volume l.
Proof.
  revert a. induction l as [|x l IH]; intros a; simpl.
  - intros [= <-]. unfold volume. simpl. lia.
  - destruct (int_mul a x) as [p|] eqn:Hp; simpl.
    + apply int_mul_inv in Hp as [-> _]. intros H%IH.
      rewrite volume_cons. lia.
    + by rewrite foldl_mul_None.
Qed.

Lemma foldl_mul_Some (l : multi1d) a :
  Forall (λ d, 0 < d) l → 0 < a → a * volume l ≤ INT_MAX →
  foldl (λ acc d, a ← acc; int_mul a d) (Some a) l = Some (a * volume l).
Proof.
  intros Hpos. revert a.
  induction Hpos as [|x l Hx Hl IH]; intros a Ha Hb; simpl.
  - f_equal. unfold volume. simpl. lia.
  - rewrite volume_cons in Hb. pose proof (volume_pos _ Hl).
    rewrite int_mul_Some by int_range. simpl.
    rewrite IH by nia. rewrite volume_cons. f_equal. lia.
Qed.

(** The product that fits [int] is the product. *)
Lemma int_volume_inv dims v : int_volume dims = Some v → v = volume dims.
Proof. intros H%foldl_mul_inv. lia. Qed.

Lemma int_volume_pos dims :
  Forall (λ d, 0 < d) dims → volume dims ≤ INT_MAX →
  int_volume dims = Some (volume dims).
Proof.
  intros Hpos Hb. unfold int_volume.
  rewrite foldl_mul_Some by (done || lia). f_equal. lia.
Qed.

Lemma for_up_prod (v : multi1d) n m a :
  (m + n ≤ length v)%nat →
  for_up n m (λ i acc, x ← v !! i; int_mul acc x) a
  = foldl (λ acc d, a ← acc; int_mul a d) (Some a) (take n (drop m v)).
Proof.
  revert m a. induction n as [|n IH]; intros m a Hlen; simpl.
  - done.
  - destruct (lookup_lt_is_Some_2 v m) as [x Hx]; [lia|].
    rewrite Hx. simpl. rewrite (drop_S v x m Hx), firstn_cons. simpl.
    destruct (int_mul a x) as [p|]; simpl.
    + by rewrite IH by lia.
    + by rewrite foldl_mul_None.
Qed.

Lemma create_vol Nd (L : LocalLayout_t) :
  length (nrow L) = Nd →
  for_range 0 Nd (λ i v, n ← nrow L !! i; int_mul v n) 1
  = int_volume (nrow L).
Proof.
  intros Hlen. unfold for_range. rewrite for_up_prod by lia.
  by rewrite Nat.sub_0_r, drop_0, <- Hlen, firstn_all.
Qed.

Section Sanity.

Variables (Nd : nat) (junk : Z) (k : LayoutKind) (L : LocalLayout_t).

Let trip (i : Z) : option Z :=
  siteCoords Nd junk k L nodeNumber i ≫= linearSiteIndex Nd junk k L.

Lemma sanity_check_Done n i0 :
  sanity_check Nd junk k L n i0 = Done tt
  ↔ ∀ i, i0 ≤ i < i0 + Z.of_nat n → trip i = Some i.
Proof.
  revert i0. induction n as [|n IH]; intros i0.
  - split; [intros _ i Hi; lia|done].
  - cbn [sanity_check]. fold (trip i0).
    destruct (trip i0) as [j|] eqn:Hj.
    + destruct (decide (i0 ≠ j)) as [Hne|Heq].
      * split; [done|]. intros H.
        specialize (H i0 ltac:(lia)). congruence.
      * assert (j = i0) as -> by (symmetry; by apply dec_stable).
        rewrite IH. split.
        -- intros H i Hi. destruct (decide (i = i0)) as [->|]; [done|].
           apply H. lia.
        -- intros H i Hi. apply H. lia.
    + split; [done|]. intros H.
      specialize (H i0 ltac:(lia)). congruence.
Qed.

Lemma sanity_check_mismatch n i0 i j :
  i0 ≤ i < i0 + Z.of_nat n →
  (∀ i', i0 ≤ i' < i → trip i' = Some i') →
  trip i = Some j → i ≠ j →
  sanity_check Nd junk k L n i0
  = ErrorExit "Layout::create - Layout problems, the layout functions do not work correctly with this lattice size".
Proof.
  revert i0. induction n as [|n IH]; intros i0 Hi Hbefore Hj Hne; [lia|].
  cbn [sanity_check]. fold (trip i0).
  destruct (decide (i = i0)) as [->|Hlater].
  - rewrite Hj. by rewrite decide_True.
  - rewrite (Hbefore i0) by lia. rewrite decide_False by (intros H; by apply H).
    apply IH; [lia| |done..]. intros i' Hi'. apply Hbefore. lia.
Qed.

Lemma sanity_check_defined n i0 :
  (∀ i, i0 ≤ i < i0 + Z.of_nat n → is_Some (trip i)) →
  (∃ i, i0 ≤ i < i0 + Z.of_nat n ∧ trip i ≠ Some i) →
  sanity_check Nd junk k L n i0
  = ErrorExit "Layout::create - Layout problems, the layout functions do not work correctly with this lattice size".
Proof.
  revert i0. induction n as [|n IH]; intros i0 Hdef (i & Hi & Hbad); [lia|].
  cbn [sanity_check]. fold (trip i0).
  destruct (Hdef i0 ltac:(lia)) as [j Hj]. rewrite Hj.
  destruct (decide (i0 ≠ j)) as [Hne|Heq]; [done|].
  assert (j = i0) as -> by (symmetry; by apply dec_stable).
  apply IH.
  - intros i' Hi'. apply Hdef. lia.
  - exists i. split; [|done].
    destruct (decide (i = i0)) as [->|]; [congruence|lia].
Qed.

End Sanity.

(** The layout as [create] leaves it before the sanity sweep. *)
Lemma create_unfold Nd junk k L v :
  length (nrow L) = Nd → int_volume (nrow L) = Some v →
  let L1 := mkLayout v (nrow L) v (replicate Nd 0) (replicate Nd 1)
                     (iogrid L) in
  create Nd junk k true L =
    match sanity_check Nd junk k L1 (Z.to_nat (vol L1)) 0 with
    | Done _ =>
        Done (mkLayout v (nrow L) v (replicate Nd 0) (replicate Nd 1)
                       (replicate Nd 1))
    | ErrorExit msg => ErrorExit msg
    | Undefined => Undefined
    end.
Proof.
  intros Hlen Hv L1. unfold create. cbn [negb].
  rewrite decide_False by (intros H; by apply H).
  rewrite create_vol, Hv by done. fold L1.
  destruct (sanity_check _ _ _ _ _ _); [|done..].
  unfold initDefaults. by rewrite setIONodeGridDefaults_eq.
Qed.

(** C2.  [create] ends in [QDP_error_exit] when the library is not
    initialized, and when the lattice size does not have [Nd]
    components.  Otherwise, the number of sites [v] being computed
    without overflow, it sweeps the sites [0 .. v-1]: it completes
    normally exactly when every site is recovered from its coordinate;
    it ends in [QDP_error_exit] when every round trip is defined and
    one of them fails, and in any case at the first site [i] whose
    round trip yields some [j] different from [i]. *)
Theorem create_fatal_paths (Nd : nat) (junk : Z) (k : LayoutKind)
    (initialized : bool) (L : LocalLayout_t) :
  (initialized = false →
     create Nd junk k initialized L = ErrorExit "QDP is not initialized")
  ∧ (length (nrow L) ≠ Nd →
     ∃ msg, create Nd junk k initialized L = ErrorExit msg)
  ∧ (∀ v, initialized = true → length (nrow L) = Nd →
     int_volume (nrow L) = Some v →
     let L1 := mkLayout v (nrow L) v (replicate Nd 0) (replicate Nd 1)
                        (iogrid L) in
     let trip := λ i : Z,
       siteCoords Nd junk k L1 nodeNumber i
         ≫= linearSiteIndex Nd junk k L1 in
     ((∃ L2, create Nd junk k initialized L = Done L2)
        ↔ ∀ i, 0 ≤ i < v → trip i = Some i)
     ∧ ((∀ i, 0 ≤ i < v → is_Some (trip i)) →
        (∃ i, 0 ≤ i < v ∧ trip i ≠ Some i) →
        create Nd junk k initialized L
        = ErrorExit "Layout::create - Layout problems, the layout functions do not work correctly with this lattice size")
     ∧ (∀ i j, 0 ≤ i < v →
          (∀ i', 0 ≤ i' < i → trip i' = Some i') →
          trip i = Some j → i ≠ j →
          create Nd junk k initialized L
          = ErrorExit "Layout::create - Layout problems, the layout functions do not work correctly with this lattice size")).
Proof.
  split; [|split].
  - intros ->. reflexivity.
  - intros Hlen. unfold create. destruct initialized; cbn [negb].
    + rewrite decide_True by done. by eexists.
    + by eexists.
  - intros v -> Hlen Hv L1 trip.
    rewrite (create_unfold Nd junk k L v Hlen Hv). cbv zeta.
    fold L1. change (vol L1) with v. split; [|split].
    + pose proof (sanity_check_Done Nd junk k L1 (Z.to_nat v) 0) as HD.
      cbv zeta in HD. split.
      * intros [L2 HL2] i Hi.
        destruct (sanity_check _ _ _ _ _ _) as [[]| |] eqn:Hs; [|done..].
        apply (proj1 HD); [done|lia].
      * intros Hall.
        rewrite (proj2 HD); [by eexists|]. intros i Hi. apply Hall. lia.
    + intros Hdef (i & Hi & Hbad).
      rewrite (sanity_check_defined Nd junk k L1 _ 0); [done| |].
      * intros i' Hi'. apply Hdef. lia.
      * exists i. split; [lia|done].
    + intros i j Hi Hbefore Hj Hne.
      rewrite (sanity_check_mismatch Nd junk k L1 _ 0 i j); [done|lia| |done..].
      intros i' Hi'. apply Hbefore. lia.
Qed.

(** C7.  When [create] completes, [vol] is the product of the [Nd]
    extents in [nrow], [subgrid_vol] equals [vol], [logical_coord] is
    [Nd] zeros and [logical_size] is [Nd] ones. *)
Theorem create_geometry (Nd : nat) (junk : Z) (k : LayoutKind)
    (initialized : bool) (L L2 : LocalLayout_t) :
  create Nd junk k initialized L = Done L2 →
  nrow L2 = nrow L ∧ length (nrow L2) = Nd
  ∧ vol L2 = volume (nrow L2)
  ∧ subgrid_vol L2 = vol L2
  ∧ logical_coord L2 = replicate Nd 0
  ∧ logical_size L2 = replicate Nd 1.
Proof.
  intros Hc. destruct initialized; [|done].
  destruct (decide (length (nrow L) = Nd)) as [Hlen|Hlen].
  - destruct (int_volume (nrow L)) as [v|] eqn:Hv.
    + rewrite (create_unfold Nd junk k L v Hlen Hv) in Hc. cbv zeta in Hc.
      destruct (sanity_check _ _ _ _ _ _); [|done..].
      injection Hc as <-. simpl. by rewrite (int_volume_inv _ _ Hv).
    + unfold create in Hc. cbn [negb] in Hc.
      rewrite decide_False in Hc by (intros H; by apply H).
      by rewrite create_vol, Hv in Hc.
  - unfold create in Hc. cbn [negb] in Hc.
    by rewrite decide_True in Hc.
Qed.

(** C8.  Whatever grid the caller passes, [setIONodeGrid] stores the
    grid of [Nd] ones and changes nothing else; the I/O grid is always
    defined and has one node. *)
Theorem io_grid_forced (Nd : nat) (junk : Z) (g : multi1d)
    (L : LocalLayout_t) :
  (∃ L', setIONodeGrid Nd junk g L = Some L'
         ∧ getIONodeGrid L' = replicate Nd 1
         ∧ length (getIONodeGrid L') = Nd
         ∧ vol L' = vol L ∧ nrow L' = nrow L
         ∧ subgrid_vol L' = subgrid_vol L
         ∧ logical_coord L' = logical_coord L
         ∧ logical_size L' = logical_size L)
  ∧ isIOGridDefined = true ∧ numIONodeGrid = 1.
Proof.
  split; [|done]. eexists. split.
  - unfold setIONodeGrid. apply setIONodeGridDefaults_eq.
  - simpl. by rewrite length_replicate.
Qed.

(** ** The bit layout of the 32 checkerboard *)

(** C3.  In the 32 checkerboard layout the index of a coordinate [c] is
    [lexIndex + subl * vol_cb]: [vol_cb] is [vol / 2^(Nd+1)], [lexIndex]
    is the lexicographic index of the shrunk coordinate in the shrunk
    grid, and [subl] is a number of [Nd+1] bits whose bit [m] is the low
    bit of [c[m]] and whose bit [Nd] is the parity of the sum of the
    [c[m] >> 1].  The lattice has extent 0 divisible by 4, the others
    even, and a number of sites that is an [int]. *)
Theorem cb32_forward_encoding (Nd : nat) (junk : Z) (L : LocalLayout_t)
    (c : multi1d) :
  (1 ≤ Nd)%nat →
  length (nrow L) = Nd →
  Forall (λ d, 0 < d) (nrow L) →
  vol L = volume (nrow L) →
  vol L ≤ INT_MAX →
  divisibility CB32 (nrow L) →
  valid_coord (nrow L) c →
  ∃ lexIndex subl,
    linearSiteIndex Nd junk CB32 L c
      = Some (lexIndex + subl * (vol L / 2 ^ (Z.of_nat Nd + 1)))
    ∧ local_site_lex (shrink32 c) (shrink32 (nrow L)) = Some lexIndex
    ∧ 0 ≤ lexIndex < vol L / 2 ^ (Z.of_nat Nd + 1)
    ∧ 0 ≤ subl < 2 ^ (Z.of_nat Nd + 1)
    ∧ (∀ (m : nat) x, c !! m = Some x →
         Z.b2z (Z.testbit subl (Z.of_nat m)) = Z.land x 1)
    ∧ Z.b2z (Z.testbit subl (Z.of_nat Nd))
      = sumZ ((λ x, Z.shiftr x 1) <$> c) mod 2.
Proof.
  intros HNd Hlen Hpos Hvol Hint Hdiv Hval. simpl.
  destruct (nrow L) as [|d0 ds] eqn:Hnrow; [simpl in Hlen; lia|].
  inversion Hpos as [|? ? Hd0 Hds]; subst. destruct Hdiv as [Hd4 Hev].
  assert (Forall (λ d, 0 < d ∧ d mod 2 = 0) ds) as Hds'
    by (apply Forall_and; split; done).
  destruct (cb32_vol_cb L d0 ds) as (Hcb & HV & Hv2 & Hpos' & HNd' & _);
    [done..|].
  inversion Hval as [|c0 d cs ds' Hc0 Hcs]; subst c d ds'.
  assert (length cs = length ds) as Hlen' by (by apply Forall2_length in Hcs).
  assert (valid_coord (Z.shiftr d0 2 :: (half <$> ds))
                      (Z.shiftr c0 2 :: (half <$> cs))) as Hval'.
  { constructor; [|by apply valid_coord_half].
    rewrite !shiftr_2. zdiv. }
  destruct (local_site_lex_crtesn _ _ Hval' ltac:(nia)) as (r & Hls & Hr & _).
  simpl length.
  rewrite (cb32_linearSiteIndex_eq junk L d0 ds) with (r := r) by done.
  set (Nd := S (length ds)) in *.
  set (T := low (sumZ (half <$> c0 :: cs))).
  set (S := horner (low <$> c0 :: cs) T).
  assert (0 ≤ T < 2) as HT by apply low_range.
  assert (length (low <$> c0 :: cs) = Nd) as HlenC
    by (rewrite length_fmap; subst Nd; simpl; lia).
  rewrite <- Z.shiftr_div_pow2, Hcb by lia.
  exists r, S. split; [done|]. split; [done|]. split; [done|]. split.
  { unfold S. rewrite horner_hi, HlenC.
    destruct (horner_range (low <$> c0 :: cs) 0 (low_bits_all _) ltac:(lia))
      as [Hh _]. rewrite HlenC in Hh.
    rewrite Z.pow_add_r, Z.pow_1_r by lia. nia. }
  split.
  - intros m x Hx. unfold S.
    rewrite (horner_testbit_low _ _ _ (low x));
      [|apply low_bits_all|by rewrite list_lookup_fmap, Hx].
    pose proof (low_range x). fold (low x).
    assert (low x = 0 ∨ low x = 1) as [-> | ->] by lia; reflexivity.
  - unfold S. rewrite <- HlenC at 1.
    rewrite <- (Z.add_0_r (Z.of_nat (length _))).
    rewrite horner_testbit_high by (try apply low_bits_all; lia).
    rewrite testbit_small, andb_true_r by done.
    fold half. rewrite <- low_mod. fold T.
    assert (T = 0 ∨ T = 1) as [-> | ->] by lia; reflexivity.
Qed.

(** ** Time runs fastest in the 3-D checkerboard *)

(** C4.  In the 3-D checkerboard layout, a step of one along the last
    dimension is a step of one in the index; the checkerboard of a
    coordinate is the parity of its components other than the last;
    and [siteCoords] restores the low bit of component 0 from the
    half-flag and the components [1 .. Nd-2].  The lattice has even
    extents and a number of sites that is an [int]. *)
Theorem cb3d_time_fastest (Nd : nat) (junk : Z) (L : LocalLayout_t) :
  (2 ≤ Nd)%nat →
  length (nrow L) = Nd →
  Forall (λ d, 0 < d) (nrow L) →
  vol L = volume (nrow L) →
  vol L ≤ INT_MAX →
  divisibility CB3D (nrow L) →
  (∀ c t dt,
     valid_coord (nrow L) c →
     c !! (Nd - 1)%nat = Some t → nrow L !! (Nd - 1)%nat = Some dt →
     t + 1 < dt →
     ∃ i, linearSiteIndex Nd junk CB3D L c = Some i
          ∧ linearSiteIndex Nd junk CB3D L (<[(Nd - 1)%nat := t + 1]> c)
            = Some (i + 1))
  ∧ (∀ c, valid_coord (nrow L) c →
     ∃ i, linearSiteIndex Nd junk CB3D L c = Some i
          ∧ i / (vol L / 2) = sumZ (take (Nd - 1) c) mod 2)
  ∧ (∀ i, 0 ≤ i < vol L →
     ∃ c x0, siteCoords Nd junk CB3D L 0 i = Some c
          ∧ c !! 0%nat = Some x0
          ∧ x0 mod 2
            = (i / (vol L / 2) + sumZ (take (Nd - 2) (drop 1 c))) mod 2).
Proof.
  intros HNd Hlen Hpos Hvol Hint Hdiv. simpl.
  destruct (snoc_shape (nrow L)) as (d0 & ds & dt & Hnrow); [lia|].
  pose proof Hpos as Hpos0. pose proof Hvol as Hvol0.
  rewrite Hnrow in Hpos, Hdiv, Hvol.
  apply Forall_cons in Hpos as [Hd0 Hpos].
  apply Forall_app in Hpos as [Hds Hdt].
  apply Forall_cons in Hdiv as [He _].
  apply Forall_inv in Hdt.
  assert (Nd = S (S (length ds))) as HNd'.
  { rewrite <- Hlen, Hnrow. simpl. rewrite length_app. simpl. lia. }
  split; [|split].
  - intros c t dt' Hc Ht Hdt' Hlt. rewrite Hnrow in Hc, Hdt'.
    pose proof Hc as Hc0v.
    apply valid_coord_snoc_inv in Hc as (c0 & cs & t' & -> & Hc0 & Hcs & Ht').
    assert (length cs = length ds) as Hlcs by (by apply Forall2_length in Hcs).
    assert ((Nd - 1)%nat = length (c0 :: cs)) as HN
      by (simpl; lia).
    rewrite HN in Ht, Hdt' |- *.
    rewrite app_comm_cons in Ht, Hdt' |- *.
    rewrite list_lookup_middle in Ht by done. injection Ht as ->.
    rewrite list_lookup_middle in Hdt' by (simpl; lia). injection Hdt' as <-.
    rewrite (insert_app_r_alt (c0 :: cs) [t]) by done.
    rewrite Nat.sub_diag. simpl insert. rewrite <- !app_comm_cons.
    destruct (cb3d_vol_cb L d0 ds dt)
      as (_ & _ & Hcbpos & Hv2 & _ & Hpos'); [done..|].
    assert (valid_coord (d0 / 2 :: ds) (c0 / 2 :: cs)) as Hin
      by (constructor; [zdiv|done]).
    apply Forall_cons in Hpos' as [_ Hpos'].
    pose proof (volume_tail_le dt _ Hdt Hpos') as Htl.
    destruct (local_site_lex_crtesn _ _ Hin ltac:(lia)) as (r & Hr & Hrb & _).
    destruct (local_site_lex_digit t (c0 / 2 :: cs) dt (d0 / 2 :: ds) r)
      as [H1 H1b]; [done|lia|done|lia|].
    destruct (local_site_lex_digit (t + 1) (c0 / 2 :: cs) dt (d0 / 2 :: ds) r)
      as [H2 H2b]; [done|lia|done|lia|].
    assert (valid_coord (d0 :: ds ++ [dt]) (c0 :: cs ++ [t + 1])) as Hc1.
    { constructor; [done|]. apply Forall2_app; [done|].
      constructor; [lia|constructor]. }
    rewrite (cb3d_linearSiteIndex_eq L d0 ds dt) with (r := t + dt * r)
      by done.
    rewrite (cb3d_linearSiteIndex_eq L d0 ds dt) with (r := t + 1 + dt * r)
      by done.
    eexists. split; [done|]. f_equal. lia.
  - intros c Hc.
    destruct (cb3d_coord_index L d0 ds dt) with (c := c)
      as (i & Hi & _ & _ & Hpar); try done.
    exists i. split; [done|].
    apply Forall2_length in Hc. rewrite Hlen in Hc. by rewrite <- Hc.
  - intros i Hi.
    destruct (cb3d_index_coord L d0 ds dt) with (i := i)
      as (c & Hc & Hv & _ & x0 & Hx0 & Hpar); try done.
    exists c, x0. split; [done|]. split; [done|].
    apply Forall2_length in Hv. rewrite Hlen in Hv. by rewrite <- Hv.
Qed.

(** ** The colour blocks of the 2 checkerboard *)

(** C5.  In the 2 checkerboard layout on a lattice of even extents
    whose number of sites is an [int], the coordinates of even
    component sum take the indices [[0, vol/2)] and those of odd
    component sum the indices [[vol/2, vol)]; on the
    lattice 4x4x4x4, (0,0,0,0) has index 0, (1,0,0,0) has an index in
    [[128, 256)], site 0 is (0,0,0,0), and site 128 is a coordinate of
    odd component sum whose component 0 is 0 or 1. *)
Theorem cb2_color_blocks :
  (∀ (Nd : nat) (junk : Z) (L : LocalLayout_t) (c : multi1d),
     (1 ≤ Nd)%nat →
     length (nrow L) = Nd →
     Forall (λ d, 0 < d) (nrow L) →
     vol L = volume (nrow L) →
     vol L ≤ INT_MAX →
     divisibility CB2 (nrow L) →
     valid_coord (nrow L) c →
     ∃ i, linearSiteIndex Nd junk CB2 L c = Some i
          ∧ (sumZ c mod 2 = 0 → 0 ≤ i < vol L / 2)
          ∧ (sumZ c mod 2 = 1 → vol L / 2 ≤ i < vol L))
  ∧ (∀ junk : Z,
       vol layout_4444 = 256
       ∧ linearSiteIndex 4 junk CB2 layout_4444 [0; 0; 0; 0] = Some 0
       ∧ (∃ i, linearSiteIndex 4 junk CB2 layout_4444 [1; 0; 0; 0] = Some i
               ∧ 128 ≤ i < 256)
       ∧ siteCoords 4 junk CB2 layout_4444 0 0 = Some [0; 0; 0; 0]
       ∧ (∃ c x0, siteCoords 4 junk CB2 layout_4444 0 128 = Some c
                  ∧ sumZ c mod 2 = 1
                  ∧ c !! 0%nat = Some x0 ∧ (x0 = 0 ∨ x0 = 1))).
Proof.
  split.
  - intros Nd junk L c HNd Hlen Hpos Hvol Hint Hdiv Hc. simpl in *.
    destruct (nrow L) as [|d0 ds] eqn:Hnrow; [simpl in Hlen; lia|].
    inversion Hpos; subst. inversion Hdiv; subst.
    destruct (cb2_coord_index L d0 ds Hnrow) with (c := c)
      as (i & Hi & Hr & Hblock & _); try done.
    { by rewrite Hnrow. }
    exists i. split; [done|]. rewrite shiftr_1 in Hblock.
    split; intros Hs.
    + apply Hblock in Hs. lia.
    + assert (¬ i < vol L / 2) by (intros Hlt; apply Hblock in Hlt; lia).
      lia.
  - intros junk. split; [reflexivity|]. split; [by vm_compute|].
    split; [exists 128; split; [by vm_compute|lia]|].
    split; [by vm_compute|].
    exists [1; 0; 0; 0], 1. split; [by vm_compute|].
    split; [reflexivity|]. split; [reflexivity|by right].
Qed.

(** ** The lexicographic ordering *)

(** C6.  In the lexicographic layout on a lattice whose number of
    sites is an [int], one step along dimension 0 that stays within the
    extent is one step in the index; on the lattice 2x3 the coordinate
    (1,2) has index 5 and site 5 is (1,2). *)
Theorem lexico_ordering :
  (∀ (Nd : nat) (junk : Z) (L : LocalLayout_t) (c : multi1d) (x d0 : Z),
     volume (nrow L) ≤ INT_MAX →
     valid_coord (nrow L) c →
     c !! 0%nat = Some x → nrow L !! 0%nat = Some d0 →
     x + 1 < d0 →
     ∃ i, linearSiteIndex Nd junk LEXICO L c = Some i
          ∧ linearSiteIndex Nd junk LEXICO L (<[0%nat := x + 1]> c)
            = Some (i + 1))
  ∧ (∀ junk : Z,
       linearSiteIndex 2 junk LEXICO layout_23 [1; 2] = Some 5
       ∧ siteCoords 2 junk LEXICO layout_23 0 5 = Some [1; 2]).
Proof.
  split.
  - intros Nd junk L c x d0 Hmax Hc Hx Hd0 Hlt. simpl.
    unfold linearSiteIndex_lexico, lattSize. simpl.
    destruct Hc as [|x' d c ds Hx' Hcs]; [done|].
    injection Hx as ->. injection Hd0 as ->. simpl insert.
    assert (Forall (λ d, 0 < d) ds) as Hpos.
    { clear -Hcs. induction Hcs as [|? ? ? ? ? _ IH]; constructor; [lia|done]. }
    pose proof (volume_tail_le d0 ds ltac:(lia) Hpos) as Htl.
    destruct (local_site_lex_crtesn _ _ Hcs ltac:(lia)) as (r & Hr & Hrb & _).
    destruct (local_site_lex_digit x c d0 ds r) as [-> _]; [done..|].
    destruct (local_site_lex_digit (x + 1) c d0 ds r) as [-> _];
      [done|lia|done..|].
    eexists. split; [done|]. f_equal. lia.
  - intros junk. split; by vm_compute.
Qed.

(** ** The memory based map object *)

Lemma alter_const_insert {V : Type} (m : gmap string V) k v :
  is_Some (m !! k) → alter (λ _, v) k m = <[k := v]> m.
Proof.
  intros [w Hw]. apply map_eq. intros j.
  destruct (decide (k = j)) as [->|Hne].
  - by rewrite lookup_alter_eq, lookup_insert_eq, Hw.
  - by rewrite lookup_alter_ne, lookup_insert_ne.
Qed.

Lemma insert_src_map {K V : Type} (bin_str : K → string) key (val : V) o :
  MapObjectMemory.src_map (MapObjectMemory.insert bin_str key val o).2
  = <[bin_str key := val]> (MapObjectMemory.src_map o).
Proof.
  unfold MapObjectMemory.insert.
  destruct (MapObjectMemory.src_map o !! bin_str key) eqn:Hk; simpl; [|done].
  apply alter_const_insert. by rewrite Hk.
Qed.

(** C9.  [insert] returns 0 and leaves the map with [val] under the
    key and every other entry as it was.  When the key was there the
    number of entries and [size()] are unchanged; when it was not, the
    number of entries grows by one, and so does [size()], up to the
    width of its [unsigned int] result.  A [get] of the key afterwards
    returns 0 and the value [val]. *)
Theorem map_insert_update {K V : Type} (bin_str : K → string)
    (key : K) (val v0 : V) (o : MapObjectMemory.t) :
  let r := MapObjectMemory.insert bin_str key val o in
  let o' := r.2 in
  r.1 = 0
  ∧ MapObjectMemory.src_map o'
    = <[bin_str key := val]> (MapObjectMemory.src_map o)
  ∧ MapObjectMemory.user_data o' = MapObjectMemory.user_data o
  ∧ (is_Some (MapObjectMemory.src_map o !! bin_str key) →
       base.size (MapObjectMemory.src_map o')
       = base.size (MapObjectMemory.src_map o)
       ∧ (MapObjectMemory.size o').1 = (MapObjectMemory.size o).1)
  ∧ (MapObjectMemory.src_map o !! bin_str key = None →
       base.size (MapObjectMemory.src_map o')
       = S (base.size (MapObjectMemory.src_map o))
       ∧ (MapObjectMemory.size o').1
         = ((MapObjectMemory.size o).1 + 1) mod 2 ^ 32
       ∧ ((MapObjectMemory.size o).1 + 1 < 2 ^ 32 →
          (MapObjectMemory.size o').1 = (MapObjectMemory.size o).1 + 1))
  ∧ MapObjectMemory.get bin_str key v0 o' = (0, val, o').
Proof.
  intros r o'.
  pose proof (insert_src_map bin_str key val o) as Hmap.
  fold r in Hmap. fold o' in Hmap.
  split; [|split; [done|split; [|split; [|split]]]].
  - unfold r, MapObjectMemory.insert. by destruct (_ !! _).
  - unfold o', r, MapObjectMemory.insert. by destruct (_ !! _).
  - intros [w Hw]. unfold MapObjectMemory.size. simpl.
    rewrite Hmap, map_size_insert_Some by (by eexists). done.
  - intros Hnone. unfold MapObjectMemory.size. simpl.
    rewrite Hmap, map_size_insert_None by done.
    split; [done|]. rewrite Nat2Z.inj_succ.
    set (n := Z.of_nat (base.size (MapObjectMemory.src_map o))).
    assert ((n mod 2 ^ 32 + 1) mod 2 ^ 32 = Z.succ n mod 2 ^ 32) as Hmod.
    { unfold Z.succ. rewrite <- (Zplus_mod_idemp_l n). done. }
    split; [done|]. intros Hfit. rewrite <- Hmod.
    apply Z.mod_small. pose proof (Z.mod_pos_bound n (2 ^ 32)). lia.
  - unfold MapObjectMemory.get. by rewrite Hmap, lookup_insert_eq.
Qed.

(** C10.  [get] on an absent key returns 1 and leaves [val] as it was;
    on a present key it returns 0 and sets [val] to the stored value.
    [exist] returns true exactly when the key has an entry.  [erase] of
    an absent key leaves the object as it was, and neither [get] nor
    [exist] changes the object. *)
Theorem map_get_exist_erase {K V : Type} (bin_str : K → string)
    (key : K) (val : V) (o : MapObjectMemory.t) :
  (MapObjectMemory.src_map o !! bin_str key = None →
     MapObjectMemory.get bin_str key val o = (1, val, o))
  ∧ (∀ v, MapObjectMemory.src_map o !! bin_str key = Some v →
     MapObjectMemory.get bin_str key val o = (0, v, o))
  ∧ ((MapObjectMemory.exist bin_str key o).1 = true
     ↔ is_Some (MapObjectMemory.src_map o !! bin_str key))
  ∧ (MapObjectMemory.src_map o !! bin_str key = None →
     MapObjectMemory.erase bin_str key o = (tt, o))
  ∧ (MapObjectMemory.get bin_str key val o).2 = o
  ∧ (MapObjectMemory.exist bin_str key o).2 = o.
Proof.
  unfold MapObjectMemory.get, MapObjectMemory.exist, MapObjectMemory.erase.
  destruct (MapObjectMemory.src_map o !! bin_str key) as [w|];
    repeat split; try done.
  by intros v [= ->].
Qed.

(** ** Instances *)

Example create_cb2_4444 (junk : Z) :
  create 4 junk CB2 true layout_unset_4444 = Done layout_4444.
Proof. by vm_compute. Qed.

Example create_cb3d_4444 (junk : Z) :
  create 4 junk CB3D true layout_unset_4444 = Done layout_4444.
Proof. by vm_compute. Qed.

Example create_cb32_4444 (junk : Z) :
  create 4 junk CB32 true layout_unset_4444 = Done layout_4444.
Proof. by vm_compute. Qed.

Example create_lexico_23 (junk : Z) :
  create 2 junk LEXICO true (setLattSize [2; 3] layout_unset_4444)
  = Done layout_23.
Proof. by vm_compute. Qed.

(** An odd extent 0 does not pass the sweep of a checkerboard. *)
Example create_cb2_odd (junk : Z) :
  create 4 junk CB2 true (setLattSize [3; 4; 4; 4] layout_unset_4444)
  = ErrorExit "Layout::create - Layout problems, the layout functions do not work correctly with this lattice size".
Proof. by vm_compute. Qed.

(** With a single site the checkerboard volume is zero and the sweep
    divides by it. *)
Example create_cb2_one_site (junk : Z) :
  create 4 junk CB2 true (setLattSize [1; 1; 1; 1] layout_unset_4444)
  = Undefined.
Proof. by vm_compute. Qed.

Lemma layout_roundtrip_witness :
  siteCoords 4 0 CB32 layout_4444 0 77
    ≫= linearSiteIndex 4 0 CB32 layout_4444 = Some 77
  ∧ linearSiteIndex 4 0 CB32 layout_4444 [1; 2; 3; 3]
    ≫= siteCoords 4 0 CB32 layout_4444 0 = Some [1; 2; 3; 3].
Proof.
  assert (divisibility CB32 (nrow layout_4444)) as Hdiv
    by (split; repeat constructor).
  assert (vol layout_4444 ≤ INT_MAX) as Hint by (vm_compute; discriminate).
  destruct (layout_roundtrip 4 0 CB32 layout_4444
              ltac:(simpl; lia) eq_refl ltac:(repeat constructor) eq_refl
              Hint Hdiv)
    as [Hi Hc].
  split.
  - apply Hi. vm_compute. split; [discriminate|reflexivity].
  - apply Hc. repeat constructor; vm_compute; (discriminate || reflexivity).
Defined.

Lemma create_fatal_paths_witness :
  create 4 0 CB2 false layout_unset_4444 = ErrorExit "QDP is not initialized"
  ∧ (∃ msg, create 3 0 CB2 true layout_unset_4444 = ErrorExit msg)
  ∧ siteCoords 4 0 CB2 layout_4444 nodeNumber 77
      ≫= linearSiteIndex 4 0 CB2 layout_4444 = Some 77.
Proof.
  split; [|split].
  - exact (proj1 (create_fatal_paths 4 0 CB2 false layout_unset_4444) eq_refl).
  - apply (proj1 (proj2 (create_fatal_paths 3 0 CB2 true layout_unset_4444))).
    vm_compute. discriminate.
  - assert (int_volume (nrow layout_unset_4444) = Some 256) as Hv
      by (vm_compute; reflexivity).
    destruct (proj2 (proj2 (create_fatal_paths 4 0 CB2 true
                              layout_unset_4444)) 256 eq_refl eq_refl Hv)
      as [Hiff _].
    apply (proj1 Hiff).
    + eexists. vm_compute. reflexivity.
    + vm_compute. split; [discriminate|reflexivity].
Defined.

Lemma cb32_forward_encoding_witness :
  ∃ lexIndex subl,
    linearSiteIndex 4 0 CB32 layout_4444 [1; 2; 3; 3]
      = Some (lexIndex + subl * (vol layout_4444 / 2 ^ (Z.of_nat 4 + 1)))
    ∧ local_site_lex (shrink32 [1; 2; 3; 3]) (shrink32 (nrow layout_4444))
      = Some lexIndex
    ∧ 0 ≤ lexIndex < vol layout_4444 / 2 ^ (Z.of_nat 4 + 1)
    ∧ 0 ≤ subl < 2 ^ (Z.of_nat 4 + 1)
    ∧ (∀ (m : nat) x, [1; 2; 3; 3] !! m = Some x →
         Z.b2z (Z.testbit subl (Z.of_nat m)) = Z.land x 1)
    ∧ Z.b2z (Z.testbit subl (Z.of_nat 4))
      = sumZ ((λ x, Z.shiftr x 1) <$> [1; 2; 3; 3]) mod 2.
Proof.
  apply (cb32_forward_encoding 4 0 layout_4444 [1; 2; 3; 3]).
  - simpl; lia.
  - reflexivity.
  - repeat constructor.
  - reflexivity.
  - vm_compute; discriminate.
  - split; repeat constructor.
  - repeat constructor; vm_compute; (discriminate || reflexivity).
Defined.

Lemma cb3d_time_fastest_witness :
  ∃ i, linearSiteIndex 4 0 CB3D layout_4444 [1; 2; 3; 2] = Some i
       ∧ linearSiteIndex 4 0 CB3D layout_4444 (<[3%nat := 2 + 1]> [1; 2; 3; 2])
         = Some (i + 1).
Proof.
  apply (proj1 (cb3d_time_fastest 4 0 layout_4444 ltac:(lia) eq_refl
                  ltac:(repeat constructor) eq_refl
                  ltac:(vm_compute; discriminate)
                  ltac:(repeat constructor))
           [1; 2; 3; 2] 2 4).
  - repeat constructor; vm_compute; (discriminate || reflexivity).
  - reflexivity.
  - reflexivity.
  - reflexivity.
Defined.

Lemma cb2_color_blocks_witness :
  ∃ i, linearSiteIndex 4 0 CB2 layout_4444 [1; 0; 0; 0] = Some i
       ∧ (sumZ [1; 0; 0; 0] mod 2 = 0 → 0 ≤ i < vol layout_4444 / 2)
       ∧ (sumZ [1; 0; 0; 0] mod 2 = 1 →
          vol layout_4444 / 2 ≤ i < vol layout_4444).
Proof.
  apply (proj1 cb2_color_blocks 4%nat 0 layout_4444 [1; 0; 0; 0]).
  - lia.
  - reflexivity.
  - repeat constructor.
  - reflexivity.
  - vm_compute; discriminate.
  - repeat constructor.
  - repeat constructor; vm_compute; (discriminate || reflexivity).
Defined.

Lemma lexico_ordering_witness :
  ∃ i, linearSiteIndex 2 0 LEXICO layout_23 [0; 2] = Some i
       ∧ linearSiteIndex 2 0 LEXICO layout_23 (<[0%nat := 0 + 1]> [0; 2])
         = Some (i + 1).
Proof.
  apply (proj1 lexico_ordering 2%nat 0 layout_23 [0; 2] 0 2).
  - vm_compute; discriminate.
  - repeat constructor; vm_compute; (discriminate || reflexivity).
  - reflexivity.
  - reflexivity.
  - reflexivity.
Defined.

Lemma create_geometry_witness :
  nrow layout_4444 = nrow layout_unset_4444
  ∧ length (nrow layout_4444) = 4%nat
  ∧ vol layout_4444 = volume (nrow layout_4444)
  ∧ subgrid_vol layout_4444 = vol layout_4444
  ∧ logical_coord layout_4444 = replicate 4 0
  ∧ logical_size layout_4444 = replicate 4 1.
Proof.
  apply (create_geometry 4 0 CB2 true layout_unset_4444 layout_4444).
  vm_compute. reflexivity.
Defined.

Lemma map_insert_update_witness :
  (MapObjectMemory.size (MapObjectMemory.insert id "k" 2%nat map_one).2).1
  = (MapObjectMemory.size map_one).1
  ∧ (MapObjectMemory.size (MapObjectMemory.insert id "j" 2%nat map_one).2).1
    = (MapObjectMemory.size map_one).1 + 1.
Proof.
  split.
  - apply (map_insert_update id "k" 2%nat 0%nat map_one).
    eexists. vm_compute. reflexivity.
  - apply (map_insert_update id "j" 2%nat 0%nat map_one).
    + vm_compute. reflexivity.
    + vm_compute. reflexivity.
Defined.

Lemma map_get_exist_erase_witness :
  MapObjectMemory.get id "j" 7%nat map_one = (1, 7%nat, map_one)
  ∧ MapObjectMemory.get id "k" 7%nat map_one = (0, 1%nat, map_one)
  ∧ MapObjectMemory.erase id "j" map_one = (tt, map_one).
Proof.
  split; [|split].
  - apply (map_get_exist_erase id "j" 7%nat map_one). vm_compute. reflexivity.
  - apply (map_get_exist_erase id "k" 7%nat map_one). vm_compute. reflexivity.
  - apply (map_get_exist_erase id "j" 7%nat map_one). vm_compute. reflexivity.
Defined.

(** * Further properties of the layout *)

(** ** The helpers of each build *)

Lemma volume_time_first d0 ds dt :
  volume (dt :: d0 :: ds) = volume (d0 :: ds ++ [dt]).
Proof.
  rewrite app_comm_cons, volume_app, !volume_cons.
  change (volume []) with 1. lia.
Qed.

Lemma crtesn_local_site (k : LayoutKind) dims i :
  (min_dimensions k ≤ length dims)%nat →
  Forall (λ d, 0 < d) dims → volume dims ≤ INT_MAX →
  0 ≤ i < volume dims →
  ∃ c, crtesn k i dims = Some c ∧ valid_coord dims c
       ∧ local_site k c dims = Some i.
Proof.
  intros Hmin Hpos Hmax Hi.
  destruct k; try by apply crtesn_lex_local_site.
  destruct (snoc_shape dims) as (d0 & ds & dt & ->); [done|].
  apply Forall_cons in Hpos as [Hd0 Hpos].
  apply Forall_app in Hpos as [Hds Hdt]. apply Forall_inv in Hdt.
  rewrite <- volume_time_first in Hmax, Hi.
  destruct (crtesn_lex_local_site (dt :: d0 :: ds) i) as (c & Hc & Hv & Hls);
    [by repeat constructor|done..|].
  inversion Hv as [|t ? c' ? Ht Hv']; subst.
  inversion Hv' as [|c0 ? cs ? Hc0 Hcs]; subst.
  exists (c0 :: cs ++ [t]). simpl. unfold crtesn_tfast, local_site_tfast.
  rewrite !time_first_snoc, Hc. simpl. rewrite time_last_cons.
  split; [done|]. split; [by apply valid_coord_snoc|done].
Qed.

Lemma local_site_crtesn (k : LayoutKind) dims c :
  (min_dimensions k ≤ length dims)%nat →
  valid_coord dims c → volume dims ≤ INT_MAX →
  ∃ i, local_site k c dims = Some i ∧ 0 ≤ i < volume dims
       ∧ crtesn k i dims = Some c.
Proof.
  intros Hmin Hv Hmax.
  destruct k; try by apply local_site_lex_crtesn.
  destruct (snoc_shape dims) as (d0 & ds & dt & ->); [done|].
  apply valid_coord_snoc_inv in Hv as (c0 & cs & t & -> & Hc0 & Hcs & Ht).
  rewrite <- volume_time_first in Hmax |- *.
  destruct (local_site_lex_crtesn (dt :: d0 :: ds) (t :: c0 :: cs))
    as (i & Hls & Hi & Hc); [constructor; [done|by constructor]|done|].
  exists i. simpl. unfold crtesn_tfast, local_site_tfast.
  rewrite !time_first_snoc, Hc. simpl. by rewrite time_last_cons.
Qed.

(** ** Ranges of the two codec functions *)

(** X1.  On a lattice that meets the constraints of the layout, the
    coordinate [siteCoords] returns for a site below [vol] lies within
    the extents. *)
Theorem siteCoords_within_extents (Nd : nat) (junk : Z) (k : LayoutKind)
    (L : LocalLayout_t) (i : Z) :
  (min_dimensions k ≤ Nd)%nat →
  length (nrow L) = Nd →
  Forall (λ d, 0 < d) (nrow L) →
  vol L = volume (nrow L) →
  vol L ≤ INT_MAX →
  divisibility k (nrow L) →
  0 ≤ i < vol L →
  ∃ c, siteCoords Nd junk k L 0 i = Some c
       ∧ length c = Nd
       ∧ ∀ (m : nat) x d, c !! m = Some x → nrow L !! m = Some d → 0 ≤ x < d.
Proof.
  intros HNd Hlen Hpos Hvol Hint Hdiv Hi.
  destruct (index_coord_all Nd junk k L i) as (c & Hc & Hv & _); try done.
  exists c. split; [done|]. split.
  - apply Forall2_length in Hv. lia.
  - intros m x d Hx Hd. by eapply (Forall2_lookup_lr _ _ _ m x d) in Hv.
Qed.

(** X2.  On such a lattice the index [linearSiteIndex] returns for a
    coordinate within the extents lies in [[0, vol)], and different
    coordinates have different indices. *)
Theorem linearSiteIndex_within_vol (Nd : nat) (junk : Z) (k : LayoutKind)
    (L : LocalLayout_t) (c : multi1d) :
  (min_dimensions k ≤ Nd)%nat →
  length (nrow L) = Nd →
  Forall (λ d, 0 < d) (nrow L) →
  vol L = volume (nrow L) →
  vol L ≤ INT_MAX →
  divisibility k (nrow L) →
  valid_coord (nrow L) c →
  ∃ i, linearSiteIndex Nd junk k L c = Some i ∧ 0 ≤ i < vol L
       ∧ ∀ c', valid_coord (nrow L) c' →
           linearSiteIndex Nd junk k L c' = Some i → c' = c.
Proof.
  intros HNd Hlen Hpos Hvol Hint Hdiv Hc.
  destruct (coord_index_all Nd junk k L c) as (i & Hi & Hr & Hsc); try done.
  exists i. split; [done|]. split; [done|].
  intros c' Hc' Hi'.
  destruct (coord_index_all Nd junk k L c') as (i' & Hi2 & _ & Hsc');
    try done.
  congruence.
Qed.

(** ** The index of a lexicographic site *)

Lemma linearSiteIndex_site_eq (Nd : nat) (junk : Z) (k : LayoutKind)
    (L : LocalLayout_t) (i : Z) :
  (min_dimensions k ≤ Nd)%nat →
  length (nrow L) = Nd →
  Forall (λ d, 0 < d) (nrow L) →
  vol L = volume (nrow L) →
  vol L ≤ INT_MAX →
  divisibility k (nrow L) →
  0 ≤ i < vol L →
  ∃ c j, crtesn k i (nrow L) = Some c ∧ valid_coord (nrow L) c
         ∧ local_site k c (nrow L) = Some i
         ∧ linearSiteIndex Nd junk k L c = Some j
         ∧ linearSiteIndex_site Nd junk k L i = Some j
         ∧ 0 ≤ j < vol L
         ∧ siteCoords Nd junk k L 0 j = Some c.
Proof.
  intros HNd Hlen Hpos Hvol Hint Hdiv Hi.
  destruct (crtesn_local_site k (nrow L) i) as (c & Hc & Hv & Hls);
    [lia|done|lia|lia|].
  destruct (coord_index_all Nd junk k L c) as (j & Hj & Hr & Hsc); try done.
  exists c, j. repeat split; try done; try lia.
  unfold linearSiteIndex_site, lattSize. rewrite Hc. done.
Qed.

(** X3.  In the lexicographic layout the index of a lexicographic site
    is the site itself. *)
Theorem linearSiteIndex_site_lexico (Nd : nat) (junk : Z)
    (L : LocalLayout_t) (i : Z) :
  Forall (λ d, 0 < d) (nrow L) →
  volume (nrow L) ≤ INT_MAX →
  0 ≤ i < volume (nrow L) →
  linearSiteIndex_site Nd junk LEXICO L i = Some i.
Proof.
  intros Hpos Hmax Hi.
  destruct (crtesn_lex_local_site (nrow L) i) as (c & Hc & _ & Hls);
    [done..|].
  unfold linearSiteIndex_site, lattSize. simpl. rewrite Hc. done.
Qed.

(** X4.  In every layout, on a lattice that meets its constraints,
    [linearSiteIndex(lexicosite)] is a permutation of the sites
    [[0, vol)]: it stays within them, takes different sites to different
    indices, and reaches every index. *)
Theorem linearSiteIndex_site_permutation (Nd : nat) (junk : Z)
    (k : LayoutKind) (L : LocalLayout_t) :
  (min_dimensions k ≤ Nd)%nat →
  length (nrow L) = Nd →
  Forall (λ d, 0 < d) (nrow L) →
  vol L = volume (nrow L) →
  vol L ≤ INT_MAX →
  divisibility k (nrow L) →
  (∀ i, 0 ≤ i < vol L →
     ∃ j, linearSiteIndex_site Nd junk k L i = Some j ∧ 0 ≤ j < vol L)
  ∧ (∀ i1 i2 j, 0 ≤ i1 < vol L → 0 ≤ i2 < vol L →
     linearSiteIndex_site Nd junk k L i1 = Some j →
     linearSiteIndex_site Nd junk k L i2 = Some j → i1 = i2)
  ∧ (∀ j, 0 ≤ j < vol L →
     ∃ i, 0 ≤ i < vol L ∧ linearSiteIndex_site Nd junk k L i = Some j).
Proof.
  intros HNd Hlen Hpos Hvol Hint Hdiv. split; [|split].
  - intros i Hi.
    destruct (linearSiteIndex_site_eq Nd junk k L i)
      as (c & j & _ & _ & _ & _ & Hj & Hr & _); try done.
    by exists j.
  - intros i1 i2 j H1 H2 Hj1 Hj2.
    destruct (linearSiteIndex_site_eq Nd junk k L i1)
      as (c1 & j1 & _ & _ & Hl1 & _ & Hs1 & _ & Hsc1); try done.
    destruct (linearSiteIndex_site_eq Nd junk k L i2)
      as (c2 & j2 & _ & _ & Hl2 & _ & Hs2 & _ & Hsc2); try done.
    assert (j1 = j) as -> by congruence.
    assert (j2 = j) as -> by congruence.
    assert (c1 = c2) as -> by congruence. congruence.
  - intros j Hj.
    destruct (index_coord_all Nd junk k L j) as (c & Hc & Hv & Hli);
      try done.
    destruct (local_site_crtesn k (nrow L) c) as (i & _ & Hi & Hcr);
      [lia|done|lia|].
    exists i. split; [lia|].
    unfold linearSiteIndex_site, lattSize. rewrite Hcr. done.
Qed.

(** ** Creation of the layout *)

Lemma create_Done_inv Nd junk k initialized L L2 :
  create Nd junk k initialized L = Done L2 →
  initialized = true ∧ length (nrow L) = Nd
  ∧ ∃ v, int_volume (nrow L) = Some v
         ∧ L2 = mkLayout v (nrow L) v (replicate Nd 0) (replicate Nd 1)
                         (replicate Nd 1).
Proof.
  intros Hc. destruct initialized; [|done]. split; [done|].
  destruct (decide (length (nrow L) = Nd)) as [Hlen|Hlen].
  - split; [done|]. destruct (int_volume (nrow L)) as [v|] eqn:Hv.
    + rewrite (create_unfold Nd junk k L v Hlen Hv) in Hc. cbv zeta in Hc.
      destruct (sanity_check _ _ _ _ _ _); [|done..].
      injection Hc as <-. by exists v.
    + unfold create in Hc. cbn [negb] in Hc.
      rewrite decide_False in Hc by (intros H; by apply H).
      by rewrite create_vol, Hv in Hc.
  - unfold create in Hc. cbn [negb] in Hc.
    by rewrite decide_True in Hc.
Qed.

(** X5.  [create] accepts every lattice that meets the constraints of
    the layout and whose number of sites is an [int]: the sweep finds
    no site at fault, and the layout is left with the geometry of the
    lattice and the I/O grid of ones. *)
Theorem create_accepts_conforming (Nd : nat) (junk : Z) (k : LayoutKind)
    (L : LocalLayout_t) :
  (min_dimensions k ≤ Nd)%nat →
  length (nrow L) = Nd →
  Forall (λ d, 0 < d) (nrow L) →
  divisibility k (nrow L) →
  volume (nrow L) ≤ INT_MAX →
  create Nd junk k true L
  = Done (mkLayout (volume (nrow L)) (nrow L) (volume (nrow L))
                   (replicate Nd 0) (replicate Nd 1) (replicate Nd 1)).
Proof.
  intros HNd Hlen Hpos Hdiv Hmax.
  rewrite (create_unfold Nd junk k L (volume (nrow L)) Hlen)
    by (by apply int_volume_pos).
  cbv zeta.
  set (L1 := mkLayout (volume (nrow L)) (nrow L) (volume (nrow L))
                      (replicate Nd 0) (replicate Nd 1) (iogrid L)).
  destruct (sanity_check_Done Nd junk k L1 (Z.to_nat (vol L1)) 0) as [_ HD].
  rewrite HD; [done|]. intros i Hi.
  destruct (index_coord_all Nd junk k L1 i) as (c & Hc & _ & Hli);
    [done..|simpl in *; lia|].
  unfold nodeNumber. by rewrite Hc.
Qed.

Lemma siteCoords_ext Nd junk k A B node i :
  vol A = vol B → nrow A = nrow B →
  siteCoords Nd junk k A node i = siteCoords Nd junk k B node i.
Proof.
  intros Hv Hn. destruct A, B. cbn [vol nrow] in Hv, Hn. subst.
  by destruct k.
Qed.

Lemma linearSiteIndex_ext Nd junk k A B c :
  vol A = vol B → nrow A = nrow B →
  linearSiteIndex Nd junk k A c = linearSiteIndex Nd junk k B c.
Proof.
  intros Hv Hn. destruct A, B. cbn [vol nrow] in Hv, Hn. subst.
  by destruct k.
Qed.

Lemma sanity_check_ext Nd junk k A B n i :
  vol A = vol B → nrow A = nrow B →
  sanity_check Nd junk k A n i = sanity_check Nd junk k B n i.
Proof.
  intros Hv Hn. revert i. induction n as [|n IH]; intros i; [done|].
  cbn [sanity_check]. rewrite (siteCoords_ext Nd junk k A B) by done.
  destruct (siteCoords Nd junk k B nodeNumber i) as [c|]; [|done].
  step. rewrite (linearSiteIndex_ext Nd junk k A B) by done.
  destruct (linearSiteIndex Nd junk k B c) as [j|]; [|done].
  destruct (decide (i ≠ j)); [done|]. apply IH.
Qed.

Lemma create_ext Nd junk k initialized L L' :
  nrow L' = nrow L →
  create Nd junk k initialized L' = create Nd junk k initialized L.
Proof.
  intros Hn. unfold create. rewrite Hn.
  destruct (negb initialized); [done|].
  destruct (decide _); [done|].
  destruct (for_range _ _ _ _) as [v|]; [|done]. cbv zeta.
  rewrite (sanity_check_ext Nd junk k
             (mkLayout v (nrow L) v (replicate Nd 0) (replicate Nd 1)
                       (iogrid L'))
             (mkLayout v (nrow L) v (replicate Nd 0) (replicate Nd 1)
                       (iogrid L))) by done.
  destruct (sanity_check _ _ _ _ _ _); [|done..].
  unfold initDefaults. by rewrite !setIONodeGridDefaults_eq.
Qed.

(** X6.  The outcome of [create] depends on the lattice size alone,
    not on what the layout held before; in particular [create] on the
    layout a completed [create] has left gives that layout again. *)
Theorem create_depends_on_lattSize (Nd : nat) (junk : Z) (k : LayoutKind)
    (initialized : bool) (L : LocalLayout_t) :
  (∀ L', lattSize L' = lattSize L →
     create Nd junk k initialized L' = create Nd junk k initialized L)
  ∧ (∀ L2, create Nd junk k initialized L = Done L2 →
     create Nd junk k initialized L2 = Done L2).
Proof.
  split.
  - intros L' Hn. by apply create_ext.
  - intros L2 Hc. rewrite <- Hc. apply create_ext.
    apply create_Done_inv in Hc as (_ & _ & v & _ & ->). done.
Qed.

Lemma siteCoords_no_sublattice Nd junk k L node i :
  0 < vol L < sublattices Nd k →
  siteCoords Nd junk k L node i = None.
Proof.
  intros Hv. destruct k; simpl in Hv; simpl.
  - lia.
  - unfold siteCoords_cb2. rewrite int_shr_Some by lia. step.
    replace (Z.shiftr (vol L) 1) with 0 by (rewrite shiftr_1; zdiv).
    destruct (lattSize L !! 0%nat) as [n0|]; [|done]. step.
    destruct (int_shr n0 1) as [h0|]; [|done]. step.
    destruct (store _ _ _) as [cb_nrow|]; [|done]. step.
    by rewrite int_div_0.
  - unfold siteCoords_cb3d. rewrite int_div_nz by lia. step.
    replace (Z.quot (vol L) 2) with 0
      by (rewrite Z.quot_div_nonneg by lia; zdiv).
    destruct (lattSize L !! 0%nat) as [n0|]; [|done]. step.
    destruct (int_div n0 2) as [h0|]; [|done]. step.
    destruct (store _ _ _) as [cb_nrow|]; [|done]. step.
    by rewrite int_div_0.
  - unfold siteCoords_cb32.
    destruct (int_shr (vol L) (Z.of_nat Nd + 1)) as [vol_cb|] eqn:Hs;
      [|done].
    apply int_shr_inv in Hs as [-> _]. step.
    rewrite Z.shiftr_div_pow2, Z.div_small by lia.
    destruct (cb32_nrow Nd junk L) as [cb_nrow|]; [|done]. step.
    by rewrite int_div_0.
Qed.

(** X7.  A lattice with fewer sites than the layout has sublattices (a
    single site for the checkerboards of two colours, fewer than
    [2^(Nd+1)] for the 32 checkerboard) makes the sublattice volume
    zero, and the sweep of [create] divides by it at site 0. *)
Theorem create_too_small_for_checkerboard (Nd : nat) (junk : Z)
    (k : LayoutKind) (L : LocalLayout_t) (v : Z) :
  length (nrow L) = Nd →
  int_volume (nrow L) = Some v →
  0 < v < sublattices Nd k →
  create Nd junk k true L = Undefined.
Proof.
  intros Hlen Hv Hsmall.
  rewrite (create_unfold Nd junk k L v Hlen Hv). cbv zeta. cbn [vol].
  destruct (Z.to_nat v) as [|n] eqn:Hn; [lia|].
  cbn [sanity_check]. by rewrite siteCoords_no_sublattice.
Qed.

(** X8.  [create] does not look at the extents themselves: when their
    product is zero or negative the sweep has no site to check, and
    [create] completes with that product as the volume. *)
Theorem create_without_sites (Nd : nat) (junk : Z) (k : LayoutKind)
    (L : LocalLayout_t) (v : Z) :
  length (nrow L) = Nd →
  int_volume (nrow L) = Some v →
  v ≤ 0 →
  create Nd junk k true L
  = Done (mkLayout v (nrow L) v (replicate Nd 0) (replicate Nd 1)
                   (replicate Nd 1)).
Proof.
  intros Hlen Hv Hneg.
  rewrite (create_unfold Nd junk k L v Hlen Hv). cbv zeta. cbn [vol].
  by replace (Z.to_nat v) with O by lia.
Qed.

Lemma volume_ones n : volume (replicate n 1) = 1.
Proof.
  induction n as [|n IH]; [done|]. simpl replicate.
  rewrite volume_cons, IH. done.
Qed.

(** X9.  After a completed [create] the answers about the machine are
    those of a single node that holds the whole lattice: the sites on
    the node are all the sites, the subgrid is the lattice, the one
    node is the product of the logical size and sits at the coordinate
    of node 0, and the one I/O node is the product of the I/O grid. *)
Theorem create_single_node (Nd : nat) (junk : Z) (k : LayoutKind)
    (initialized : bool) (L L2 : LocalLayout_t) :
  create Nd junk k initialized L = Done L2 →
  sitesOnNode L2 * numNodes = vol L2
  ∧ subgridLattSize L2 = lattSize L2
  ∧ numNodes = volume (logicalSize L2)
  ∧ nodeCoord L2 = getLogicalCoordFrom Nd junk nodeNumber
  ∧ getNodeNumberFrom (nodeCoord L2) = nodeNumber
  ∧ (∀ c, nodeNumber_coord c = nodeNumber)
  ∧ numIONodeGrid = volume (getIONodeGrid L2).
Proof.
  intros Hc. apply create_Done_inv in Hc as (_ & _ & v & _ & ->).
  unfold sitesOnNode, numNodes, logicalSize, nodeCoord, getLogicalCoordFrom,
    getIONodeGrid, numIONodeGrid, fresh.
  cbn [subgrid_vol vol logical_size logical_coord iogrid].
  rewrite !volume_ones, fmap_replicate.
  repeat split; [lia|done..].
Qed.

(** ** Where the sites of a sublattice lie *)

(** X10.  In the 2 checkerboard layout the sites [[0, vol/2)] are the
    sites of even component sum and the sites [[vol/2, vol)] those of
    odd component sum. *)
Theorem cb2_site_parity (Nd : nat) (junk : Z) (L : LocalLayout_t) (i : Z) :
  (1 ≤ Nd)%nat →
  length (nrow L) = Nd →
  Forall (λ d, 0 < d) (nrow L) →
  vol L = volume (nrow L) →
  vol L ≤ INT_MAX →
  divisibility CB2 (nrow L) →
  0 ≤ i < vol L →
  ∃ c, siteCoords Nd junk CB2 L 0 i = Some c
       ∧ (i < vol L / 2 ↔ sumZ c mod 2 = 0).
Proof.
  intros HNd Hlen Hpos Hvol Hint Hdiv Hi. simpl in *.
  destruct (nrow L) as [|d0 ds] eqn:Hnrow; [simpl in Hlen; lia|].
  inversion Hpos; subst. inversion Hdiv; subst.
  destruct (cb2_index_coord L d0 ds Hnrow) with (i := i)
    as (c & Hc & Hv & Hli); try done.
  destruct (cb2_coord_index L d0 ds Hnrow) with (c := c)
    as (i' & Hi' & _ & Hblock & _); try done.
  assert (i' = i) as -> by congruence.
  exists c. split; [done|]. by rewrite <- shiftr_1.
Qed.

(** X11.  In the 32 checkerboard layout site [i] lies in the sublattice
    [i / vol_cb], and the bits of that number are the low bits of the
    components of its coordinate: bit [m] is the low bit of component
    [m]. *)
Theorem cb32_site_low_bits (Nd : nat) (junk : Z) (L : LocalLayout_t)
    (i : Z) :
  (1 ≤ Nd)%nat →
  length (nrow L) = Nd →
  Forall (λ d, 0 < d) (nrow L) →
  vol L = volume (nrow L) →
  vol L ≤ INT_MAX →
  divisibility CB32 (nrow L) →
  0 ≤ i < vol L →
  ∃ c, siteCoords Nd junk CB32 L 0 i = Some c
       ∧ ∀ (m : nat) x, c !! m = Some x →
           Z.land x 1
           = Z.b2z (Z.testbit (i / (vol L / 2 ^ (Z.of_nat Nd + 1)))
                              (Z.of_nat m)).
Proof.
  intros HNd Hlen Hpos Hvol Hint Hdiv Hi. simpl.
  destruct (nrow L) as [|d0 ds] eqn:Hnrow; [simpl in Hlen; lia|].
  inversion Hpos as [|? ? Hd0 Hds]; subst. destruct Hdiv as [Hd4 Hev].
  assert (Forall (λ d, 0 < d ∧ d mod 2 = 0) ds) as Hds'
    by (apply Forall_and; split; done).
  destruct (cb32_vol_cb L d0 ds) as (Hcb & HV & Hv2 & Hpos' & HNd' & _);
    [done..|].
  set (V := volume (Z.shiftr d0 2 :: (half <$> ds))) in *.
  assert (0 ≤ i mod V < V) as Hrb by (apply Z.mod_pos_bound; lia).
  destruct (crtesn_lex_local_site _ _ Hpos' Hrb ltac:(fold V; nia))
    as (q & Hc & Hval & _).
  inversion Hval as [|q0 h qs hs Hq0 Hqs]; subst q h hs.
  assert (length qs = length ds) as Hlq
    by (apply Forall2_length in Hqs; by rewrite length_fmap in Hqs).
  pose proof (cb32_siteCoords_eq junk L d0 ds Hnrow Hvol Hint Hd0 Hd4 Hds'
                i q0 qs Hi Hc Hval) as Hsc.
  cbv zeta in Hsc. fold V in Hsc. simpl length.
  rewrite <- Z.shiftr_div_pow2, Hcb by lia. fold V.
  set (subl := Z.lxor (i / V)
                 (Z.shiftl (low (sumZ qs)) (Z.of_nat (S (length ds))))) in *.
  assert (∀ m : nat, (m < S (length ds))%nat →
            Z.testbit subl (Z.of_nat m) = Z.testbit (i / V) (Z.of_nat m))
    as Hbit.
  { intros m Hm. unfold subl.
    rewrite Z.lxor_spec, Z.shiftl_spec_low by lia. apply xorb_false_r. }
  set (B := λ m : nat, Z.b2z (Z.testbit subl (Z.of_nat m))) in *.
  assert (∀ m, 0 ≤ B m < 2) as HB
    by (intros m; unfold B; destruct (Z.testbit _ _); simpl; lia).
  assert (∀ m : nat, (m < S (length ds))%nat →
            Z.b2z (Z.testbit (i / V) (Z.of_nat m)) = B m) as HB'
    by (intros m Hm; unfold B; by rewrite Hbit).
  clearbody B.
  eexists. split; [exact Hsc|]. intros m x Hx. rewrite land_1.
  rewrite HB' by (apply lookup_lt_Some in Hx; simpl in Hx;
                  rewrite length_imap in Hx; lia).
  destruct m as [|m]; simpl in Hx.
  - injection Hx as <-.
    pose proof (HB O). pose proof (HB (S (length ds))). zdiv.
  - rewrite list_lookup_imap in Hx.
    destruct (qs !! m) as [y|] eqn:Hy; [|done]. injection Hx as <-.
    pose proof (HB (S m)). zdiv.
Qed.

(** * Further properties of the map object *)

Lemma insert_object {K V : Type} (bin_str : K → string) key (val : V) o :
  (MapObjectMemory.insert bin_str key val o).2
  = MapObjectMemory.mk (<[bin_str key := val]> (MapObjectMemory.src_map o))
                       (MapObjectMemory.user_data o).
Proof.
  unfold MapObjectMemory.insert.
  destruct (MapObjectMemory.src_map o !! bin_str key) eqn:Hk; simpl; [|done].
  f_equal. apply alter_const_insert. by rewrite Hk.
Qed.

Lemma erase_object {K V : Type} (bin_str : K → string) key
    (o : @MapObjectMemory.t V) :
  (MapObjectMemory.erase bin_str key o).2
  = MapObjectMemory.mk (delete (bin_str key) (MapObjectMemory.src_map o))
                       (MapObjectMemory.user_data o).
Proof.
  unfold MapObjectMemory.erase.
  destruct (MapObjectMemory.src_map o !! bin_str key) eqn:Hk; simpl; [done|].
  destruct o as [m u]. simpl in *. f_equal. symmetry. by apply delete_id.
Qed.

(** X12.  [erase] of a key that has an entry removes that entry and no
    other: afterwards [exist] is false and [get] returns 1 for the key,
    there is one entry less, [get] answers for every key of another
    binary form as before, and the user data are as before. *)
Theorem map_erase_present {K V : Type} (bin_str : K → string)
    (key : K) (val : V) (o : MapObjectMemory.t) :
  is_Some (MapObjectMemory.src_map o !! bin_str key) →
  let o' := (MapObjectMemory.erase bin_str key o).2 in
  (MapObjectMemory.exist bin_str key o').1 = false
  ∧ MapObjectMemory.get bin_str key val o' = (1, val, o')
  ∧ S (base.size (MapObjectMemory.src_map o'))
    = base.size (MapObjectMemory.src_map o)
  ∧ (∀ key', bin_str key' ≠ bin_str key →
       (MapObjectMemory.get bin_str key' val o').1
       = (MapObjectMemory.get bin_str key' val o).1)
  ∧ MapObjectMemory.user_data o' = MapObjectMemory.user_data o.
Proof.
  intros [w Hw] o'. unfold o'. rewrite erase_object.
  unfold MapObjectMemory.exist, MapObjectMemory.get. simpl.
  rewrite lookup_delete_eq. repeat split.
  - pose proof (map_size_delete (bin_str key) (MapObjectMemory.src_map o)).
    rewrite Hw in *. assert (base.size (MapObjectMemory.src_map o) ≠ 0%nat).
    { intros H0%map_size_empty_inv. by rewrite H0 in Hw. }
    lia.
  - intros key' Hne. rewrite lookup_delete_ne by done.
    by destruct (MapObjectMemory.src_map o !! bin_str key').
Qed.

(** X13.  [insert] and [erase] undo each other: erasing a key just
    inserted gives back an object that did not have it, and inserting
    the stored value again after an [erase] gives back the object that
    had it. *)
Theorem map_insert_erase_roundtrip {K V : Type} (bin_str : K → string)
    (key : K) (val : V) (o : MapObjectMemory.t) :
  (MapObjectMemory.src_map o !! bin_str key = None →
     (MapObjectMemory.erase bin_str key
        (MapObjectMemory.insert bin_str key val o).2).2 = o)
  ∧ (MapObjectMemory.src_map o !! bin_str key = Some val →
     (MapObjectMemory.insert bin_str key val
        (MapObjectMemory.erase bin_str key o).2).2 = o).
Proof.
  destruct o as [m u]. simpl. split; intros Hk.
  - rewrite erase_object, insert_object. simpl.
    by rewrite delete_insert_id.
  - rewrite insert_object, erase_object. simpl.
    by rewrite insert_delete_id.
Qed.

(** X14.  Keys are told apart by their binary form: a second [insert]
    under the same binary form overrides the first, and two [insert]s
    under different binary forms give the same object in either
    order. *)
Theorem map_insert_compose {K V : Type} (bin_str : K → string)
    (k1 k2 : K) (v1 v2 : V) (o : MapObjectMemory.t) :
  (bin_str k1 = bin_str k2 →
     (MapObjectMemory.insert bin_str k2 v2
        (MapObjectMemory.insert bin_str k1 v1 o).2).2
     = (MapObjectMemory.insert bin_str k2 v2 o).2)
  ∧ (bin_str k1 ≠ bin_str k2 →
     (MapObjectMemory.insert bin_str k2 v2
        (MapObjectMemory.insert bin_str k1 v1 o).2).2
     = (MapObjectMemory.insert bin_str k1 v1
          (MapObjectMemory.insert bin_str k2 v2 o).2).2).
Proof.
  rewrite !insert_object. simpl. split; intros Hk.
  - by rewrite Hk, insert_insert_eq.
  - f_equal. by apply insert_insert_ne.
Qed.

(** ** The keys and values handed out *)

Lemma foldl_push_back {A B : Type} (f : A → B) (l : list A) (acc : list B) :
  foldl (λ acc e, acc ++ [f e]) acc l = acc ++ (f <$> l).
Proof.
  revert acc. induction l as [|x l IH]; intros acc; simpl.
  - by rewrite app_nil_r.
  - rewrite IH, <- app_assoc. done.
Qed.

Lemma foldl_push_back2 {A B C : Type} (f : A → B) (g : A → C) (l : list A)
    (acc : list B * list C) :
  foldl (λ (kv : list B * list C) e, (kv.1 ++ [f e], kv.2 ++ [g e])) acc l
  = (acc.1 ++ (f <$> l), acc.2 ++ (g <$> l)).
Proof.
  revert acc. induction l as [|x l IH]; intros [a b]; simpl.
  - by rewrite !app_nil_r.
  - rewrite IH. simpl. by rewrite <- !app_assoc.
Qed.

Lemma zip_fmap_same {A B C : Type} (f : A → B) (g : A → C) (l : list A) :
  zip (f <$> l) (g <$> l) = (λ x, (f x, g x)) <$> l.
Proof.
  induction l as [|x l IH]; [done|]. rewrite !fmap_cons. simpl. by f_equal.
Qed.

Lemma keys_eq {K V : Type} (read_key : string → K) _keys
    (o : @MapObjectMemory.t V) :
  (MapObjectMemory.keys read_key _keys o).1
  = (read_key ∘ fst) <$> map_to_list (MapObjectMemory.src_map o).
Proof.
  unfold MapObjectMemory.keys. cbn [fst]. rewrite take_0.
  by rewrite (foldl_push_back (λ e : string * V, read_key e.1)).
Qed.

Lemma keysAndValues_eq {K V : Type} (read_key : string → K) _keys _vals
    (o : @MapObjectMemory.t V) :
  (MapObjectMemory.keysAndValues read_key _keys _vals o).1
  = ((read_key ∘ fst) <$> map_to_list (MapObjectMemory.src_map o),
     snd <$> map_to_list (MapObjectMemory.src_map o)).
Proof.
  unfold MapObjectMemory.keysAndValues. cbn [fst]. rewrite !take_0.
  by rewrite (foldl_push_back2 (λ e : string * V, read_key e.1)
                (λ e : string * V, e.2)).
Qed.

(** Every binary key in the map is the binary form of a key. *)
Lemma do_calls_written {K V : Type} (bin_str : K → string)
    (cs : list (call K V)) (o : MapObjectMemory.t) :
  (∀ s, is_Some (MapObjectMemory.src_map o !! s) → ∃ k, s = bin_str k) →
  ∀ s, is_Some (MapObjectMemory.src_map (do_calls bin_str cs o) !! s) →
       ∃ k, s = bin_str k.
Proof.
  revert o. induction cs as [|c cs IH]; intros o Ho; [done|].
  unfold do_calls. simpl. apply IH. intros s.
  destruct c as [key val|key| | |u|key val|key]; simpl.
  - rewrite insert_object. simpl.
    destruct (decide (bin_str key = s)) as [<-|Hne].
    + intros _. by exists key.
    + rewrite lookup_insert_ne by done. apply Ho.
  - rewrite erase_object. simpl.
    destruct (decide (bin_str key = s)) as [<-|Hne].
    + intros _. by exists key.
    + rewrite lookup_delete_ne by done. apply Ho.
  - rewrite lookup_empty. by intros [? ?].
  - apply Ho.
  - apply Ho.
  - unfold MapObjectMemory.get.
    destruct (MapObjectMemory.src_map o !! bin_str key); apply Ho.
  - unfold MapObjectMemory.exist.
    destruct (MapObjectMemory.src_map o !! bin_str key); apply Ho.
Qed.

(** X15.  On an object built from the default one by calls of its
    members, and for a key type whose reader gives back what its writer
    wrote, [keys] hands out exactly the keys for which [exist] is true,
    each of them once, whatever the vector held before; their number is
    what [size] reports. *)
Theorem map_keys_exist {K V : Type} (bin_str : K → string)
    (read_key : string → K) (cs : list (call K V)) (_keys : list K) :
  (∀ k, read_key (bin_str k) = k) →
  let o := do_calls bin_str cs MapObjectMemory.default in
  let ks := (MapObjectMemory.keys read_key _keys o).1 in
  (∀ k, k ∈ ks ↔ (MapObjectMemory.exist bin_str k o).1 = true)
  ∧ NoDup ks
  ∧ Z.of_nat (length ks) mod 2 ^ 32 = (MapObjectMemory.size o).1
  ∧ (MapObjectMemory.keys read_key _keys o).2 = o.
Proof.
  intros Hread o ks.
  assert (∀ s, is_Some (MapObjectMemory.src_map o !! s) → ∃ k, s = bin_str k)
    as Hw.
  { apply do_calls_written. intros s. simpl. rewrite lookup_empty.
    by intros [? ?]. }
  unfold ks. rewrite keys_eq. split; [|split; [|split; [|done]]].
  - intros k. unfold MapObjectMemory.exist. split.
    + intros ([s v] & -> & Hin%elem_of_map_to_list)%list_elem_of_fmap.
      simpl. destruct (Hw s) as [k' ->]; [by eexists|].
      rewrite Hread. by rewrite Hin.
    + destruct (MapObjectMemory.src_map o !! bin_str k) as [v|] eqn:Hk;
        [intros _|done].
      apply list_elem_of_fmap. exists (bin_str k, v). simpl.
      split; [by rewrite Hread|by apply elem_of_map_to_list].
  - rewrite list_fmap_compose. apply NoDup_fmap_2_strong.
    + intros ? ? ([s1 v1] & -> & H1%elem_of_map_to_list)%list_elem_of_fmap
        ([s2 v2] & -> & H2%elem_of_map_to_list)%list_elem_of_fmap Heq.
      simpl in *.
      destruct (Hw s1) as [k1 ->]; [by eexists|].
      destruct (Hw s2) as [k2 ->]; [by eexists|].
      rewrite !Hread in Heq. by subst.
    + apply NoDup_fst_map_to_list.
  - unfold MapObjectMemory.size. simpl.
    by rewrite length_fmap, length_map_to_list.
Qed.

(** X16.  On such an object [keysAndValues] hands out the keys that
    [keys] hands out and, at the same positions, the values [get]
    returns for them; a pair of a key and a value is handed out exactly
    when [get] returns 0 and that value for the key. *)
Theorem map_keysAndValues_get {K V : Type} (bin_str : K → string)
    (read_key : string → K) (cs : list (call K V)) (_keys : list K)
    (_vals : list V) (val : V) :
  (∀ k, read_key (bin_str k) = k) →
  let o := do_calls bin_str cs MapObjectMemory.default in
  let r := MapObjectMemory.keysAndValues read_key _keys _vals o in
  let ks := r.1.1 in
  let vs := r.1.2 in
  ks = (MapObjectMemory.keys read_key _keys o).1
  ∧ length vs = length ks
  ∧ (∀ k v, (k, v) ∈ zip ks vs ↔ MapObjectMemory.get bin_str k val o = (0, v, o))
  ∧ r.2 = o.
Proof.
  intros Hread o r ks vs.
  assert (∀ s, is_Some (MapObjectMemory.src_map o !! s) → ∃ k, s = bin_str k)
    as Hw.
  { apply do_calls_written. intros s. simpl. rewrite lookup_empty.
    by intros [? ?]. }
  unfold ks, vs, r. rewrite keysAndValues_eq, keys_eq. cbn [fst snd].
  split; [done|]. split; [by rewrite !length_fmap|]. split; [|done].
  intros k v. rewrite zip_fmap_same.
  unfold MapObjectMemory.get. split.
  - intros ([s v'] & [= -> ->] & Hin%elem_of_map_to_list)%list_elem_of_fmap.
    simpl. destruct (Hw s) as [k' ->]; [by eexists|].
    rewrite Hread. by rewrite Hin.
  - destruct (MapObjectMemory.src_map o !! bin_str k) as [v'|] eqn:Hk;
      [|done].
    intros [= ->]. apply list_elem_of_fmap. exists (bin_str k, v). simpl.
    split; [by rewrite Hread|by apply elem_of_map_to_list].
Qed.

(** ** Lookup by [operator[]], the user data, [clear] *)

(** X17.  [operator[]] finds what [get] finds: it returns the value
    exactly when [get] returns 0 and that value, and ends the program
    with the message "MapObject: key not found" when [exist] is false;
    it returns [val] after [insert] of [val] under the key, and ends
    the program after [erase] of the key. *)
Theorem map_operator_index_get {K V : Type} (bin_str : K → string)
    (key : K) (val : V) (o : MapObjectMemory.t) :
  (∀ v, MapObjectMemory.operator_index bin_str key o = MapObjectMemory.Found v
        ↔ MapObjectMemory.get bin_str key val o = (0, v, o))
  ∧ (MapObjectMemory.operator_index bin_str key o
       = MapObjectMemory.Exit1 "MapObject: key not found"
     ↔ (MapObjectMemory.exist bin_str key o).1 = false)
  ∧ MapObjectMemory.operator_index bin_str key
      (MapObjectMemory.insert bin_str key val o).2
    = MapObjectMemory.Found val
  ∧ MapObjectMemory.operator_index bin_str key
      (MapObjectMemory.erase bin_str key o).2
    = MapObjectMemory.Exit1 "MapObject: key not found".
Proof.
  rewrite insert_object, erase_object.
  unfold MapObjectMemory.operator_index, MapObjectMemory.get,
    MapObjectMemory.exist. simpl.
  rewrite lookup_insert_eq, lookup_delete_eq.
  destruct (MapObjectMemory.src_map o !! bin_str key) as [w|];
    (split; [|split; [|done]]).
  - intros v. split; by intros [= ->].
  - done.
  - intros v. split; by intros [= ->].
  - done.
Qed.

Lemma do_calls_user_data {K V : Type} (bin_str : K → string)
    (cs : list (call K V)) (o : MapObjectMemory.t) :
  Forall (λ c, ∀ s, c ≠ CInsertUserdata s) cs →
  MapObjectMemory.user_data (do_calls bin_str cs o)
  = MapObjectMemory.user_data o.
Proof.
  intros Hcs. revert o. induction Hcs as [|c cs Hc _ IH]; intros o; [done|].
  unfold do_calls. simpl. fold (do_calls bin_str cs (do_call bin_str c o)).
  rewrite IH.
  destruct c as [key val|key| | |u|key val|key]; simpl.
  - by rewrite insert_object.
  - by rewrite erase_object.
  - done.
  - done.
  - by destruct (Hc u).
  - unfold MapObjectMemory.get. by destruct (_ !! _).
  - unfold MapObjectMemory.exist. by destruct (_ !! _).
Qed.

(** X18.  The user data and the entries do not touch each other: what
    [insertUserdata] has stored is what [getUserdata] returns after any
    sequence of [insert], [erase], [clear], [flush], [get] and [exist],
    and [insertUserdata] leaves the answers of [get] as they were. *)
Theorem map_user_data_kept {K V : Type} (bin_str : K → string)
    (user_data_ : string) (cs : list (call K V)) (key : K) (val : V)
    (o : MapObjectMemory.t) :
  Forall (λ c, ∀ s, c ≠ CInsertUserdata s) cs →
  let o1 := (MapObjectMemory.insertUserdata user_data_ o).2 in
  MapObjectMemory.getUserdata (do_calls bin_str cs o1)
  = (0, user_data_, do_calls bin_str cs o1)
  ∧ (MapObjectMemory.get bin_str key val o1).1
    = (MapObjectMemory.get bin_str key val o).1.
Proof.
  intros Hcs o1. split.
  - unfold MapObjectMemory.getUserdata.
    by rewrite do_calls_user_data.
  - unfold MapObjectMemory.get. simpl.
    by destruct (MapObjectMemory.src_map o !! bin_str key).
Qed.

(** X19.  [clear] removes every entry and keeps the user data:
    afterwards [size] is 0, [exist] is false and [get] returns 1 for
    every key, and [keys] empties the vector it is given. *)
Theorem map_clear_empties {K V : Type} (bin_str : K → string)
    (read_key : string → K) (key : K) (val : V) (_keys : list K)
    (o : MapObjectMemory.t) :
  let o' := (MapObjectMemory.clear o).2 in
  (MapObjectMemory.size o').1 = 0
  ∧ (MapObjectMemory.exist bin_str key o').1 = false
  ∧ MapObjectMemory.get bin_str key val o' = (1, val, o')
  ∧ (MapObjectMemory.keys read_key _keys o').1 = []
  ∧ MapObjectMemory.user_data o' = MapObjectMemory.user_data o.
Proof.
  intros o'. rewrite keys_eq.
  unfold MapObjectMemory.size, MapObjectMemory.exist, MapObjectMemory.get.
  simpl. rewrite lookup_empty, map_size_empty, map_to_list_empty. done.
Qed.

(** * Binary output of [multi1d] *)

Lemma for_up_write {W T : Type} (write_elem : T → W → W) (d : list T)
    n m (bin : W) :
  (m + n ≤ length d)%nat →
  for_up n m (λ i bin, x ← d !! i; Some (write_elem x bin)) bin
  = Some (foldl (λ bin x, write_elem x bin) bin (take n (drop m d))).
Proof.
  revert m bin. induction n as [|n IH]; intros m bin Hlen; simpl.
  - done.
  - destruct (lookup_lt_is_Some_2 d m) as [x Hx]; [lia|].
    rewrite Hx. simpl. rewrite IH by lia.
    by rewrite (drop_S d x m Hx).
Qed.

Lemma for_up_write_beyond {W T : Type} (write_elem : T → W → W) (d : list T)
    n m (bin : W) :
  (length d < m + n)%nat → (m ≤ length d)%nat →
  for_up n m (λ i bin, x ← d !! i; Some (write_elem x bin)) bin = None.
Proof.
  revert m bin. induction n as [|n IH]; intros m bin Hlen Hm; [lia|].
  simpl. destruct (d !! m) as [x|] eqn:Hx; [|done]. simpl.
  apply IH; [lia|]. apply lookup_lt_Some in Hx. lia.
Qed.

(** X20.  [write(bin, d, num)] writes the first [num] elements of [d]
    in order, and nothing when [num] is zero or negative; with [num]
    beyond the size of [d] it reads past the end of [d]. *)
Theorem write_multi1d_num_bounds {W T : Type} (write_elem : T → W → W)
    (d : list T) (num : Z) (bin : W) :
  (num ≤ Z.of_nat (length d) →
     write_multi1d_num write_elem d num bin
     = Some (foldl (λ bin x, write_elem x bin) bin (take (Z.to_nat num) d)))
  ∧ (num ≤ 0 → write_multi1d_num write_elem d num bin = Some bin)
  ∧ (Z.of_nat (length d) < num →
     write_multi1d_num write_elem d num bin = None).
Proof.
  unfold write_multi1d_num, for_range. rewrite Nat.sub_0_r.
  split; [|split].
  - intros Hn. rewrite for_up_write by lia. by rewrite drop_0.
  - intros Hn. by replace (Z.to_nat num) with O by lia.
  - intros Hn. apply for_up_write_beyond; lia.
Qed.

Lemma write_multi1d_eq {W T : Type} (write_int : Z → W → W)
    (write_elem : T → W → W) (d : list T) (bin : W) :
  write_multi1d write_int write_elem d bin
  = Some (foldl (λ bin x, write_elem x bin)
                (write_int (Z.of_nat (length d)) bin) d).
Proof.
  unfold write_multi1d, for_range. rewrite for_up_write by lia.
  by rewrite Nat.sub_0_r, drop_0, firstn_all.
Qed.

(** X21.  [write(bin, d)] never reads past the end of [d]: it writes
    the size and then every element in order, which is the write of the
    size followed by [write(bin, d, d.size())]. *)
Theorem write_multi1d_counted {W T : Type} (write_int : Z → W → W)
    (write_elem : T → W → W) (d : list T) (bin : W) :
  write_multi1d write_int write_elem d bin
  = Some (foldl (λ bin x, write_elem x bin)
                (write_int (Z.of_nat (length d)) bin) d)
  ∧ write_multi1d write_int write_elem d bin
    = write_multi1d_num write_elem d (Z.of_nat (length d))
        (write_int (Z.of_nat (length d)) bin).
Proof.
  split; [apply write_multi1d_eq|].
  unfold write_multi1d, write_multi1d_num. by rewrite Nat2Z.id.
Qed.

(** X22.  On a writer that records the numbers written, the record of
    an array of [int] tells where the array ends: when the records of
    two arrays, each followed by further numbers, are the same, the
    arrays are the same and so is what follows them. *)
Theorem write_multi1d_self_delimiting
    (d1 d2 log out1 out2 rest1 rest2 : list Z) :
  let record :=
    write_multi1d (λ z log, log ++ [z]) (λ x log, log ++ [x]) in
  record d1 log = Some out1 →
  record d2 log = Some out2 →
  out1 ++ rest1 = out2 ++ rest2 →
  d1 = d2 ∧ rest1 = rest2.
Proof.
  intros record H1 H2 Heq. unfold record in *.
  rewrite write_multi1d_eq in H1, H2.
  rewrite (foldl_push_back (λ x : Z, x)), list_fmap_id in H1, H2.
  injection H1 as <-. injection H2 as <-.
  rewrite <- !app_assoc in Heq. apply app_inv_head in Heq.
  simpl in Heq. injection Heq as Hlen Heq.
  apply Nat2Z.inj in Hlen. by apply app_inj_1 in Heq.
Qed.

(** * Sites beyond the volume *)

Section CB2_beyond.

Variables (L : LocalLayout_t) (d0 : Z) (ds : multi1d).
Hypothesis Hnrow : nrow L = d0 :: ds.
Hypothesis Hvol : vol L = volume (d0 :: ds).
Hypothesis Hint : vol L ≤ INT_MAX.
Hypothesis Hd0 : 0 < d0.
Hypothesis Heven : d0 mod 2 = 0.
Hypothesis Hds : Forall (λ d, 0 < d) ds.

Let vol_cb := volume (d0 / 2 :: ds).

(** The coordinate of any site that is an [int], given the coordinate
    [q0 :: qs] of its position in the halved grid. *)
Lemma cb2_siteCoords_any i q0 qs :
  0 ≤ i ≤ INT_MAX →
  crtesn_lex (i mod vol_cb) (d0 / 2 :: ds) = Some (q0 :: qs) →
  valid_coord (d0 / 2 :: ds) (q0 :: qs) →
  siteCoords_cb2 L 0 i
  = Some (2 * q0 + (i / vol_cb + sumZ qs) mod 2 :: qs).
Proof.
  intros Hi Hc Hval.
  destruct (cb2_vol_cb L d0 ds)
    as (Hcb & Hcbpos & Hv2 & HP & Hcbv & Hd & Hpos'); [done..|].
  fold vol_cb in Hcb, Hcbpos, Hv2, Hcbv.
  destruct (quot_rem_nonneg i vol_cb) as [Hq Hr]; [lia..|].
  assert (0 ≤ i / vol_cb) as Hq0' by (apply Z.div_pos; lia).
  assert (vol_cb * (i / vol_cb) ≤ i) as Hqv
    by (apply Z.mul_div_le; lia).
  inversion Hval as [|? ? ? ? Hq0 Hqs]; subst.
  destruct (sumZ_valid_coord _ _ Hqs) as (Hnn & Hs0 & Hs).
  assert (i / vol_cb + sumZ qs ≤ INT_MAX) as Hsum.
  { assert (sumZ qs ≤ vol_cb - 1) by nia.
    destruct (decide (i / vol_cb = 0)) as [->|Hne]; [int_range|].
    assert (0 ≤ (i / vol_cb - 1) * (vol_cb - 1)) by nia. nia. }
  unfold siteCoords_cb2, lattSize. rewrite Hnrow.
  rewrite int_shr_Some by lia. step. rewrite Hcb. simpl.
  rewrite int_shr_Some by lia. step.
  rewrite store_lt by (simpl; lia). step.
  rewrite int_div_nz, int_mod_nz by lia. step.
  simpl insert. rewrite shiftr_1, Hq, Hr. simpl crtesn. rewrite Hc. step.
  unfold for_range.
  rewrite for_up_sum_id; simpl length; simpl drop;
    rewrite ?drop_0, ?take_ge by lia; [|lia|done|lia|lia].
  step. simpl. rewrite land_1.
  assert (0 ≤ (i / vol_cb + sumZ qs) mod 2 < 2) as Hp
    by (apply Z.mod_pos_bound; lia).
  rewrite int_mul_Some by int_range. step.
  rewrite int_add_Some by int_range. step.
  rewrite store_lt by (simpl; lia). done.
Qed.

Lemma cb2_siteCoords_wrap i :
  0 ≤ i → i + vol L ≤ INT_MAX →
  ∃ c, siteCoords_cb2 L 0 i = Some c
       ∧ siteCoords_cb2 L 0 (i + vol L) = Some c
       ∧ valid_coord (nrow L) c.
Proof.
  intros Hi Hmax.
  destruct (cb2_vol_cb L d0 ds)
    as (Hcb & Hcbpos & Hv2 & HP & Hcbv & Hd & Hpos'); [done..|].
  fold vol_cb in Hcb, Hcbpos, Hv2, Hcbv.
  assert (0 ≤ i mod vol_cb < vol_cb) as Hrb by (apply Z.mod_pos_bound; lia).
  destruct (crtesn_lex_local_site _ _ Hpos' Hrb ltac:(fold vol_cb; lia))
    as (q & Hc & Hval & _).
  pose proof Hval as Hval0.
  inversion Hval as [|q0 h qs ds' Hq0 Hqs]; subst.
  assert ((i + vol L) mod vol_cb = i mod vol_cb) as Hm.
  { replace (i + vol L) with (i + 2 * vol_cb) by lia.
    apply Z.mod_add. lia. }
  assert ((i + vol L) / vol_cb = i / vol_cb + 2) as Hq.
  { replace (i + vol L) with (i + 2 * vol_cb) by lia.
    apply Z.div_add. lia. }
  exists (2 * q0 + (i / vol_cb + sumZ qs) mod 2 :: qs).
  split; [apply cb2_siteCoords_any; [lia|done..]|]. split.
  - rewrite (cb2_siteCoords_any (i + vol L) q0 qs); [|lia|by rewrite Hm|done].
    rewrite Hq. do 2 f_equal. zdiv.
  - rewrite Hnrow. constructor; [|done].
    assert (0 ≤ (i / vol_cb + sumZ qs) mod 2 < 2)
      by (apply Z.mod_pos_bound; lia).
    lia.
Qed.

End CB2_beyond.

(** X23.  [siteCoords] of the 2 checkerboard layout does not check its
    site against the volume: a site [i + vol] that is an [int] gets the
    coordinate of site [i], which lies within the extents. *)
Theorem cb2_siteCoords_wraps (Nd : nat) (junk : Z) (L : LocalLayout_t)
    (i : Z) :
  (1 ≤ Nd)%nat →
  length (nrow L) = Nd →
  Forall (λ d, 0 < d) (nrow L) →
  vol L = volume (nrow L) →
  divisibility CB2 (nrow L) →
  0 ≤ i →
  i + vol L ≤ INT_MAX →
  ∃ c, siteCoords Nd junk CB2 L 0 i = Some c
       ∧ siteCoords Nd junk CB2 L 0 (i + vol L) = Some c
       ∧ valid_coord (nrow L) c.
Proof.
  intros HNd Hlen Hpos Hvol Hdiv Hi Hmax. simpl in *.
  destruct (nrow L) as [|d0 ds] eqn:Hnrow; [simpl in Hlen; lia|].
  inversion Hpos; subst. inversion Hdiv; subst.
  assert (0 < vol L) by (rewrite Hvol; by apply volume_pos).
  rewrite <- Hnrow.
  apply (cb2_siteCoords_wrap L d0 ds); try done. lia.
Qed.

(** * Instances of the further properties *)

Lemma siteCoords_within_extents_witness :
  ∃ c, siteCoords 4 0 CB32 layout_4444 0 77 = Some c
       ∧ length c = 4%nat
       ∧ ∀ (m : nat) x d, c !! m = Some x →
           nrow layout_4444 !! m = Some d → 0 ≤ x < d.
Proof.
  apply (siteCoords_within_extents 4 0 CB32 layout_4444 77).
  - simpl; lia.
  - reflexivity.
  - repeat constructor.
  - reflexivity.
  - vm_compute; discriminate.
  - split; repeat constructor.
  - vm_compute. split; [discriminate|reflexivity].
Defined.

Lemma linearSiteIndex_within_vol_witness :
  ∃ i, linearSiteIndex 4 0 CB3D layout_4444 [1; 2; 3; 2] = Some i
       ∧ 0 ≤ i < vol layout_4444
       ∧ ∀ c', valid_coord (nrow layout_4444) c' →
           linearSiteIndex 4 0 CB3D layout_4444 c' = Some i →
           c' = [1; 2; 3; 2].
Proof.
  apply (linearSiteIndex_within_vol 4 0 CB3D layout_4444 [1; 2; 3; 2]).
  - simpl; lia.
  - reflexivity.
  - repeat constructor.
  - reflexivity.
  - vm_compute; discriminate.
  - repeat constructor.
  - repeat constructor; vm_compute; (discriminate || reflexivity).
Defined.

Lemma linearSiteIndex_site_lexico_witness :
  linearSiteIndex_site 2 0 LEXICO layout_23 5 = Some 5.
Proof.
  apply (linearSiteIndex_site_lexico 2 0 layout_23 5).
  - repeat constructor.
  - vm_compute; discriminate.
  - vm_compute. split; [discriminate|reflexivity].
Defined.

Lemma linearSiteIndex_site_permutation_witness :
  ∃ j, linearSiteIndex_site 4 0 CB2 layout_4444 77 = Some j
       ∧ 0 ≤ j < vol layout_4444.
Proof.
  apply (proj1 (linearSiteIndex_site_permutation 4 0 CB2 layout_4444
                  ltac:(simpl; lia) eq_refl ltac:(repeat constructor)
                  eq_refl ltac:(vm_compute; discriminate)
                  ltac:(repeat constructor))).
  vm_compute. split; [discriminate|reflexivity].
Defined.

Lemma create_accepts_conforming_witness :
  create 4 0 CB32 true layout_unset_4444
  = Done (mkLayout (volume (nrow layout_unset_4444))
                   (nrow layout_unset_4444)
                   (volume (nrow layout_unset_4444))
                   (replicate 4 0) (replicate 4 1) (replicate 4 1)).
Proof.
  apply (create_accepts_conforming 4 0 CB32 layout_unset_4444).
  - simpl; lia.
  - reflexivity.
  - repeat constructor.
  - split; repeat constructor.
  - vm_compute; discriminate.
Defined.

Lemma create_depends_on_lattSize_witness :
  create 4 0 CB2 true layout_4444 = Done layout_4444.
Proof.
  apply (proj2 (create_depends_on_lattSize 4 0 CB2 true layout_unset_4444)).
  vm_compute. reflexivity.
Defined.

Lemma create_too_small_for_checkerboard_witness :
  create 4 0 CB32 true (setLattSize [2; 2; 2; 2] layout_unset_4444)
  = Undefined.
Proof.
  apply (create_too_small_for_checkerboard 4 0 CB32
           (setLattSize [2; 2; 2; 2] layout_unset_4444) 16).
  - reflexivity.
  - vm_compute. reflexivity.
  - vm_compute. split; reflexivity.
Defined.

Lemma create_without_sites_witness :
  create 4 0 CB2 true (setLattSize [4; 0; 4; 4] layout_unset_4444)
  = Done (mkLayout 0 [4; 0; 4; 4] 0 (replicate 4 0) (replicate 4 1)
                   (replicate 4 1)).
Proof.
  apply (create_without_sites 4 0 CB2
           (setLattSize [4; 0; 4; 4] layout_unset_4444) 0).
  - reflexivity.
  - vm_compute. reflexivity.
  - lia.
Defined.

Lemma create_single_node_witness :
  sitesOnNode layout_4444 * numNodes = vol layout_4444
  ∧ subgridLattSize layout_4444 = lattSize layout_4444
  ∧ numNodes = volume (logicalSize layout_4444)
  ∧ nodeCoord layout_4444 = getLogicalCoordFrom 4 0 nodeNumber
  ∧ getNodeNumberFrom (nodeCoord layout_4444) = nodeNumber
  ∧ (∀ c, nodeNumber_coord c = nodeNumber)
  ∧ numIONodeGrid = volume (getIONodeGrid layout_4444).
Proof.
  apply (create_single_node 4 0 CB2 true layout_unset_4444 layout_4444).
  vm_compute. reflexivity.
Defined.

Lemma cb2_site_parity_witness :
  ∃ c, siteCoords 4 0 CB2 layout_4444 0 128 = Some c
       ∧ (128 < vol layout_4444 / 2 ↔ sumZ c mod 2 = 0).
Proof.
  apply (cb2_site_parity 4 0 layout_4444 128).
  - lia.
  - reflexivity.
  - repeat constructor.
  - reflexivity.
  - vm_compute; discriminate.
  - repeat constructor.
  - vm_compute. split; [discriminate|reflexivity].
Defined.

Lemma cb32_site_low_bits_witness :
  ∃ c, siteCoords 4 0 CB32 layout_4444 0 77 = Some c
       ∧ ∀ (m : nat) x, c !! m = Some x →
           Z.land x 1
           = Z.b2z (Z.testbit (77 / (vol layout_4444 / 2 ^ (Z.of_nat 4 + 1)))
                              (Z.of_nat m)).
Proof.
  apply (cb32_site_low_bits 4 0 layout_4444 77).
  - lia.
  - reflexivity.
  - repeat constructor.
  - reflexivity.
  - vm_compute; discriminate.
  - split; repeat constructor.
  - vm_compute. split; [discriminate|reflexivity].
Defined.

Lemma map_erase_present_witness :
  (MapObjectMemory.exist id "k"
     (MapObjectMemory.erase id "k" map_one).2).1 = false.
Proof.
  apply (map_erase_present id "k" 0%nat map_one).
  eexists. vm_compute. reflexivity.
Defined.

Lemma map_insert_erase_roundtrip_witness :
  (MapObjectMemory.erase id "j"
     (MapObjectMemory.insert id "j" 2%nat map_one).2).2 = map_one
  ∧ (MapObjectMemory.insert id "k" 1%nat
       (MapObjectMemory.erase id "k" map_one).2).2 = map_one.
Proof.
  split.
  - apply (map_insert_erase_roundtrip id "j" 2%nat map_one).
    vm_compute. reflexivity.
  - apply (map_insert_erase_roundtrip id "k" 1%nat map_one).
    vm_compute. reflexivity.
Defined.

Lemma map_insert_compose_witness :
  (MapObjectMemory.insert id "j" 3%nat
     (MapObjectMemory.insert id "j" 2%nat map_one).2).2
  = (MapObjectMemory.insert id "j" 3%nat map_one).2
  ∧ (MapObjectMemory.insert id "j" 3%nat
       (MapObjectMemory.insert id "k" 2%nat map_one).2).2
    = (MapObjectMemory.insert id "k" 2%nat
         (MapObjectMemory.insert id "j" 3%nat map_one).2).2.
Proof.
  split.
  - apply (map_insert_compose id "j" "j" 2%nat 3%nat map_one). reflexivity.
  - apply (map_insert_compose id "k" "j" 2%nat 3%nat map_one). discriminate.
Defined.

Lemma map_keys_exist_witness :
  let o := do_calls id [CInsert "a" 1%nat; CInsert "b" 2%nat; CErase "a"]
             MapObjectMemory.default in
  let ks := (MapObjectMemory.keys id ["z"] o).1 in
  (∀ k, k ∈ ks ↔ (MapObjectMemory.exist id k o).1 = true)
  ∧ NoDup ks
  ∧ Z.of_nat (length ks) mod 2 ^ 32 = (MapObjectMemory.size o).1
  ∧ (MapObjectMemory.keys id ["z"] o).2 = o.
Proof.
  apply (map_keys_exist id id
           [CInsert "a" 1%nat; CInsert "b" 2%nat; CErase "a"] ["z"]).
  reflexivity.
Defined.

Lemma map_keysAndValues_get_witness :
  let o := do_calls id [CInsert "a" 1%nat; CInsert "b" 2%nat; CErase "a"]
             MapObjectMemory.default in
  let r := MapObjectMemory.keysAndValues id ["z"] [7%nat] o in
  r.1.1 = (MapObjectMemory.keys id ["z"] o).1
  ∧ length r.1.2 = length r.1.1
  ∧ (∀ k v, (k, v) ∈ zip r.1.1 r.1.2
            ↔ MapObjectMemory.get id k 0%nat o = (0, v, o))
  ∧ r.2 = o.
Proof.
  apply (map_keysAndValues_get id id
           [CInsert "a" 1%nat; CInsert "b" 2%nat; CErase "a"] ["z"]
           [7%nat] 0%nat).
  reflexivity.
Defined.

Lemma map_user_data_kept_witness :
  MapObjectMemory.getUserdata
    (do_calls id [CInsert "a" 1%nat; CClear]
       (MapObjectMemory.insertUserdata "u" map_one).2)
  = (0, "u",
     do_calls id [CInsert "a" 1%nat; CClear]
       (MapObjectMemory.insertUserdata "u" map_one).2).
Proof.
  apply (map_user_data_kept id "u" [CInsert "a" 1%nat; CClear] "k" 0%nat
           map_one).
  repeat constructor; discriminate.
Defined.

Lemma write_multi1d_num_bounds_witness :
  write_multi1d_num (λ (x : nat) (bin : list nat), bin ++ [x])
    [1; 2; 3]%nat 2 []
  = Some (foldl (λ bin x, bin ++ [x]) [] (take (Z.to_nat 2) [1; 2; 3]%nat))
  ∧ write_multi1d_num (λ (x : nat) (bin : list nat), bin ++ [x])
      [1; 2; 3]%nat (-1) [] = Some []
  ∧ write_multi1d_num (λ (x : nat) (bin : list nat), bin ++ [x])
      [1; 2; 3]%nat 4 [] = None.
Proof.
  split; [|split].
  - apply (write_multi1d_num_bounds
             (λ (x : nat) (bin : list nat), bin ++ [x]) [1; 2; 3]%nat 2 []).
    simpl. lia.
  - apply (write_multi1d_num_bounds
             (λ (x : nat) (bin : list nat), bin ++ [x]) [1; 2; 3]%nat (-1) []).
    lia.
  - apply (write_multi1d_num_bounds
             (λ (x : nat) (bin : list nat), bin ++ [x]) [1; 2; 3]%nat 4 []).
    simpl. lia.
Defined.

Lemma write_multi1d_self_delimiting_witness :
  [1; 2] = [1; 2] ∧ [9; 9] = [9; 9].
Proof.
  apply (write_multi1d_self_delimiting [1; 2] [1; 2] [5] [5; 2; 1; 2]
           [5; 2; 1; 2] [9; 9] [9; 9]); reflexivity.
Defined.

Lemma cb2_siteCoords_wraps_witness :
  ∃ c, siteCoords 4 0 CB2 layout_4444 0 5 = Some c
       ∧ siteCoords 4 0 CB2 layout_4444 0 (5 + vol layout_4444) = Some c
       ∧ valid_coord (nrow layout_4444) c.
Proof.
  apply (cb2_siteCoords_wraps 4 0 layout_4444 5).
  - lia.
  - reflexivity.
  - repeat constructor.
  - reflexivity.
  - repeat constructor.
  - lia.
  - vm_compute; discriminate.
Defined.
